(** * fdm: the unprivileged child (child.c)

    A shallow embedding of the rule engine, the expression evaluator, the
    action dispatcher and the fetch loop of [child.c], and the properties
    of the design document that are about them.

    Conventions.
    - C [int] results are [Z]; [u_int] counters are [Z] reduced modulo
      [2^32]; enums are inductive types; a pointer that may be [NULL] is an
      [option]; an [ARRAY] is a [list].
    - The tag buffer [struct strb] is a finite map from tag names to values.
    - [fatal]/[fatalx] end the process: they are the [Fatal] outcome of the
      monad [M], which also threads the match context, the [cause] out
      parameter and the log.
    - Functions of the other compilation units ([replacestr], [find_users],
      [match_actions], ...) are the fields of the class [Lib]. *)

From stdpp Require Import base tactics option list strings gmap.
From Stdlib Require Import ZArith Ascii String Bool Lia.

Local Open Scope string_scope.
Local Open Scope list_scope.
Local Open Scope Z_scope.

(** ** Data model *)

Definition uid_t := Z.

(** [struct strb]: the tags of a mail. *)
Abbreviation strb := (gmap string string).

Inductive decision := DECISION_NONE | DECISION_DROP | DECISION_KEEP.

Inductive fetch_result :=
  FETCH_SUCCESS | FETCH_ERROR | FETCH_OVERSIZE | FETCH_COMPLETE.

Inductive match_result := MATCH_FALSE | MATCH_TRUE | MATCH_ERROR.

Inductive deliver_result := DELIVER_SUCCESS | DELIVER_FAILURE.

Inductive deliver_type := DELIVER_INCHILD | DELIVER_ASUSER | DELIVER_WRBACK.

Inductive rule_type := RULE_EXPRESSION | RULE_ALL.

Inductive expr_op := OP_NONE | OP_OR | OP_AND.

Inductive msgtype := MSG_ACTION | MSG_COMMAND | MSG_DONE | MSG_EXIT.

#[global] Instance decision_eq_dec : EqDecision decision.
Proof. solve_decision. Defined.
#[global] Instance fetch_result_eq_dec : EqDecision fetch_result.
Proof. solve_decision. Defined.
#[global] Instance match_result_eq_dec : EqDecision match_result.
Proof. solve_decision. Defined.
#[global] Instance deliver_result_eq_dec : EqDecision deliver_result.
Proof. solve_decision. Defined.
#[global] Instance deliver_type_eq_dec : EqDecision deliver_type.
Proof. solve_decision. Defined.
#[global] Instance msgtype_eq_dec : EqDecision msgtype.
Proof. solve_decision. Defined.

(** [struct mail]: the bytes, the size, the offset of the body ([-1] when
    there is none), the decision, the tags and the positions of the
    wrapped header lines. *)
Record mail := Mail {
  m_data : list ascii;
  m_size : Z;
  m_body : Z;
  m_decision : decision;
  m_tags : strb;
  m_wrapped : list nat
}.

Definition mail_with_data (d : list ascii) (m : mail) : mail :=
  Mail d (m_size m) (m_body m) (m_decision m) (m_tags m) (m_wrapped m).
Definition mail_with_decision (d : decision) (m : mail) : mail :=
  Mail (m_data m) (m_size m) (m_body m) d (m_tags m) (m_wrapped m).
Definition mail_with_tags (t : strb) (m : mail) : mail :=
  Mail (m_data m) (m_size m) (m_body m) (m_decision m) t (m_wrapped m).

(** [memset(&m, 0, sizeof m)]. *)
Definition mail_zero : mail := Mail [] 0 0 DECISION_NONE ∅ [].

(** The mail [fetch_account] hands to the [fetch] hook: zeroed, with
    [m.body = -1] and [m.decision = DECISION_DROP]. *)
Definition fresh_mail : mail := Mail [] 0 (-1) DECISION_DROP ∅ [].

(** [struct replstr]: a template; [str] may be [NULL]. *)
Record replstr := Replstr { rs_str : option string }.

(** [struct deliver_ctx]. *)
Record deliver_ctx (account : Type) := DeliverCtx {
  dctx_account : account;
  dctx_mail : mail
}.
Arguments DeliverCtx {account} _ _.
Arguments dctx_account {account} _.
Arguments dctx_mail {account} _.

(** The calls of the hooks of a fetch backend. *)
Inductive fetch_call :=
| C_start | C_poll | C_fetch | C_done (d : decision) | C_purge | C_finish.

(** [struct fetch]: the hooks of a fetch backend; an absent hook is
    [None].  The private data of a backend ([a->data]) is known here by
    the calls the backend has seen, on which its answers depend.  [fetch]
    fills the mail it is given. *)
Record fetch := Fetch {
  f_start : option (list fetch_call -> fetch_result);
  f_poll : option (list fetch_call -> fetch_result * Z);
  f_fetch : option (list fetch_call -> mail -> fetch_result * mail);
  f_done : option (list fetch_call -> decision -> fetch_result);
  f_purge : option (list fetch_call -> fetch_result);
  f_finish : option (list fetch_call -> fetch_result)
}.

(** [struct account]. *)
Record account := Account {
  a_name : string;
  a_users : option (list uid_t);
  a_find_uid : bool;
  a_keep : bool;
  a_fetch : fetch;
  a_data : list fetch_call
}.

Definition account_call (c : fetch_call) (a : account) : account :=
  Account (a_name a) (a_users a) (a_find_uid a) (a_keep a) (a_fetch a)
          (a_data a ++ [c]).

(** [struct deliver]: the kind of a deliverer and its function, which runs
    on a delivery context and may change the mail. *)
Record deliver := Deliver {
  d_type : deliver_type;
  d_deliver : option (deliver_ctx account -> deliver_result * mail)
}.

(** [struct action]. *)
Record action := Action {
  t_name : string;
  t_users : option (list uid_t);
  t_find_uid : bool;
  t_deliver : deliver
}.

(** [struct msg]: the fixed header of a privsep message. *)
Record msg := Msg {
  msg_type : msgtype;
  msg_account : option account;
  msg_action : option action;
  msg_uid : uid_t;
  msg_error : Z;
  msg_mail : mail
}.

(** One exchange with the parent, as the child sees it: whether the write
    succeeds, and the header and the buffer that come back, if any. *)
Record peer_step := PeerStep {
  ps_send_ok : bool;
  ps_reply : option (msg * option strb)
}.

(** [struct io] of the privsep channel: what the child has written and
    what the parent is going to answer. *)
Record io := Io {
  io_sent : list (msg * strb);
  io_peer : list peer_step
}.

(** [struct match_ctx]. *)
Record match_ctx := MatchCtx {
  mctx_io : io;
  mctx_account : account;
  mctx_mail : mail;
  mctx_matched : bool;
  mctx_stopped : bool
}.

(** [struct expritem]: [ei_match] is [ei->match->match(mctx, ei)], a
    primitive that reads the match context and answers, and [ei_desc]
    what [ei->match->desc] writes. *)
Record expritem := ExprItem {
  ei_match : match_ctx -> match_result;
  ei_desc : string;
  ei_inverted : bool;
  ei_op : expr_op
}.

(** [struct rule]; [r_rules] is the list of nested rules. *)
#[warnings="-register-all"]
Inductive rule := Rule {
  r_idx : Z;
  r_accounts : list string;
  r_type : rule_type;
  r_expr : list expritem;
  r_key : replstr;
  r_value : replstr;
  r_actions : option (list replstr);
  r_stop : bool;
  r_find_uid : bool;
  r_users : option (list uid_t);
  r_rules : list rule
}.

(** The part of [struct conf] that [child.c] reads. *)
Record config := Config {
  conf_rules : list rule;
  conf_impl_act : decision;
  conf_keep_all : bool;
  conf_del_big : bool;
  conf_purge_after : Z;
  conf_def_user : uid_t;
  conf_no_received : bool;
  conf_info_fqdn : option string;
  conf_info_host : string
}.

(** ** The log *)

Inductive log_level := LOG_WARN | LOG_INFO | LOG_DEBUG | LOG_DEBUG2 | LOG_DEBUG3.

(** One constructor for every format string of the functions below; the
    leading account name and the timings are left out. *)
Inductive log_msg :=
| L_fetching
| L_too_big (size : Z)
| L_empty_message
| L_deleting
| L_keeping
| L_purging (n : Z)
| L_aborted (cause : string)
| L_processed_kept (n kept : Z)
| L_processed (n : Z)
| L_got_message (size body : Z)
| L_no_message_id
| L_message_id (hdr : string)
| L_received_failed
| L_wrapped (lines : Z)
| L_end_none
| L_end_keep
| L_end_drop
| L_matched (idx : Z) (nested : bool)
| L_tagging (key value : string)
| L_delivering
| L_enter_nested
| L_exit_nested (stopping : bool)
| L_tried (inverted : bool) (desc : string) (cres : bool)
| L_looking (s : option string)
| L_no_actions (s was : option string)
| L_found (n : Z)
| L_action (name : string)
| L_modified (size body : Z).

Definition log_line : Type := log_level * log_msg.

(** ** The state and the monad *)

(** What a call of [do_rules] can change: the match context, the [cause]
    out parameter and the log. *)
Record state := State {
  st_mctx : match_ctx;
  st_cause : option string;
  st_log : list log_line
}.

Inductive res (A : Type) :=
| Ok (a : A) (s : state)
| Fatal (why : string).
Arguments Ok {A} _ _.
Arguments Fatal {A} _.

Definition M (A : Type) : Type := state -> res A.

Definition ret {A} (a : A) : M A := fun s => Ok a s.

Definition bind {A B} (m : M A) (f : A -> M B) : M B :=
  fun s => match m s with
           | Ok a s' => f a s'
           | Fatal why => Fatal why
           end.

Notation "x <- m ;; k" := (bind m (fun x => k))
  (at level 100, m at next level, right associativity).
Notation "m ;;; k" := (bind m (fun _ => k))
  (at level 100, right associativity).

Definition gets {A} (f : state -> A) : M A := fun s => Ok (f s) s.
Definition modify (f : state -> state) : M unit := fun s => Ok tt (f s).
Definition fatalx {A} (why : string) : M A := fun _ => Fatal why.

Definition st_mail (s : state) : mail := mctx_mail (st_mctx s).
Definition st_account (s : state) : account := mctx_account (st_mctx s).
Definition st_io (s : state) : io := mctx_io (st_mctx s).
Definition st_stopped (s : state) : bool := mctx_stopped (st_mctx s).
Definition st_matched (s : state) : bool := mctx_matched (st_mctx s).

Definition mctx_with_mail (m : mail) (c : match_ctx) : match_ctx :=
  MatchCtx (mctx_io c) (mctx_account c) m (mctx_matched c) (mctx_stopped c).
Definition mctx_with_io (i : io) (c : match_ctx) : match_ctx :=
  MatchCtx i (mctx_account c) (mctx_mail c) (mctx_matched c) (mctx_stopped c).
Definition mctx_with_matched (b : bool) (c : match_ctx) : match_ctx :=
  MatchCtx (mctx_io c) (mctx_account c) (mctx_mail c) b (mctx_stopped c).
Definition mctx_with_stopped (b : bool) (c : match_ctx) : match_ctx :=
  MatchCtx (mctx_io c) (mctx_account c) (mctx_mail c) (mctx_matched c) b.

Definition with_mctx (f : match_ctx -> match_ctx) (s : state) : state :=
  State (f (st_mctx s)) (st_cause s) (st_log s).
Definition with_mail (f : mail -> mail) (s : state) : state :=
  with_mctx (fun c => mctx_with_mail (f (mctx_mail c)) c) s.
Definition with_cause (c : string) (s : state) : state :=
  State (st_mctx s) (Some c) (st_log s).
Definition with_log (l : log_line) (s : state) : state :=
  State (st_mctx s) (st_cause s) (st_log s ++ [l]).

Definition log (lvl : log_level) (m : log_msg) : M unit :=
  modify (with_log (lvl, m)).
Definition log_warnx := log LOG_WARN.
Definition log_info := log LOG_INFO.
Definition log_debug := log LOG_DEBUG.
Definition log_debug2 := log LOG_DEBUG2.

(** ** The expression evaluator *)

(** The loop of [do_expr]; [fres] is the accumulator. *)
Fixpoint do_expr_loop (items : list expritem) (fres : bool) : M Z :=
  match items with
  | [] => ret (Z.b2z fres)
  | ei :: items' =>
      cres <- gets (fun s => ei_match ei (st_mctx s)) ;;
      if bool_decide (cres = MATCH_ERROR) then ret (-1)
      else
        let cres := bool_decide (cres = MATCH_TRUE) in
        let cres := if ei_inverted ei then negb cres else cres in
        let fres := match ei_op ei with
                    | OP_NONE | OP_OR => fres || cres
                    | OP_AND => fres && cres
                    end in
        log_debug2 (L_tried (ei_inverted ei) (ei_desc ei) cres) ;;;
        do_expr_loop items' fres
  end.

Definition do_expr (r : rule) : M Z := do_expr_loop (r_expr r) false.

(** ** The other compilation units *)

(** The functions [child.c] calls in the rest of the program.
    [replacestr] may return [NULL]; [find_users] returns [NULL] when the
    mail names no user; [mail_send m] is what [mail_send] puts in
    [msg->data.mail]; [find_header] returns the header's value, whose
    length is [len]; [insert_header] gets the name of the header to insert
    before and the arguments of the format. *)
Class Lib := {
  name_match : string -> string -> bool;
  replacestr : replstr -> strb -> mail -> option string;
  update_tags : strb -> strb;
  find_users : mail -> option (list uid_t);
  match_actions : option string -> list action;
  mail_send : mail -> mail;
  mail_receive : mail -> msg -> mail;
  trim_from : mail -> mail;
  fill_wrapped : mail -> Z * mail;
  find_header : mail -> string -> bool -> option string;
  insert_header : mail -> string -> list string -> Z * mail;
  rfc822_time : option string;
  progname : string
}.

(** Modelled from the spec: [set_wrapped] (mail.c is not part of the
    sources).  Every wrapped-line position of the mail gets the character
    [ch]: a space joins the wrapped lines, a newline restores them. *)
Definition set_wrapped (ch : ascii) (m : mail) : mail :=
  mail_with_data
    (fold_left (fun d pos => <[pos := ch]> d) (m_wrapped m) (m_data m)) m.

(** Modelled from the spec: [add_tag] (strb.c is not part of the sources).
    The tag [key] is added, or overwritten when it is there. *)
Definition add_tag (key value : string) (tags : strb) : strb :=
  <[key := value]> tags.

(** Modelled from the spec: [privsep_send] (privsep.c is not part of the
    sources).  The header and the buffer are written when the channel
    takes them; [None] is a non-zero return. *)
Definition privsep_send (i : io) (h : msg) (buf : strb) : option io :=
  match io_peer i with
  | p :: _ =>
      if ps_send_ok p then Some (Io (io_sent i ++ [(h, buf)]) (io_peer i))
      else None
  | [] => None
  end.

(** Modelled from the spec: [privsep_recv] (privsep.c is not part of the
    sources).  The next header comes back with its buffer, which is [None]
    when the pointer is [NULL] or the length zero; [None] is a non-zero
    return. *)
Definition privsep_recv (i : io) : option (msg * option strb * io) :=
  match io_peer i with
  | p :: rest =>
      match ps_reply p with
      | Some (h, buf) => Some (h, buf, Io (io_sent i) rest)
      | None => None
      end
  | [] => None
  end.

Definition NL : ascii := "010"%char.
Definition SP : ascii := " "%char.

Definition INT_MAX : Z := 2147483647.
Definition UINT_MOD : Z := 2 ^ 32.

(** [x++] on a [u_int]. *)
Definition u_incr (x : Z) : Z := (x + 1) mod UINT_MOD.
(** [x + y] on [u_int]s. *)
Definition u_add (x y : Z) : Z := (x + y) mod UINT_MOD.

(** How the body of a loop ends: with the next iteration, or with a
    [return]. *)
Inductive flow := Next | Return (c : Z).

Definition ARRAY_EMPTY {A} (l : list A) : bool :=
  match l with [] => true | _ => false end.
Definition ARRAY_LENGTH {A} (l : list A) : Z := Z.of_nat (List.length l).

Section Child.

Context {L : Lib}.
Variable conf : config.

(** ** The action dispatcher *)

(** [do_action], "figure out the users to use": the [find] flag and the
    array [users]. *)
Definition do_action_users (r : rule) (t : action) (a : account) (m : mail)
  : bool * list uid_t :=
  let '(find, users) :=
    if r_find_uid r then (true, find_users m)
    else match r_users r with
    | Some u => (false, Some u)
    | None =>
    if t_find_uid t then (true, find_users m)
    else match t_users t with
    | Some u => (false, Some u)
    | None =>
    if a_find_uid a then (true, find_users m)
    else match a_users a with
    | Some u => (false, Some u)
    | None => (false, None)
    end end end in
  match users with
  | None => (true, [conf_def_user conf])
  | Some u => (find, u)
  end.

(** The body of the [for] loop of [do_action]: the exchange with the
    parent for one user. *)
Definition do_action_user (a : account) (t : action) (uid : uid_t) : M flow :=
  m <- gets st_mail ;;
  let h := Msg MSG_ACTION (Some a) (Some t) uid 0 (mail_send m) in
  i <- gets st_io ;;
  match privsep_send i h (m_tags m) with
  | None => fatalx "child: privsep_send error"
  | Some i1 =>
  match privsep_recv i1 with
  | None => fatalx "child: privsep_recv error"
  | Some (h', buf, i2) =>
  modify (with_mctx (mctx_with_io i2)) ;;;
  if negb (bool_decide (msg_type h' = MSG_DONE))
  then fatalx "child: unexpected message"
  else
  match buf with
  | None => fatalx "child: bad tags"
  | Some tags =>
  modify (with_mail (mail_with_tags (update_tags tags))) ;;;
  if negb (msg_error h' =? 0) then ret (Return 1)
  else if negb (bool_decide (d_type (t_deliver t) = DELIVER_WRBACK)) then
    m <- gets st_mail ;;
    if negb (m_size m =? m_size (msg_mail h'))
       || negb (m_body m =? m_body (msg_mail h'))
    then fatalx "child: corrupted message"
    else ret Next
  else
    modify (with_mail (fun m => mail_receive m h')) ;;;
    m <- gets st_mail ;;
    log_debug (L_modified (m_size m) (m_body m)) ;;;
    modify (with_mail trim_from) ;;;
    m <- gets st_mail ;;
    let '(l, m') := fill_wrapped m in
    modify (with_mail (fun _ => m')) ;;;
    log_debug2 (L_wrapped l) ;;;
    ret Next
  end end end.

Fixpoint do_action_loop (a : account) (t : action) (users : list uid_t) : M Z :=
  match users with
  | [] => ret 0
  | uid :: users' =>
      f <- do_action_user a t uid ;;
      match f with
      | Return c => ret c
      | Next => do_action_loop a t users'
      end
  end.

Definition do_action (r : rule) (t : action) : M Z :=
  match d_deliver (t_deliver t) with
  | None => ret 0
  | Some deliver_fn =>
      modify (with_mail (fun m => mail_with_tags (add_tag "action" (t_name t) (m_tags m)) m)) ;;;
      a <- gets st_account ;;
      m <- gets st_mail ;;
      if bool_decide (d_type (t_deliver t) = DELIVER_INCHILD) then
        let '(res, m') := deliver_fn (DeliverCtx a m) in
        modify (with_mail (fun _ => m')) ;;;
        if negb (bool_decide (res = DELIVER_SUCCESS)) then ret 1 else ret 0
      else
        do_action_loop a t (snd (do_action_users r t a m))
  end.

(** ** Delivery *)

(** The inner loop of [do_deliver], over the actions a name matches. *)
Fixpoint do_deliver_actions (r : rule) (ta : list action) : M Z :=
  match ta with
  | [] => ret 0
  | t :: ta' =>
      log_debug2 (L_action (t_name t)) ;;;
      c <- do_action r t ;;
      if negb (c =? 0) then ret 1 else do_deliver_actions r ta'
  end.

(** The outer loop of [do_deliver], over the action names of the rule. *)
Fixpoint do_deliver_loop (r : rule) (actions : list replstr) : M Z :=
  match actions with
  | [] => ret 0
  | rs :: actions' =>
      m <- gets st_mail ;;
      let s := replacestr rs (m_tags m) m in
      log_debug2 (L_looking s) ;;;
      let ta := match_actions s in
      if ARRAY_EMPTY ta then
        log_warnx (L_no_actions s (rs_str rs)) ;;;
        ret 1
      else
        log_debug2 (L_found (ARRAY_LENGTH ta)) ;;;
        c <- do_deliver_actions r ta ;;
        if negb (c =? 0) then ret 1 else do_deliver_loop r actions'
  end.

Definition do_deliver (r : rule) : M Z :=
  match r_actions r with
  | None => ret 0
  | Some actions => do_deliver_loop r actions
  end.

(** ** The rule engine *)

(** The [for] loop over [r->accounts]: the index at which it stops. *)
Fixpoint accounts_scan (aa : list string) (name : string) (i : Z) : Z :=
  match aa with
  | [] => i
  | pat :: aa' =>
      if name_match pat name then i else accounts_scan aa' name (i + 1)
  end.

(** "check if the rule is for the current account": [true] when the rule
    is skipped. *)
Definition rule_not_for (r : rule) (a : account) : bool :=
  let aa := r_accounts r in
  negb (ARRAY_EMPTY aa)
  && (accounts_scan aa (a_name a) 0 =? ARRAY_LENGTH aa).

(** "match all the regexps": the [switch] on the type of the rule.  [None]
    is the [break]. *)
Definition rule_match (r : rule) : M (option flow) :=
  match r_type r with
  | RULE_EXPRESSION =>
      modify (with_mail (set_wrapped SP)) ;;;
      error <- do_expr r ;;
      if error =? -1 then
        modify (with_cause "matching") ;;;
        ret (Some (Return 1))
      else if error =? 0 then ret (Some Next)
      else ret None
  | RULE_ALL => ret None
  end.

(** "tag mail if needed". *)
Definition rule_tag (r : rule) : M unit :=
  match rs_str (r_key r) with
  | None => ret tt
  | Some _ =>
      m <- gets st_mail ;;
      let tkey := replacestr (r_key r) (m_tags m) m in
      let tvalue := replacestr (r_value r) (m_tags m) m in
      match tkey, tvalue with
      | Some k, Some v =>
          if negb (bool_decide (k = "")) then
            log_debug2 (L_tagging k v) ;;;
            modify (with_mail (fun m => mail_with_tags (add_tag k v (m_tags m)) m))
          else ret tt
      | _, _ => ret tt
      end
  end.

(** "handle delivery". *)
Definition rule_deliver (r : rule) : M flow :=
  match r_actions r with
  | None => ret Next
  | Some _ =>
      log_debug2 L_delivering ;;;
      modify (with_mctx (mctx_with_matched true)) ;;;
      c <- do_deliver r ;;
      if negb (c =? 0) then
        modify (with_cause "delivery") ;;;
        ret (Return 1)
      else ret Next
  end.

(** "if this rule is marked as stop, stop checking now". *)
Definition rule_stop (r : rule) : M flow :=
  if r_stop r then
    modify (with_mctx (mctx_with_stopped true)) ;;;
    ret (Return 0)
  else ret Next.

(** What follows the recursive call of [do_rules] on the nested rules. *)
Definition rule_nested_exit (r : rule) (c : Z) : M flow :=
  if negb (c =? 0) then ret (Return 1)
  else
    stopped <- gets st_stopped ;;
    log_debug2 (L_exit_nested stopped) ;;;
    if stopped then ret (Return 0) else rule_stop r.

(** The rule once it has matched, first part: "reset wrapped lines",
    "report rule number", "tag mail if needed" and "handle delivery". *)
Definition rule_enter (r : rule) : M flow :=
  modify (with_mail (set_wrapped NL)) ;;;
  log_debug (L_matched (r_idx r) (negb (ARRAY_EMPTY (r_rules r)))) ;;;
  rule_tag r ;;;
  rule_deliver r.

(** The rule once it has matched, second part: "deal with nested rules"
    and the stop flag, for the run [nested] of the nested rules. *)
Definition rule_leave (r : rule) (nested : M Z) : M flow :=
  if negb (ARRAY_EMPTY (r_rules r)) then
    log_debug2 L_enter_nested ;;;
    c <- nested ;;
    rule_nested_exit r c
  else rule_stop r.

Definition rule_matched (r : rule) (nested : M Z) : M flow :=
  f <- rule_enter r ;;
  match f with
  | Return c => ret (Return c)
  | Next => rule_leave r nested
  end.

(** The body of the loop of [do_rules] on the rule [r], for the run
    [nested] of its nested rules. *)
Definition rule_body (r : rule) (nested : M Z) : M flow :=
  a <- gets st_account ;;
  if rule_not_for r a then ret Next
  else
    x <- rule_match r ;;
    match x with
    | Some f => ret f
    | None => rule_matched r nested
    end.

(** [do_rules] on one rule. *)
Fixpoint do_rule (r : rule) : M flow :=
  rule_body r
    ((fix nested (rules : list rule) : M Z :=
        match rules with
        | [] => ret 0
        | r' :: rules' =>
            f <- do_rule r' ;;
            match f with
            | Return c => ret c
            | Next => nested rules'
            end
        end) (r_rules r)).

(** [do_rules]: the [TAILQ_FOREACH] over the rules. *)
Fixpoint do_rules (rules : list rule) : M Z :=
  match rules with
  | [] => ret 0
  | r :: rules' =>
      f <- do_rule r ;;
      match f with
      | Return c => ret c
      | Next => do_rules rules'
      end
  end.

(** ** A fetched mail *)

(** "reached end of ruleset. find implicit decision". *)
Definition implicit_decision : M unit :=
  match conf_impl_act conf with
  | DECISION_NONE =>
      log_warnx L_end_none ;;;
      modify (with_mail (mail_with_decision DECISION_KEEP))
  | DECISION_KEEP =>
      log_debug L_end_keep ;;;
      modify (with_mail (mail_with_decision DECISION_KEEP))
  | DECISION_DROP =>
      log_debug L_end_drop ;;;
      modify (with_mail (mail_with_decision DECISION_DROP))
  end.

(** The label [done] of [fetch_got]. *)
Definition fetch_got_done (a : account) : M fetch_result :=
  (if conf_keep_all conf || a_keep a
   then modify (with_mail (mail_with_decision DECISION_KEEP))
   else ret tt) ;;;
  ret FETCH_SUCCESS.

(** "handle rule evaluation and actions" and what follows it. *)
Definition fetch_got_rules (a : account) : M fetch_result :=
  modify (with_mctx (fun c => mctx_with_stopped false (mctx_with_matched false c))) ;;;
  c <- do_rules (conf_rules conf) ;;
  if negb (c =? 0) then ret FETCH_ERROR
  else
    stopped <- gets st_stopped ;;
    (if stopped then ret tt else implicit_decision) ;;;
    fetch_got_done a.

(** The message-id tag of [fetch_got]. *)
Definition fetch_got_message_id : M unit :=
  m <- gets st_mail ;;
  match find_header m "message-id" true with
  | None => log_debug L_no_message_id
  | Some hdr =>
      let len := Z.of_nat (String.length hdr) in
      if (len =? 0) || (len >? INT_MAX) then log_debug L_no_message_id
      else
        log_debug (L_message_id hdr) ;;;
        modify (with_mail (fun m => mail_with_tags (add_tag "message_id" hdr (m_tags m)) m))
  end.

(** "Insert received header." *)
Definition fetch_got_received (a : account) : M unit :=
  if conf_no_received conf then ret tt
  else
    m <- gets st_mail ;;
    let '(error, m') :=
      match rfc822_time with
      | Some rtm =>
          let rnm := default (conf_info_host conf) (conf_info_fqdn conf) in
          insert_header m "received" [rnm; progname; a_name a; rtm]
      | None => (1, m)
      end in
    modify (with_mail (fun _ => m')) ;;;
    if negb (error =? 0) then log_debug L_received_failed else ret tt.

(** "fill wrapped line list". *)
Definition fetch_got_wrapped : M unit :=
  m <- gets st_mail ;;
  let '(lines, m') := fill_wrapped m in
  modify (with_mail (fun _ => m')) ;;;
  log_debug2 (L_wrapped lines).

(** [fetch_got] up to the rules: the log line, the message-id tag, the
    received header and the wrapped lines. *)
Definition fetch_got_prepare (a : account) : M unit :=
  m <- gets st_mail ;;
  log_debug (L_got_message (m_size m) (m_body m)) ;;;
  fetch_got_message_id ;;;
  fetch_got_received a ;;;
  fetch_got_wrapped.

(** [fetch_got] on the state its caller has: [memset(&mctx, 0, ...)] and
    the three assignments give the match context. *)
Definition fetch_got (i : io) (a : account) (m : mail)
    (cause : option string) (lg : list log_line) : res fetch_result :=
  (fetch_got_prepare a ;;; fetch_got_rules a)
  (State (MatchCtx i a m false false) cause lg).

(** ** The fetch loop *)

(** The variables of [fetch_account] that live across iterations, the
    channel, the account and the log. *)
Record fstate := FState {
  fs_io : io;
  fs_account : account;
  fs_cause : option string;
  fs_log : list log_line;
  fs_n : Z;
  fs_dropped : Z;
  fs_kept : Z
}.

Definition fs_with_log (l : log_line) (s : fstate) : fstate :=
  FState (fs_io s) (fs_account s) (fs_cause s) (fs_log s ++ [l])
         (fs_n s) (fs_dropped s) (fs_kept s).
Definition fs_with_cause (c : option string) (s : fstate) : fstate :=
  FState (fs_io s) (fs_account s) c (fs_log s)
         (fs_n s) (fs_dropped s) (fs_kept s).
Definition fs_call (c : fetch_call) (s : fstate) : fstate :=
  FState (fs_io s) (account_call c (fs_account s)) (fs_cause s)
         (fs_log s) (fs_n s) (fs_dropped s) (fs_kept s).
Definition fs_with_n (n : Z) (s : fstate) : fstate :=
  FState (fs_io s) (fs_account s) (fs_cause s) (fs_log s)
         n (fs_dropped s) (fs_kept s).
Definition fs_with_dropped (n : Z) (s : fstate) : fstate :=
  FState (fs_io s) (fs_account s) (fs_cause s) (fs_log s)
         (fs_n s) n (fs_kept s).
Definition fs_with_kept (n : Z) (s : fstate) : fstate :=
  FState (fs_io s) (fs_account s) (fs_cause s) (fs_log s)
         (fs_n s) (fs_dropped s) n.

(** How an iteration of the loop of [fetch_account] ends: with the next
    iteration, at the label [out], or in [fatalx]. *)
Inductive fetch_flow :=
| F_next (s : fstate)
| F_out (s : fstate)
| F_fatal (why : string).

(** The purge of every [conf.purge_after] mails. *)
Definition fetch_purge (s : fstate) : fetch_flow :=
  match f_purge (a_fetch (fs_account s)) with
  | Some purge =>
      if conf_purge_after conf >? 0 then
        let s := fs_with_n (u_incr (fs_n s)) s in
        if fs_n s >=? conf_purge_after conf then
          let s := fs_with_log (LOG_DEBUG, L_purging (fs_n s)) s in
          let r := purge (a_data (fs_account s)) in
          let s := fs_call C_purge s in
          if negb (bool_decide (r = FETCH_SUCCESS))
          then F_out (fs_with_cause (Some "purging") s)
          else F_next (fs_with_n 0 s)
        else F_next s
      else F_next s
  | None => F_next s
  end.

(** The label [done] of [fetch_account]: "finished with the message". *)
Definition fetch_done (s : fstate) (m : mail) : fetch_flow :=
  match f_done (a_fetch (fs_account s)) with
  | Some done =>
      let counted :=
        match m_decision m with
        | DECISION_DROP =>
            Some (fs_with_dropped (u_incr (fs_dropped s))
                    (fs_with_cause (Some "deleting")
                       (fs_with_log (LOG_DEBUG, L_deleting) s)))
        | DECISION_KEEP =>
            Some (fs_with_kept (u_incr (fs_kept s))
                    (fs_with_cause (Some "keeping")
                       (fs_with_log (LOG_DEBUG, L_keeping) s)))
        | DECISION_NONE => None
        end in
      match counted with
      | None => F_fatal "invalid decision"
      | Some s =>
          let r := done (a_data (fs_account s)) (m_decision m) in
          let s := fs_call (C_done (m_decision m)) s in
          if negb (bool_decide (r = FETCH_SUCCESS)) then F_out s
          else fetch_purge (fs_with_cause None s)
      end
  | None => fetch_purge s
  end.

(** One iteration of the loop of [fetch_account].  [do_child] does not
    call [fetch_account] on a backend without a [fetch] hook. *)
Definition fetch_iter (s : fstate) : fetch_flow :=
  let m := fresh_mail in
  match f_fetch (a_fetch (fs_account s)) with
  | None => F_fatal "fetching not supported"
  | Some fetch_fn =>
      let '(error, m) := fetch_fn (a_data (fs_account s)) m in
      let s := fs_call C_fetch s in
      match error with
      | FETCH_ERROR => F_out (fs_with_cause (Some "fetching") s)
      | FETCH_OVERSIZE =>
          let s := fs_with_log (LOG_WARN, L_too_big (m_size m)) s in
          if conf_del_big conf then fetch_done s m
          else F_out (fs_with_cause (Some "fetching") s)
      | FETCH_COMPLETE => F_out s
      | FETCH_SUCCESS =>
          let m := trim_from m in
          if m_size m =? 0 then
            F_next (fs_with_log (LOG_WARN, L_empty_message) s)
          else
            match fetch_got (fs_io s) (fs_account s) m (fs_cause s) (fs_log s) with
            | Fatal why => F_fatal why
            | Ok r st =>
                let s := FState (st_io st) (fs_account s) (st_cause st)
                           (st_log st) (fs_n s) (fs_dropped s) (fs_kept s) in
                if negb (bool_decide (r = FETCH_SUCCESS)) then F_out s
                else fetch_done s (st_mail st)
            end
      end
  end.

(** The [for (;;)] of [fetch_account], for at most [fuel] iterations;
    [None] when they do not reach the label [out]. *)
Fixpoint fetch_loop (fuel : nat) (s : fstate) : option fetch_flow :=
  match fuel with
  | O => None
  | S fuel' =>
      match fetch_iter s with
      | F_next s' => fetch_loop fuel' s'
      | F_out s' => Some (F_out s')
      | F_fatal why => Some (F_fatal why)
      end
  end.

(** The label [out] of [fetch_account]: the summary and the result. *)
Definition fetch_out (s : fstate) : Z * fstate :=
  let s := match fs_cause s with
           | Some cause => fs_with_log (LOG_WARN, L_aborted cause) s
           | None => s
           end in
  let s := fs_with_n (u_add (fs_dropped s) (fs_kept s)) s in
  let s := if fs_n s >? 0
           then fs_with_log (LOG_INFO, L_processed_kept (fs_n s) (fs_kept s)) s
           else fs_with_log (LOG_INFO, L_processed (fs_n s)) s in
  (if bool_decide (fs_cause s = None) then 0 else 1, s).

(** [fetch_account]: [None] when [fuel] iterations do not end the loop,
    [inr] when the process ends in [fatalx]. *)
Definition fetch_account (fuel : nat) (i : io) (a : account)
    (lg : list log_line) : option (Z * fstate + string) :=
  let s := FState i a None (lg ++ [(LOG_DEBUG, L_fetching)]) 0 0 0 in
  match fetch_loop fuel s with
  | None => None
  | Some (F_fatal why) => Some (inr why)
  | Some (F_out s') | Some (F_next s') => Some (inl (fetch_out s'))
  end.
End Child.

(** ** The child process *)

(** [enum fdmop]: the two operations [do_child] knows, and any other
    value. *)
Inductive fdmop := FDMOP_POLL | FDMOP_FETCH | FDMOP_other (n : Z).

(** What [do_child] asks the system: the answer of [geteuid()] and the
    result of [dropto(conf.child_uid)]. *)
Record sys := Sys {
  sys_euid : Z;
  sys_dropto : Z
}.

(** The format strings of [do_child] and [poll_account]; [D_line] is a
    line of the functions above. *)
Inductive child_msg :=
| D_started
| D_not_root
| D_changing_user
| D_poll_unsupported
| D_fetch_unsupported
| D_start_error
| D_started_processing
| D_finished_processing
| D_sending_exit
| D_waiting_exit
| D_polling
| D_polling_error
| D_found (n : Z)
| D_line (m : log_msg).

Definition child_line : Type := log_level * child_msg.

Definition D_lines (lg : list log_line) : list child_line :=
  map (λ l, (l.1, D_line l.2)) lg.

(** How [do_child] ends: with [return (error)], or in [fatal]. *)
Inductive child_end :=
| Child_return (error : Z) (a : account) (i : io) (lg : list child_line)
| Child_fatal (why : string).

(** The exit message: [memset(&msg, 0, sizeof msg)] and the type. *)
Definition exit_msg : msg := Msg MSG_EXIT None None 0 0 mail_zero.

Section ChildProcess.

Context {L : Lib}.
Variable conf : config.

(** [poll_account].  [do_child] does not call it on a backend without a
    [poll] hook. *)
Definition poll_account (a : account) (lg : list child_line)
  : Z * account * list child_line + string :=
  let lg := lg ++ [(LOG_DEBUG, D_polling)] in
  match f_poll (a_fetch a) with
  | None => inr "polling not supported"
  | Some poll =>
      let '(r, n) := poll (a_data a) in
      let a := account_call C_poll a in
      if bool_decide (r = FETCH_ERROR)
      then inl (1, a, lg ++ [(LOG_WARN, D_polling_error)])
      else inl (0, a, lg ++ [(LOG_INFO, D_found n)])
  end.

(** The label [out] of [do_child]: the [finish] hook and the exchange of
    exit messages with the parent, which come without a buffer. *)
Definition do_child_out (error : Z) (a : account) (i : io)
    (lg : list child_line) : child_end :=
  let '(error, a) :=
    match f_finish (a_fetch a) with
    | Some finish =>
        (if negb (bool_decide (finish (a_data a) = FETCH_SUCCESS))
         then 1 else error,
         account_call C_finish a)
    | None => (error, a)
    end in
  let lg := lg ++ [(LOG_DEBUG3, D_sending_exit)] in
  match privsep_send i exit_msg ∅ with
  | None => Child_fatal "child: privsep_send error"
  | Some i1 =>
      let lg := lg ++ [(LOG_DEBUG3, D_waiting_exit)] in
      match privsep_recv i1 with
      | None => Child_fatal "child: privsep_recv error"
      | Some (h, _, i2) =>
          if negb (bool_decide (msg_type h = MSG_EXIT))
          then Child_fatal "child: unexpected message"
          else Child_return error a i2 lg
      end
  end.

(** "process fetch": the [switch] on the operation. *)
Definition do_child_process (fuel : nat) (op : fdmop) (a : account) (i : io)
    (lg : list child_line) : option child_end :=
  let lg := lg ++ [(LOG_DEBUG, D_started_processing)] in
  match op with
  | FDMOP_POLL =>
      match poll_account a lg with
      | inl (error, a, lg) =>
          Some (do_child_out error a i
                  (lg ++ [(LOG_DEBUG, D_finished_processing)]))
      | inr why => Some (Child_fatal why)
      end
  | FDMOP_FETCH =>
      match fetch_account conf fuel i a [] with
      | None => None
      | Some (inr why) => Some (Child_fatal why)
      | Some (inl (error, s)) =>
          Some (do_child_out error (fs_account s) (fs_io s)
                  (lg ++ D_lines (fs_log s)
                      ++ [(LOG_DEBUG, D_finished_processing)]))
      end
  | FDMOP_other _ => Some (Child_fatal "child: unexpected command")
  end.

(** [do_child] on the channel [i] that [io_create] gives; [None] when
    [fuel] iterations do not end the loop of [fetch_account]. *)
Definition do_child (fuel : nat) (e : sys) (op : fdmop) (a : account)
    (i : io) : option child_end :=
  let lg := [(LOG_DEBUG, D_started)] in
  let error := 1 in
  if (sys_euid e =? 0) && negb (sys_dropto e =? 0)
  then Some (Child_fatal "dropto")
  else
    let lg := lg ++ [(LOG_DEBUG,
                      if negb (sys_euid e =? 0) then D_not_root
                      else D_changing_user)] in
    match op, f_poll (a_fetch a), f_fetch (a_fetch a) with
    | FDMOP_POLL, None, _ =>
        Some (do_child_out error a i (lg ++ [(LOG_INFO, D_poll_unsupported)]))
    | FDMOP_FETCH, _, None =>
        Some (do_child_out error a i (lg ++ [(LOG_INFO, D_fetch_unsupported)]))
    | _, _, _ =>
        match f_start (a_fetch a) with
        | Some start =>
            if negb (bool_decide (start (a_data a) = FETCH_SUCCESS))
            then Some (do_child_out error (account_call C_start a) i
                         (lg ++ [(LOG_DEBUG, D_start_error)]))
            else do_child_process fuel op (account_call C_start a) i lg
        | None => do_child_process fuel op a i lg
        end
    end.

End ChildProcess.

(** ** Notions the properties are stated with *)

Section Notions.

Context {L : Lib}.
Variable conf : config.

(** The rule [r] matches in the state [st]: it is for the account and the
    [switch] on its type ends in [break], in the state [st1]. *)
Definition rule_fires (r : rule) (st st1 : state) : Prop :=
  rule_not_for r (st_account st) = false ∧ rule_match r st = Ok None st1.

(** The loop of [do_rules] runs off the end of the list: every rule ends
    its iteration without a [return]. *)
Inductive exhausts : list rule → state → state → Prop :=
| exhausts_nil st : exhausts [] st st
| exhausts_cons r rules st st1 st2 :
    do_rule conf r st = Ok Next st1 →
    exhausts rules st1 st2 →
    exhausts (r :: rules) st st2.

(** A stop rule ends the run of the list, at whatever depth it is: a rule
    of the list that matches has the stop flag and gets to it, without
    nested rules ([stops_here]) or after nested rules that have returned
    [0] without [stopped] ([stops_after]), or has nested rules in whose
    run a stop rule ends the run ([stops_below]); the rules before it
    have ended their iteration without a [return] ([stops_later]).  The
    third argument is the state the run is left in; the siblings [post]
    that follow the rule play no part in it. *)
Inductive stops_at : list rule → state → state → Prop :=
| stops_later r rules st s1 s' :
    do_rule conf r st = Ok Next s1 →
    stops_at rules s1 s' →
    stops_at (r :: rules) st s'
| stops_here r post st st1 s4 :
    rule_fires r st st1 → r_stop r = true → r_rules r = [] →
    rule_enter conf r st1 = Ok Next s4 →
    stops_at (r :: post) st (with_mctx (mctx_with_stopped true) s4)
| stops_after r post st st1 s4 s5 :
    rule_fires r st st1 → r_stop r = true → r_rules r ≠ [] →
    rule_enter conf r st1 = Ok Next s4 →
    do_rules conf (r_rules r) (with_log (LOG_DEBUG2, L_enter_nested) s4)
    = Ok 0 s5 →
    st_stopped s5 = false →
    stops_at (r :: post) st
      (with_mctx (mctx_with_stopped true)
         (with_log (LOG_DEBUG2, L_exit_nested false) s5))
| stops_below r post st st1 s4 s5 :
    rule_fires r st st1 → r_rules r ≠ [] →
    rule_enter conf r st1 = Ok Next s4 →
    stops_at (r_rules r) (with_log (LOG_DEBUG2, L_enter_nested) s4) s5 →
    stops_at (r :: post) st (with_log (LOG_DEBUG2, L_exit_nested true) s5).

(** The computation [m] leaves the flag [stopped] as it is. *)
Definition keeps_stopped {A} (m : M A) : Prop :=
  ∀ st a st', m st = Ok a st' → st_stopped st' = st_stopped st.

(** The computation [m] does not end in [fatalx]. *)
Definition total {A} (m : M A) : Prop := ∀ st, ∃ a st', m st = Ok a st'.

(** The decision the implicit policy [d] gives at the end of the
    ruleset. *)
Definition implicit_of (d : decision) : decision :=
  match d with
  | DECISION_DROP => DECISION_DROP
  | DECISION_NONE | DECISION_KEEP => DECISION_KEEP
  end.

(** The request [do_action] sends for the action [t] and the user
    [uid], from the state [st]. *)
Definition action_request (a : account) (t : action) (uid : uid_t)
    (st : state) : msg * strb :=
  (Msg MSG_ACTION (Some a) (Some t) uid 0 (mail_send (st_mail st)),
   m_tags (st_mail st)).

(** The state of [do_action] once the reply to that request has come
    with the buffer [tags], the steps [rest] being left to the parent:
    the request is written, the reply consumed and the tags of the mail
    are those of the reply, updated. *)
Definition after_reply (a : account) (t : action) (uid : uid_t)
    (rest : list peer_step) (tags : strb) (st : state) : state :=
  with_mail (mail_with_tags (update_tags tags))
    (with_mctx
       (mctx_with_io (Io (io_sent (st_io st) ++ [action_request a t uid st]) rest))
       st).

(** The users of the requests written to the channel. *)
Definition request_uids (sent : list (msg * strb)) : list uid_t :=
  map (λ x, msg_uid x.1) sent.

(** The state of [do_action] once the mail has its tag "action". *)
Definition action_tagged (t : action) (st : state) : state :=
  with_mail (λ m, mail_with_tags (add_tag "action" (t_name t) (m_tags m)) m) st.

(** The rule engine sets the flag [stopped], and does nothing else to
    it. *)
Definition rule_keeps (r : rule) : Prop :=
  ∀ st f st', do_rule conf r st = Ok f st' →
    match f with
    | Next => st_stopped st' = st_stopped st
    | Return c => c = 0 → st_stopped st' = true
    end.

(** The providers of identities in the order of the design document, each
    with whether it applies: the derive flag and the explicit list of the
    rule, of the action and of the account. *)
Definition identity_providers (r : rule) (t : action) (a : account) (m : mail)
  : list (bool * option (list uid_t)) :=
  [ (r_find_uid r, find_users m);
    (bool_decide (is_Some (r_users r)), r_users r);
    (t_find_uid t, find_users m);
    (bool_decide (is_Some (t_users t)), t_users t);
    (a_find_uid a, find_users m);
    (bool_decide (is_Some (a_users a)), a_users a) ].

(** The first provider that applies wins. *)
Fixpoint first_applicable (ps : list (bool * option (list uid_t)))
  : option (list uid_t) :=
  match ps with
  | [] => None
  | (true, users) :: _ => users
  | (false, _) :: ps' => first_applicable ps'
  end.

(** The resolved identity of the design document: the list of the first
    provider that applies, and the single default identity when there is
    none or when it has no list to give. *)
Definition resolved_identity (r : rule) (t : action) (a : account) (m : mail)
  : list uid_t :=
  default [conf_def_user conf] (first_applicable (identity_providers r t a m)).

End Notions.

(** Modelled from the spec: [name_match] (a macro of fdm.h over
    fnmatch(3), neither part of the sources): shell-glob-style matching of
    a name, here for the patterns made of [*], [?] and plain characters. *)
Fixpoint glob_match (pat name : list ascii) : bool :=
  match pat with
  | [] => ARRAY_EMPTY name
  | c :: pat' =>
      if Ascii.eqb c "*" then
        (fix star (name : list ascii) : bool :=
           glob_match pat' name
           || match name with
              | [] => false
              | _ :: name' => star name'
              end) name
      else
        match name with
        | [] => false
        | d :: name' =>
            (Ascii.eqb c "?" || Ascii.eqb c d) && glob_match pat' name'
        end
  end.

(** ** The design document's reading of the evaluator *)

(** The result of an item: the primitive's answer, inverted when the item
    says so. *)
Definition item_value (c : match_ctx) (ei : expritem) : bool :=
  xorb (ei_inverted ei) (bool_decide (ei_match ei c = MATCH_TRUE)).

(** One step of the fold: [acc AND next] for [OP_AND], [acc OR next]
    otherwise. *)
Definition fold_item (c : match_ctx) (acc : bool) (ei : expritem) : bool :=
  match ei_op ei with
  | OP_AND => acc && item_value c ei
  | OP_NONE | OP_OR => acc || item_value c ei
  end.

(** The fold of the design document: the first item's result seeds the
    accumulator, whatever its operator, and the others are folded in
    order. *)
Definition expr_fold (c : match_ctx) (items : list expritem) : bool :=
  match items with
  | [] => false
  | first :: rest => fold_left (fold_item c) rest (item_value c first)
  end.

(** ** More notions *)

(** The computation [m] leaves the component [proj] of the state as it
    is. *)
Definition preserves {A X} (proj : state → X) (m : M A) : Prop :=
  ∀ st a st', m st = Ok a st' → proj st' = proj st.

(** Every result of the computation [m] from the state [st] satisfies
    [Q]. *)
Definition ensures {A} (m : M A) (st : state) (Q : A → state → Prop) : Prop :=
  ∀ a st', m st = Ok a st' → Q a st'.

(** What an iteration of [do_rules] does to the account and the cause. *)
Definition rule_outcome (st : state) (f : flow) (st' : state) : Prop :=
  st_account st' = st_account st
  ∧ match f with
    | Next => st_cause st' = st_cause st
    | Return c =>
        (c = 0 ∧ st_cause st' = st_cause st)
        ∨ (c = 1 ∧ (st_cause st' = Some "matching"
                    ∨ st_cause st' = Some "delivery"))
    end.

(** Neither the rule nor a rule nested in it has an expression: the
    rules are of the type [RULE_ALL], and no match primitive is called. *)
Fixpoint rule_all_only (r : rule) : bool :=
  match r with
  | Rule _ _ ty _ _ _ _ _ _ _ rules =>
      match ty with
      | RULE_ALL => forallb rule_all_only rules
      | RULE_EXPRESSION => false
      end
  end.

(** The line [do_expr] logs for an item. *)
Definition expr_line (c : match_ctx) (ei : expritem) : log_line :=
  (LOG_DEBUG2, L_tried (ei_inverted ei) (ei_desc ei) (item_value c ei)).

(** The action is run in the child, or has no deliverer. *)
Definition in_child (t : action) : Prop :=
  d_deliver (t_deliver t) = None ∨ d_type (t_deliver t) = DELIVER_INCHILD.

(** The mail without its tags. *)
Definition mail_content (m : mail)
  : list ascii * Z * Z * decision * list nat :=
  (m_data m, m_size m, m_body m, m_decision m, m_wrapped m).

(** The stages [fetch_account] labels an abort with. *)
Definition stages : list string :=
  ["fetching"; "matching"; "delivery"; "deleting"; "keeping"; "purging"].

(** The backend answers the next [fetch] with the end of the input. *)
Definition fetch_ends_input (s : fstate) : Prop :=
  ∃ fetch_fn m,
    f_fetch (a_fetch (fs_account s)) = Some fetch_fn
    ∧ fetch_fn (a_data (fs_account s)) fresh_mail = (FETCH_COMPLETE, m).

(** The counts of dropped and kept mails go from [s] to [s'] by at most
    one mail. *)
Definition counts_step (s s' : fstate) : Prop :=
  (fs_dropped s' = fs_dropped s ∧ fs_kept s' = fs_kept s)
  ∨ (fs_dropped s' = u_incr (fs_dropped s) ∧ fs_kept s' = fs_kept s)
  ∨ (fs_dropped s' = fs_dropped s ∧ fs_kept s' = u_incr (fs_kept s)).

(** ** Sample data *)

Definition no_fetch : fetch := Fetch None None None None None None.

Definition bob : account := Account "bob" None false false no_fetch [].

Definition empty_io : io := Io [] [].

Definition bob_ctx (m : mail) : match_ctx := MatchCtx empty_io bob m false false.

Definition bob_state (m : mail) : state := State (bob_ctx m) None [].

Definition always (v : match_result) (inverted : bool) (op : expr_op) : expritem :=
  ExprItem (fun _ => v) "always" inverted op.

Definition expr_rule (items : list expritem) : rule :=
  Rule 0 [] RULE_EXPRESSION items (Replstr None) (Replstr None) None
       false false None [].

(** A library for the samples: glob patterns for names, templates that
    are their own expansion, one action ["file"], run by the parent. *)
Definition file_action : action :=
  Action "file" None false
    (Deliver DELIVER_ASUSER (Some (λ d, (DELIVER_SUCCESS, dctx_mail d)))).

#[local] Instance sample_lib : Lib := {|
  name_match pat name :=
    glob_match (list_ascii_of_string pat) (list_ascii_of_string name);
  replacestr rs _ _ := rs_str rs;
  update_tags tags := tags;
  find_users _ := None;
  match_actions s :=
    if bool_decide (s = Some "file") then [file_action] else [];
  mail_send m := m;
  mail_receive _ h := msg_mail h;
  trim_from m := m;
  fill_wrapped m := (0, m);
  find_header _ _ _ := None;
  insert_header m _ _ := (0, m);
  rfc822_time := None;
  progname := "fdm"
|}.

(** A mail of five bytes whose body starts at the third. *)
Definition mail_hello : mail :=
  Mail (list_ascii_of_string "a: b
") 5 3 DECISION_DROP ∅ [].

(** A completion reply with the error code [error] that mirrors the
    size [size] and the body offset [body]. *)
Definition done_reply (error size body : Z) : msg :=
  Msg MSG_DONE None None 0 error (Mail [] size body DECISION_NONE ∅ []).

(** A state whose parent answers with the steps [peer]. *)
Definition peer_state (peer : list peer_step) (m : mail) : state :=
  State (MatchCtx (Io [] peer) bob m false false) None [].

Definition all_rule (idx : Z) (stop : bool) (nested : list rule) : rule :=
  Rule idx [] RULE_ALL [] (Replstr None) (Replstr None) None
       stop false None nested.

Definition users_rule (find_uid : bool) (users : option (list uid_t)) : rule :=
  Rule 1 [] RULE_ALL [] (Replstr None) (Replstr None) None
       false find_uid users [].

(** A rule for the accounts [accounts] that has matched when the log
    says so. *)
Definition account_rule (idx : Z) (accounts : list string) : rule :=
  Rule idx accounts RULE_ALL [] (Replstr None) (Replstr None) None
       false false None [].

(** A rule that delivers to the actions named [names]. *)
Definition deliver_rule (names : list string) : rule :=
  Rule 1 [] RULE_ALL [] (Replstr None) (Replstr None)
       (Some (map (λ n, Replstr (Some n)) names)) false false None [].


(** A backend whose first mail is oversized and which has no other, with
    a completion hook that succeeds. *)
Definition oversize_fetch : fetch :=
  Fetch None None
    (Some (λ calls m,
       match calls with
       | [] => (FETCH_OVERSIZE, Mail [] 9999 (-1) (m_decision m) ∅ [])
       | _ => (FETCH_COMPLETE, m)
       end))
    (Some (λ _ _, FETCH_SUCCESS)) None None.

Definition big_account : account :=
  Account "bob" None false false oversize_fetch [].

Definition big_state : fstate := FState empty_io big_account None [] 0 0 0.

Definition sample_conf (rules : list rule) (impl_act : decision)
    (keep_all del_big : bool) : config :=
  Config rules impl_act keep_all del_big 0 1000 true None "localhost".

(** The rules that the log says have matched. *)
Definition matched_rules (lg : list log_line) : list Z :=
  omap (λ l, match l.2 with L_matched idx _ => Some idx | _ => None end) lg.


(** The fetch loop on the backend with one oversized mail, once that mail
    has been dropped. *)
Definition big_state_done : fstate :=
  FState empty_io
    (account_call (C_done DECISION_DROP) (account_call C_fetch big_account))
    None [] 0 1 0.

(** A backend with a purge hook and no mail. *)
Definition purge_account : account :=
  Account "bob" None false false
    (Fetch None None (Some (λ _ m, (FETCH_COMPLETE, m))) None
       (Some (λ _, FETCH_SUCCESS)) None) [].

(** A configuration that purges every two mails. *)
Definition purge_conf : config :=
  Config [] DECISION_KEEP false false 2 1000 true None "localhost".

(** A backend that can only be polled, with three mails, a start hook
    and a finish hook. *)
Definition poll_only_account : account :=
  Account "bob" None false false
    (Fetch (Some (λ _, FETCH_SUCCESS)) (Some (λ _, (FETCH_SUCCESS, 3)))
       None None None (Some (λ _, FETCH_SUCCESS))) [].

(** A backend whose start hook fails. *)
Definition failing_start_account : account :=
  Account "bob" None false false
    (Fetch (Some (λ _, FETCH_ERROR)) (Some (λ _, (FETCH_SUCCESS, 3)))
       None None None (Some (λ _, FETCH_SUCCESS))) [].

(** A backend that can be polled, with three mails, and has a finish
    hook but no start hook. *)
Definition polled_account : account :=
  Account "bob" None false false
    (Fetch None (Some (λ _, (FETCH_SUCCESS, 3)))
       None None None (Some (λ _, FETCH_SUCCESS))) [].

(** A parent that acknowledges the exit of the child. *)
Definition exit_io : io :=
  Io [] [PeerStep true (Some (exit_msg, None))].

(** A child that is not run as root. *)
Definition user_sys : sys := Sys 1000 0.

(** A backend that fails to fetch. *)
Definition broken_account : account :=
  Account "bob" None false false
    (Fetch None None (Some (λ _ m, (FETCH_ERROR, m))) None None None) [].

(** A backend whose only mail is empty. *)
Definition empty_mail_account : account :=
  Account "bob" None false false
    (Fetch None None
       (Some (λ calls m,
          match calls with
          | [] => (FETCH_SUCCESS, m)
          | _ => (FETCH_COMPLETE, m)
          end)) (Some (λ _ _, FETCH_SUCCESS)) None None) [].

(** A state whose parent answers a first request with success and a
    second one with an execution error. *)
Definition two_replies : state :=
  peer_state [PeerStep true (Some (done_reply 0 5 3, Some ∅));
              PeerStep true (Some (done_reply 1 5 3, Some ∅))]
    mail_hello.

(** A state whose parent answers a first request with success and the
    tag "first", and a second one with an execution error and the tag
    "second". *)
Definition tagged_replies : state :=
  peer_state [PeerStep true (Some (done_reply 0 5 3, Some {["first" := "yes"]}));
              PeerStep true (Some (done_reply 1 5 3, Some {["second" := "yes"]}))]
    mail_hello.

(** That state once [do_action] has run the exchange for the user [7]
    of the action "file". *)
Definition tagged_replies_second : state :=
  after_reply bob file_action 7
    [PeerStep true (Some (done_reply 1 5 3, Some {["second" := "yes"]}))]
    {["first" := "yes"]} (action_tagged file_action tagged_replies).

(** An action that is run in the child and keeps the mail. *)
Definition keep_action : action :=
  Action "keep" None false
    (Deliver DELIVER_INCHILD
       (Some (λ d, (DELIVER_SUCCESS,
                    mail_with_decision DECISION_KEEP (dctx_mail d))))).

(** An action that is run in the child and fails. *)
Definition fail_action : action :=
  Action "fail" None false
    (Deliver DELIVER_INCHILD (Some (λ d, (DELIVER_FAILURE, dctx_mail d)))).

(** A library whose actions are all run in the child: every name matches
    the action "keep", and the name "fail" also the action "fail". *)
Definition inchild_lib : Lib := {|
  name_match pat name :=
    glob_match (list_ascii_of_string pat) (list_ascii_of_string name);
  replacestr rs _ _ := rs_str rs;
  update_tags tags := tags;
  find_users _ := None;
  match_actions s :=
    if bool_decide (s = Some "fail") then [keep_action; fail_action; keep_action]
    else [keep_action];
  mail_send m := m;
  mail_receive _ h := msg_mail h;
  trim_from m := m;
  fill_wrapped m := (0, m);
  find_header _ _ _ := None;
  insert_header m _ _ := (0, m);
  rfc822_time := None;
  progname := "fdm"
|}.

(** ** Properties *)

Ltac munfold :=
  unfold bind, ret, gets, modify, fatalx, log_debug2, log_debug, log_warnx,
    log_info, log in *.

Section ExprProps.

Implicit Types (items : list expritem) (st : state) (fres : bool).

Lemma do_expr_loop_cons ei items fres st :
  ei_match ei (st_mctx st) ≠ MATCH_ERROR →
  do_expr_loop (ei :: items) fres st =
  do_expr_loop items (fold_item (st_mctx st) fres ei)
    (with_log (LOG_DEBUG2,
               L_tried (ei_inverted ei) (ei_desc ei)
                 (item_value (st_mctx st) ei)) st).
Proof.
  intros Hne. cbn [do_expr_loop]. munfold.
  rewrite bool_decide_eq_false_2 by done.
  unfold fold_item, item_value.
  destruct (ei_inverted ei), (ei_op ei),
    (bool_decide (ei_match ei (st_mctx st) = MATCH_TRUE)); reflexivity.
Qed.

Lemma do_expr_loop_error_head ei items fres st :
  ei_match ei (st_mctx st) = MATCH_ERROR →
  do_expr_loop (ei :: items) fres st = Ok (-1) st.
Proof.
  intros He. cbn [do_expr_loop]. munfold.
  by rewrite bool_decide_eq_true_2.
Qed.

(** Without an error, the loop folds every item into the accumulator and
    only adds to the log. *)
Lemma do_expr_loop_value items : ∀ fres st,
  Forall (λ ei, ei_match ei (st_mctx st) ≠ MATCH_ERROR) items →
  ∃ lg, do_expr_loop items fres st =
        Ok (Z.b2z (fold_left (fold_item (st_mctx st)) items fres))
           (State (st_mctx st) (st_cause st) (st_log st ++ lg)).
Proof.
  induction items as [|ei items IH]; intros fres st Hall.
  - exists []. destruct st. cbn. by rewrite app_nil_r.
  - inversion Hall as [|? ? Hei Hrest]; subst.
    rewrite do_expr_loop_cons by done.
    destruct (IH (fold_item (st_mctx st) fres ei)
                (with_log (LOG_DEBUG2,
                   L_tried (ei_inverted ei) (ei_desc ei)
                     (item_value (st_mctx st) ei)) st)) as [lg Hlg]; [done|].
    rewrite Hlg. cbn. rewrite <- app_assoc. eauto.
Qed.

(** With an error, the loop returns [-1] and only adds to the log. *)
Lemma do_expr_loop_error items : ∀ fres st,
  Exists (λ ei, ei_match ei (st_mctx st) = MATCH_ERROR) items →
  ∃ lg, do_expr_loop items fres st =
        Ok (-1) (State (st_mctx st) (st_cause st) (st_log st ++ lg)).
Proof.
  induction items as [|ei items IH]; intros fres st Hex.
  - inversion Hex.
  - destruct (decide (ei_match ei (st_mctx st) = MATCH_ERROR)) as [He|Hne].
    + rewrite do_expr_loop_error_head by done.
      exists []. destruct st. cbn. by rewrite app_nil_r.
    + rewrite do_expr_loop_cons by done.
      assert (Exists (λ ei, ei_match ei (st_mctx st) = MATCH_ERROR) items)
        as Hex' by (inversion Hex; [done | assumption]).
      destruct (IH (fold_item (st_mctx st) fres ei)
                  (with_log (LOG_DEBUG2,
                     L_tried (ei_inverted ei) (ei_desc ei)
                       (item_value (st_mctx st) ei)) st)) as [lg Hlg]; [done|].
      rewrite Hlg. cbn. rewrite <- app_assoc. eauto.
Qed.

(** Seeding with the first item's result is the same as folding it from
    [false], unless its operator is [OP_AND]. *)
Lemma fold_item_seed c ei :
  ei_op ei ≠ OP_AND → fold_item c false ei = item_value c ei.
Proof. unfold fold_item. by destruct (ei_op ei). Qed.

Lemma fold_item_and_seed c ei :
  ei_op ei = OP_AND → fold_item c false ei = false.
Proof. unfold fold_item. by intros ->. Qed.

End ExprProps.

(** *** C1: the expression evaluator *)

(** Outside the data model: a first item that carries [OP_AND] is folded
    into [false] like every other item, so that the accumulator is
    [false] after it and the expression is evaluated as the rest of the
    items from [false]. *)
Lemma do_expr_leading_and (r : rule) (st : state) first rest :
  r_expr r = first :: rest →
  ei_op first = OP_AND →
  let c := st_mctx st in
  Forall (λ ei, ei_match ei c ≠ MATCH_ERROR) (first :: rest) →
  ∃ lg, do_expr r st =
        Ok (Z.b2z (fold_left (fold_item c) rest false))
           (State c (st_cause st) (st_log st ++ lg)).
Proof.
  intros Hexpr Hop c Hall. unfold do_expr. rewrite Hexpr.
  destruct (do_expr_loop_value (first :: rest) false st Hall) as [lg Hlg].
  exists lg. rewrite Hlg. cbn [fold_left]. fold c.
  by rewrite fold_item_and_seed.
Qed.

(** C1.  For an expression of at least one item, evaluated in the match
    context [c], whose first item is as the data model has it, without an
    [OP_AND] to combine it with an item before it: when a primitive
    returns [MATCH_ERROR], [do_expr] returns [-1]; otherwise it returns
    the fold of the design document, [expr_fold]: the accumulator is
    seeded with the inverted result of the first item, whose operator
    plays no part, and every later item is folded into it in source
    order, [acc AND next] for [OP_AND] and [acc OR next] for [OP_OR],
    with no grouping by precedence.  The match context and [cause] are
    left as they were. *)
Theorem do_expr_fold (r : rule) (st : state) first rest :
  r_expr r = first :: rest →
  ei_op first ≠ OP_AND →
  let c := st_mctx st in
  (Exists (λ ei, ei_match ei c = MATCH_ERROR) (first :: rest) →
   ∃ lg, do_expr r st = Ok (-1) (State c (st_cause st) (st_log st ++ lg)))
  ∧ (Forall (λ ei, ei_match ei c ≠ MATCH_ERROR) (first :: rest) →
     ∃ lg, do_expr r st =
           Ok (Z.b2z (expr_fold c (first :: rest)))
              (State c (st_cause st) (st_log st ++ lg))).
Proof.
  intros Hexpr Hop c. unfold do_expr. rewrite Hexpr. split.
  - intros Hex. by apply do_expr_loop_error.
  - intros Hall.
    destruct (do_expr_loop_value (first :: rest) false st Hall) as [lg Hlg].
    exists lg. rewrite Hlg. cbn [fold_left expr_fold]. fold c.
    by rewrite fold_item_seed.
Qed.

Lemma do_expr_fold_witness :
  ∃ lg, do_expr (expr_rule [always MATCH_TRUE false OP_NONE;
                            always MATCH_TRUE false OP_OR;
                            always MATCH_FALSE false OP_AND])
                (bob_state mail_zero)
        = Ok 0 (State (bob_ctx mail_zero) None ([] ++ lg)).
Proof.
  destruct (do_expr_fold
              (expr_rule [always MATCH_TRUE false OP_NONE;
                          always MATCH_TRUE false OP_OR;
                          always MATCH_FALSE false OP_AND])
              (bob_state mail_zero) _ _ eq_refl) as (_ & Hval).
  - discriminate.
  - apply Hval. repeat constructor; discriminate.
Defined.

(** A single item with [OP_AND] and a primitive that matches: the
    accumulator stays [false] and the expression does not match. *)
Example do_expr_single_and :
  ∃ st', do_expr (expr_rule [always MATCH_TRUE false OP_AND])
                 (bob_state mail_zero) = Ok 0 st'.
Proof. eexists. vm_compute. reflexivity. Qed.

(** The fold has no precedence: [true OR true AND false] is [false]. *)
Example do_expr_no_precedence :
  ∃ st', do_expr (expr_rule [always MATCH_TRUE false OP_NONE;
                             always MATCH_TRUE false OP_OR;
                             always MATCH_FALSE false OP_AND])
                 (bob_state mail_zero) = Ok 0 st'.
Proof. eexists. vm_compute. reflexivity. Qed.

(** *** The monad *)

Lemma bind_Ok {A B} (m : M A) (k : A → M B) st b st' :
  bind m k st = Ok b st' ↔ ∃ a s1, m st = Ok a s1 ∧ k a s1 = Ok b st'.
Proof.
  unfold bind. split.
  - destruct (m st) as [a s1|why]; [eauto | discriminate].
  - intros (a & s1 & -> & Hk). exact Hk.
Qed.

Lemma bind_eq {A B} (m : M A) (k : A → M B) st a s1 :
  m st = Ok a s1 → bind m k st = k a s1.
Proof. unfold bind. by intros ->. Qed.

Lemma bind_modify {B} f (k : unit → M B) st :
  bind (modify f) k st = k tt (f st).
Proof. reflexivity. Qed.

Lemma bind_gets {A B} (f : state → A) (k : A → M B) st :
  bind (gets f) k st = k (f st) st.
Proof. reflexivity. Qed.

Lemma bind_ret {A B} (a : A) (k : A → M B) st : bind (ret a) k st = k a st.
Proof. reflexivity. Qed.

Lemma bind_log {B} lvl m (k : unit → M B) st :
  bind (log lvl m) k st = k tt (with_log (lvl, m) st).
Proof. reflexivity. Qed.

Lemma keeps_ret {A} (a : A) : keeps_stopped (ret a).
Proof. intros st a' st' [= _ <-]. done. Qed.

Lemma keeps_gets {A} (f : state → A) : keeps_stopped (gets f).
Proof. intros st a' st' [= _ <-]. done. Qed.

Lemma keeps_fatalx {A} why : keeps_stopped (@fatalx A why).
Proof. intros st a' st' [=]. Qed.

Lemma keeps_bind {A B} (m : M A) (k : A → M B) :
  keeps_stopped m → (∀ a, keeps_stopped (k a)) → keeps_stopped (bind m k).
Proof.
  intros Hm Hk st b st' (a & s1 & Hma & Hkb)%bind_Ok.
  rewrite (Hk _ _ _ _ Hkb). exact (Hm _ _ _ Hma).
Qed.

Lemma keeps_modify (f : state → state) :
  (∀ st, st_stopped (f st) = st_stopped st) → keeps_stopped (modify f).
Proof. intros Hf st a' st' [= _ <-]. apply Hf. Qed.

Lemma keeps_log lvl m : keeps_stopped (log lvl m).
Proof. by apply keeps_modify. Qed.

Lemma keeps_with_mail f : keeps_stopped (modify (with_mail f)).
Proof. by apply keeps_modify. Qed.

Lemma keeps_with_cause c : keeps_stopped (modify (with_cause c)).
Proof. by apply keeps_modify. Qed.

Lemma keeps_with_io i : keeps_stopped (modify (with_mctx (mctx_with_io i))).
Proof. by apply keeps_modify. Qed.

Lemma keeps_with_matched b :
  keeps_stopped (modify (with_mctx (mctx_with_matched b))).
Proof. by apply keeps_modify. Qed.

(** One step of a proof that a computation keeps [stopped]: through the
    binds, the primitives of the monad and the case distinctions. *)
Ltac keeps_step :=
  match goal with
  | |- keeps_stopped (bind _ _) => apply keeps_bind; [| intros ?]
  | |- keeps_stopped (ret _) => apply keeps_ret
  | |- keeps_stopped (gets _) => apply keeps_gets
  | |- keeps_stopped (fatalx _) => apply keeps_fatalx
  | |- keeps_stopped (log_debug _) => apply keeps_log
  | |- keeps_stopped (log_debug2 _) => apply keeps_log
  | |- keeps_stopped (log_warnx _) => apply keeps_log
  | |- keeps_stopped (modify (with_mail _)) => apply keeps_with_mail
  | |- keeps_stopped (modify (with_cause _)) => apply keeps_with_cause
  | |- keeps_stopped (modify (with_mctx (mctx_with_io _))) =>
      apply keeps_with_io
  | |- keeps_stopped (modify (with_mctx (mctx_with_matched _))) =>
      apply keeps_with_matched
  | |- keeps_stopped (if ?b then _ else _) => destruct b
  | |- keeps_stopped (match ?x with _ => _ end) => destruct x
  end.

Ltac keeps := repeat keeps_step; eauto.

Lemma total_ret {A} (a : A) : total (ret a).
Proof. intros st. by eexists _, _. Qed.

Lemma total_gets {A} (f : state → A) : total (gets f).
Proof. intros st. by eexists _, _. Qed.

Lemma total_modify f : total (modify f).
Proof. intros st. by eexists _, _. Qed.

Lemma total_bind {A B} (m : M A) (k : A → M B) :
  total m → (∀ a, total (k a)) → total (bind m k).
Proof.
  intros Hm Hk st. destruct (Hm st) as (a & s1 & Hma).
  rewrite (bind_eq _ _ _ _ _ Hma). apply Hk.
Qed.

(** One step of a proof that a computation does not end in [fatalx]. *)
Ltac total_step :=
  match goal with
  | |- total (bind _ _) => apply total_bind; [| intros ?]
  | |- total (ret _) => apply total_ret
  | |- total (gets _) => apply total_gets
  | |- total (modify _) => apply total_modify
  | |- total (log_debug _) => apply total_modify
  | |- total (log_debug2 _) => apply total_modify
  | |- total (log_warnx _) => apply total_modify
  | |- total (if ?b then _ else _) => destruct b
  | |- total (match ?x with _ => _ end) => destruct x
  end.

Ltac totality := repeat total_step; eauto.

Section EngineProps.

Context {L : Lib}.
Variable conf : config.

Implicit Types (r : rule) (t : action) (a : account) (st : state).

(** *** What keeps the flag [stopped] *)

Lemma keeps_do_expr_loop items : ∀ fres, keeps_stopped (do_expr_loop items fres).
Proof. induction items as [|ei items IH]; intros fres; cbn; keeps. Qed.

Lemma keeps_rule_match r : keeps_stopped (rule_match r).
Proof. unfold rule_match. keeps. apply keeps_do_expr_loop. Qed.

Lemma keeps_rule_tag r : keeps_stopped (rule_tag r).
Proof. unfold rule_tag. keeps. Qed.

Lemma keeps_do_action_user a t uid : keeps_stopped (do_action_user a t uid).
Proof. unfold do_action_user. keeps. Qed.

Lemma keeps_do_action_loop a t users : keeps_stopped (do_action_loop a t users).
Proof.
  induction users as [|uid users IH]; cbn; keeps.
  apply keeps_do_action_user.
Qed.

Lemma keeps_do_action r t : keeps_stopped (do_action conf r t).
Proof. unfold do_action. keeps; apply keeps_do_action_loop. Qed.

Lemma keeps_do_deliver_actions r ta : keeps_stopped (do_deliver_actions conf r ta).
Proof.
  induction ta as [|t ta IH]; cbn; keeps. apply keeps_do_action.
Qed.

Lemma keeps_do_deliver_loop r actions :
  keeps_stopped (do_deliver_loop conf r actions).
Proof.
  induction actions as [|rs actions IH]; cbn; keeps.
  apply keeps_do_deliver_actions.
Qed.

Lemma keeps_do_deliver r : keeps_stopped (do_deliver conf r).
Proof. unfold do_deliver. keeps. apply keeps_do_deliver_loop. Qed.

Lemma keeps_rule_deliver r : keeps_stopped (rule_deliver conf r).
Proof. unfold rule_deliver. keeps. apply keeps_do_deliver. Qed.

Lemma keeps_rule_enter r : keeps_stopped (rule_enter conf r).
Proof.
  unfold rule_enter. keeps; [apply keeps_rule_tag | apply keeps_rule_deliver].
Qed.

(** *** The equations of the rule engine *)

Lemma rule_ind' (P : rule → Prop) :
  (∀ r, Forall P (r_rules r) → P r) → ∀ r, P r.
Proof.
  intros H. fix IH 1. intros r. apply H.
  destruct r as [idx aa ty ex k v acts stop fu us rules]. cbn [r_rules].
  induction rules as [|r' rules IHl]; constructor; [apply IH | apply IHl].
Qed.

Lemma do_rule_eq r :
  do_rule conf r = rule_body conf r (do_rules conf (r_rules r)).
Proof.
  destruct r as [idx aa ty ex k v acts stop fu us rules]. reflexivity.
Qed.

Lemma do_rules_cons r rules st :
  do_rules conf (r :: rules) st =
  match do_rule conf r st with
  | Ok Next s1 => do_rules conf rules s1
  | Ok (Return c) s1 => Ok c s1
  | Fatal why => Fatal why
  end.
Proof.
  cbn [do_rules]. unfold bind.
  by destruct (do_rule conf r st) as [[|c] s1|].
Qed.

Lemma do_rule_cases r st :
  do_rule conf r st =
  if rule_not_for r (st_account st) then Ok Next st
  else match rule_match r st with
       | Ok (Some f) s1 => Ok f s1
       | Ok None s1 => rule_matched conf r (do_rules conf (r_rules r)) s1
       | Fatal why => Fatal why
       end.
Proof.
  rewrite do_rule_eq. unfold rule_body, bind, gets, ret.
  destruct (rule_not_for r (st_account st)); [done|].
  by destruct (rule_match r st) as [[f|] s1|].
Qed.

Lemma rule_matched_cases r nested s1 :
  rule_matched conf r nested s1 =
  match rule_enter conf r s1 with
  | Ok Next s4 => rule_leave r nested s4
  | Ok (Return c) s4 => Ok (Return c) s4
  | Fatal why => Fatal why
  end.
Proof.
  unfold rule_matched, bind, ret.
  by destruct (rule_enter conf r s1) as [[|c] s4|].
Qed.

Lemma rule_stop_cases r st :
  rule_stop r st =
  if r_stop r then Ok (Return 0) (with_mctx (mctx_with_stopped true) st)
  else Ok Next st.
Proof. unfold rule_stop. by destruct (r_stop r). Qed.

Lemma rule_nested_exit_cases r c s5 :
  rule_nested_exit r c s5 =
  if negb (c =? 0) then Ok (Return 1) s5
  else if st_stopped s5
       then Ok (Return 0) (with_log (LOG_DEBUG2, L_exit_nested true) s5)
       else rule_stop r (with_log (LOG_DEBUG2, L_exit_nested false) s5).
Proof.
  unfold rule_nested_exit. destruct (negb (c =? 0)); [done|].
  munfold. cbn. by destruct (st_stopped s5).
Qed.

Lemma rule_leave_cases r nested s4 :
  rule_leave r nested s4 =
  if negb (ARRAY_EMPTY (r_rules r)) then
    match nested (with_log (LOG_DEBUG2, L_enter_nested) s4) with
    | Ok c s5 => rule_nested_exit r c s5
    | Fatal why => Fatal why
    end
  else rule_stop r s4.
Proof. unfold rule_leave. by destruct (negb (ARRAY_EMPTY (r_rules r))). Qed.

Lemma do_rules_keeps rules :
  Forall (rule_keeps conf) rules →
  ∀ st c st', do_rules conf rules st = Ok c st' → c = 0 →
    st_stopped st' = true ∨ st_stopped st' = st_stopped st.
Proof.
  induction 1 as [|r rules Hr _ IH]; intros st c st' Hrun Hc.
  - injection Hrun as _ <-. by right.
  - rewrite do_rules_cons in Hrun.
    destruct (do_rule conf r st) as [[|c'] s1|] eqn:Hrule; [| |done].
    + specialize (Hr _ _ _ Hrule). cbn in Hr.
      destruct (IH _ _ _ Hrun Hc) as [?|Heq]; [by left|].
      right. by rewrite Heq.
    + injection Hrun as <- <-. left. exact (Hr _ _ _ Hrule Hc).
Qed.

Lemma do_rule_keeps r : rule_keeps conf r.
Proof.
  induction r as [r IH] using rule_ind'. intros st f st' Hrun.
  rewrite do_rule_cases in Hrun.
  destruct (rule_not_for r (st_account st)).
  { injection Hrun as <- <-. done. }
  destruct (rule_match r st) as [x s1|] eqn:Hmatch; [|done].
  pose proof (keeps_rule_match _ _ _ _ Hmatch) as Hs1.
  destruct x as [f1|].
  { injection Hrun as <- <-. unfold rule_match in Hmatch.
    destruct (r_type r); [|discriminate].
    apply bind_Ok in Hmatch as (? & s0 & _ & Hmatch).
    apply bind_Ok in Hmatch as (error & s2 & _ & Hmatch).
    destruct (error =? -1).
    - apply bind_Ok in Hmatch as (? & ? & _ & [= <- _]). done.
    - destruct (error =? 0); [|discriminate].
      injection Hmatch as <- _. done. }
  rewrite rule_matched_cases in Hrun.
  destruct (rule_enter conf r s1) as [f4 s4|] eqn:Henter; [|done].
  pose proof (keeps_rule_enter _ _ _ _ Henter) as Hs4.
  assert (∀ s, st_stopped s = st_stopped st →
               rule_stop r s = Ok f st' →
               match f with
               | Next => st_stopped st' = st_stopped st
               | Return c => c = 0 → st_stopped st' = true
               end) as Hstop.
  { intros s Hs. rewrite rule_stop_cases.
    destruct (r_stop r); intros [= <- <-]; done. }
  destruct f4 as [|c4].
  2:{ injection Hrun as <- <-. intros ->.
      unfold rule_enter in Henter.
      apply bind_Ok in Henter as (? & ? & _ & Henter).
      apply bind_Ok in Henter as (? & ? & _ & Henter).
      apply bind_Ok in Henter as (? & ? & _ & Henter).
      unfold rule_deliver in Henter.
      destruct (r_actions r); [|discriminate].
      apply bind_Ok in Henter as (? & ? & _ & Henter).
      apply bind_Ok in Henter as (? & ? & _ & Henter).
      apply bind_Ok in Henter as (c & ? & _ & Henter).
      destruct (negb (c =? 0)); [|discriminate].
      apply bind_Ok in Henter as (? & ? & _ & [=]). }
  rewrite rule_leave_cases in Hrun.
  destruct (negb (ARRAY_EMPTY (r_rules r))).
  2:{ apply (Hstop s4); [congruence | done]. }
  destruct (do_rules conf (r_rules r) (with_log (LOG_DEBUG2, L_enter_nested) s4))
    as [c s5|] eqn:Hnested; [|done].
  rewrite rule_nested_exit_cases in Hrun.
  destruct (c =? 0) eqn:Hc; cbn [negb] in Hrun.
  2:{ injection Hrun as <- <-. done. }
  apply Z.eqb_eq in Hc as ->.
  destruct (st_stopped s5) eqn:Hs5.
  { injection Hrun as <- <-. done. }
  apply (Hstop (with_log (LOG_DEBUG2, L_exit_nested false) s5)); [|done].
  destruct (do_rules_keeps _ IH _ _ _ Hnested eq_refl) as [Ht|Heq].
  - congruence.
  - change (st_stopped s5 = st_stopped st). rewrite Heq.
    change (st_stopped s4 = st_stopped st). congruence.
Qed.

Lemma exhausts_run rules s s' :
  exhausts conf rules s s' →
  do_rules conf rules s = Ok 0 s' ∧ st_stopped s' = st_stopped s.
Proof.
  induction 1 as [s|r rules s s1 s2 Hr _ [IHrun IHstop]]; [done|].
  rewrite do_rules_cons, Hr. split; [done|].
  rewrite IHstop. exact (do_rule_keeps r _ _ _ Hr).
Qed.

(** A run of [do_rules] that returns [0] has run off the end of the list
    or has set [stopped]. *)
Lemma do_rules_zero rules : ∀ s s',
  do_rules conf rules s = Ok 0 s' →
  exhausts conf rules s s' ∨ st_stopped s' = true.
Proof.
  induction rules as [|r rules IH]; intros s s' Hrun.
  - injection Hrun as <-. left. constructor.
  - rewrite do_rules_cons in Hrun.
    destruct (do_rule conf r s) as [[|c] s1|] eqn:Hr; [| |done].
    + destruct (IH _ _ Hrun) as [Hex|Hst]; [left|by right].
      by econstructor.
    + injection Hrun as -> <-. right.
      exact (do_rule_keeps r _ _ _ Hr eq_refl).
Qed.

(** A rule that matches is run to the end of the loop body. *)
Lemma do_rule_fires r st st1 :
  rule_fires r st st1 →
  do_rule conf r st = rule_matched conf r (do_rules conf (r_rules r)) st1.
Proof. intros [Hfor Hmatch]. by rewrite do_rule_cases, Hfor, Hmatch. Qed.

Lemma ARRAY_EMPTY_false {A} (l : list A) : l ≠ [] → ARRAY_EMPTY l = false.
Proof. by destruct l. Qed.

(** *** C2: the stop flag *)

(** A rule without nested rules that has matched and delivered gets to
    its stop flag. *)
Lemma do_rules_fires_plain r post st st1 s4 :
  rule_fires r st st1 → r_rules r = [] →
  rule_enter conf r st1 = Ok Next s4 →
  do_rules conf (r :: post) st =
  if r_stop r then Ok 0 (with_mctx (mctx_with_stopped true) s4)
  else do_rules conf post s4.
Proof.
  intros Hfires Hnil Henter.
  rewrite do_rules_cons, (do_rule_fires _ _ _ Hfires), rule_matched_cases.
  rewrite Henter, rule_leave_cases, Hnil. cbn [ARRAY_EMPTY negb].
  rewrite rule_stop_cases. by destruct (r_stop r).
Qed.

(** A rule that has matched and delivered, and whose nested rules have
    returned [0]: the flag [stopped] is looked at first, the stop flag of
    the rule after it. *)
Lemma do_rules_fires_nested r post st st1 s4 s5 :
  rule_fires r st st1 → r_rules r ≠ [] →
  rule_enter conf r st1 = Ok Next s4 →
  do_rules conf (r_rules r) (with_log (LOG_DEBUG2, L_enter_nested) s4)
  = Ok 0 s5 →
  do_rules conf (r :: post) st =
  if st_stopped s5 then Ok 0 (with_log (LOG_DEBUG2, L_exit_nested true) s5)
  else if r_stop r
       then Ok 0 (with_mctx (mctx_with_stopped true)
                    (with_log (LOG_DEBUG2, L_exit_nested false) s5))
       else do_rules conf post (with_log (LOG_DEBUG2, L_exit_nested false) s5).
Proof.
  intros Hfires Hne Henter Hnested.
  rewrite do_rules_cons, (do_rule_fires _ _ _ Hfires), rule_matched_cases.
  rewrite Henter, rule_leave_cases, (ARRAY_EMPTY_false _ Hne). cbn [negb].
  rewrite Hnested, rule_nested_exit_cases. cbn [Z.eqb negb].
  destruct (st_stopped s5); [done|].
  rewrite rule_stop_cases. by destruct (r_stop r).
Qed.

(** A rule with the stop flag that has matched never hands over to its
    siblings, however its iteration ends. *)
Lemma do_rules_stop_alone r post st st1 :
  rule_fires r st st1 → r_stop r = true →
  do_rules conf (r :: post) st = do_rules conf [r] st.
Proof.
  intros Hfires Hstop. pose proof (do_rule_fires _ _ _ Hfires) as Hrule.
  assert (∀ f s', do_rule conf r st = Ok f s' → ∃ c, f = Return c) as Hret.
  { intros f s'. rewrite Hrule, rule_matched_cases.
    destruct (rule_enter conf r st1) as [[|c4] s4|];
      [| intros [= <- _]; eauto | done].
    rewrite rule_leave_cases.
    destruct (negb (ARRAY_EMPTY (r_rules r))).
    - destruct (do_rules conf (r_rules r) _) as [c s5|]; [|done].
      rewrite rule_nested_exit_cases.
      destruct (negb (c =? 0)); [intros [= <- _]; eauto|].
      destruct (st_stopped s5); [intros [= <- _]; eauto|].
      rewrite rule_stop_cases, Hstop. intros [= <- _]; eauto.
    - rewrite rule_stop_cases, Hstop. intros [= <- _]; eauto. }
  rewrite !do_rules_cons.
  destruct (do_rule conf r st) as [[|c] s'|] eqn:Hr; [|done|done].
  by destruct (Hret _ _ eq_refl).
Qed.

(** A stop rule at any depth: the run returns [0] in the state of
    [stops_at], with [stopped] set. *)
Lemma stops_at_run rules st st' :
  stops_at conf rules st st' →
  do_rules conf rules st = Ok 0 st' ∧ st_stopped st' = true.
Proof.
  induction 1 as [r rules st s1 s' Hr _ [IHrun IHst]
                 |r post st st1 s4 Hfires Hstop Hnil Henter
                 |r post st st1 s4 s5 Hfires Hstop Hne Henter Hnested Hs5
                 |r post st st1 s4 s5 Hfires Hne Henter _ [IHrun IHst]].
  - by rewrite do_rules_cons, Hr.
  - by rewrite (do_rules_fires_plain _ _ _ _ _ Hfires Hnil Henter), Hstop.
  - by rewrite (do_rules_fires_nested _ _ _ _ _ _ Hfires Hne Henter Hnested),
      Hs5, Hstop.
  - rewrite (do_rules_fires_nested _ _ _ _ _ _ Hfires Hne Henter IHrun).
    by rewrite IHst.
Qed.

(** C2.  For a rule [r] that matches in [st], followed by the siblings
    [post], in a list at any depth:
    - when [r] has the stop flag and gets to it, having delivered and
      having no nested rules, [do_rules] returns [0] at once in the state
      of [r] in which [stopped] has been set to [true]; [post] is not
      evaluated;
    - the same when [r] has nested rules that have returned [0] without
      [stopped];
    - when [r] has the stop flag, [do_rules] on [r :: post] is [do_rules]
      on [r] alone, however the iteration of [r] ends;
    - when the nested rules of [r] return with [stopped] set, [do_rules]
      returns [0] at once, with [stopped] set and without [post]: the
      enclosing list stops;
    - so a stop rule at any depth below a rule of the list ([stops_at])
      ends the run of the list and of every list between them: [do_rules]
      returns [0] with [stopped] set, in a state in which no sibling after
      the stop rule or after a rule that encloses it plays a part;
    - when the nested rules of [r] run off the end of their list, no stop
      rule having returned, [stopped] is as it was, [false] in a run that
      began with [false], and, [r] having no stop flag, [do_rules] goes on
      with [post]. *)
Theorem do_rules_stop r post st st1 :
  rule_fires r st st1 →
  (∀ s4, r_stop r = true → r_rules r = [] →
     rule_enter conf r st1 = Ok Next s4 →
     let st' := with_mctx (mctx_with_stopped true) s4 in
     do_rules conf (r :: post) st = Ok 0 st' ∧ st_stopped st' = true)
  ∧ (∀ s4 s5, r_stop r = true → r_rules r ≠ [] →
       rule_enter conf r st1 = Ok Next s4 →
       do_rules conf (r_rules r) (with_log (LOG_DEBUG2, L_enter_nested) s4)
       = Ok 0 s5 →
       st_stopped s5 = false →
       let st' := with_mctx (mctx_with_stopped true)
                    (with_log (LOG_DEBUG2, L_exit_nested false) s5) in
       do_rules conf (r :: post) st = Ok 0 st' ∧ st_stopped st' = true)
  ∧ (r_stop r = true →
     do_rules conf (r :: post) st = do_rules conf [r] st)
  ∧ (∀ s4 s5,
       rule_enter conf r st1 = Ok Next s4 → r_rules r ≠ [] →
       do_rules conf (r_rules r) (with_log (LOG_DEBUG2, L_enter_nested) s4)
       = Ok 0 s5 →
       st_stopped s5 = true →
       do_rules conf (r :: post) st
       = Ok 0 (with_log (LOG_DEBUG2, L_exit_nested true) s5)
       ∧ st_stopped (with_log (LOG_DEBUG2, L_exit_nested true) s5) = true)
  ∧ (∀ st', stops_at conf (r :: post) st st' →
       do_rules conf (r :: post) st = Ok 0 st' ∧ st_stopped st' = true)
  ∧ (∀ s4 s5,
       rule_enter conf r st1 = Ok Next s4 → r_rules r ≠ [] →
       exhausts conf (r_rules r) (with_log (LOG_DEBUG2, L_enter_nested) s4) s5 →
       st_stopped s5 = st_stopped st
       ∧ (st_stopped st = false → r_stop r = false →
          do_rules conf (r :: post) st
          = do_rules conf post (with_log (LOG_DEBUG2, L_exit_nested false) s5))).
Proof.
  intros Hfires.
  split; [|split; [|split; [|split; [|split]]]].
  - intros s4 Hstop Hnil Henter st'. split; [|done].
    by rewrite (do_rules_fires_plain _ _ _ _ _ Hfires Hnil Henter), Hstop.
  - intros s4 s5 Hstop Hne Henter Hnested Hs5 st'. split; [|done].
    by rewrite (do_rules_fires_nested _ _ _ _ _ _ Hfires Hne Henter Hnested),
      Hs5, Hstop.
  - by apply do_rules_stop_alone with st1.
  - intros s4 s5 Henter Hne Hnested Hs5. split; [|done].
    by rewrite (do_rules_fires_nested _ _ _ _ _ _ Hfires Hne Henter Hnested),
      Hs5.
  - intros st'. apply stops_at_run.
  - intros s4 s5 Henter Hne Hex.
    apply exhausts_run in Hex as [Hnested Hs5].
    pose proof (keeps_rule_match _ _ _ _ (proj2 Hfires)) as Hs1.
    pose proof (keeps_rule_enter _ _ _ _ Henter) as Hs4.
    assert (st_stopped s5 = st_stopped st) as Heq.
    { rewrite Hs5. change (st_stopped s4 = st_stopped st). congruence. }
    split; [done|]. intros Hst Hstop.
    rewrite (do_rules_fires_nested _ _ _ _ _ _ Hfires Hne Henter Hnested).
    by rewrite Heq, Hst, Hstop.
Qed.

End EngineProps.

Lemma do_rules_stop_witness :
  ∃ st', do_rules (sample_conf [] DECISION_KEEP false false)
           [all_rule 1 true []; all_rule 2 false []] (bob_state mail_zero)
         = Ok 0 st'
    ∧ st_stopped st' = true
    ∧ matched_rules (st_log st') = [1].
Proof.
  destruct (do_rules_stop (sample_conf [] DECISION_KEEP false false)
              (all_rule 1 true []) [all_rule 2 false []]
              (bob_state mail_zero) (bob_state mail_zero)) as (Hstop & _).
  - split; reflexivity.
  - destruct (Hstop (State (bob_ctx (set_wrapped NL mail_zero)) None
                       [(LOG_DEBUG, L_matched 1 false)]))
      as [Hrun Hst]; [reflexivity | reflexivity | reflexivity |].
    eexists. split; [exact Hrun|]. split; [exact Hst | reflexivity].
Defined.

(** A stop rule two levels down: rule 3 stops, and neither its sibling 4
    nor the siblings 5 and 6 of the enclosing rules are evaluated. *)
Example do_rules_stop_nested :
  ∃ st', do_rules (sample_conf [] DECISION_KEEP false false)
           [all_rule 1 false
              [all_rule 2 false [all_rule 3 true []; all_rule 4 false []];
               all_rule 5 false []];
            all_rule 6 false []]
           (bob_state mail_zero) = Ok 0 st'
         ∧ st_stopped st' = true
         ∧ matched_rules (st_log st') = [1; 2; 3].
Proof. eexists. vm_compute. done. Qed.

(** Nested rules without a stop: the list runs off its end and the
    siblings go on. *)
Example do_rules_nested_exhausts :
  ∃ st', do_rules (sample_conf [] DECISION_KEEP false false)
           [all_rule 1 false [all_rule 2 false []; all_rule 3 false []];
            all_rule 4 false []]
           (bob_state mail_zero) = Ok 0 st'
         ∧ st_stopped st' = false
         ∧ matched_rules (st_log st') = [1; 2; 3; 4].
Proof. eexists. vm_compute. done. Qed.

(** *** C3: the end of the ruleset *)

Section FetchGotProps.

Context {L : Lib}.
Variable conf : config.

(** The steps of [fetch_got] before the rules do not fail. *)
Lemma fetch_got_prepare_total a st :
  ∃ st0, fetch_got_prepare conf a st = Ok tt st0.
Proof.
  assert (total (fetch_got_prepare conf a)) as Htotal.
  { unfold fetch_got_prepare, fetch_got_message_id, fetch_got_received,
      fetch_got_wrapped. totality. }
  destruct (Htotal st) as ([] & st0 & Hrun). eauto.
Qed.

Lemma implicit_decision_run st :
  ∃ l, implicit_decision conf st
       = Ok tt (with_mail (mail_with_decision (implicit_of (conf_impl_act conf)))
                  (with_log l st))
       ∧ (conf_impl_act conf = DECISION_NONE → l = (LOG_WARN, L_end_none)).
Proof.
  unfold implicit_decision, implicit_of.
  destruct (conf_impl_act conf); munfold; cbn; eexists; split; done.
Qed.

(** C3.  When [do_rules] on the top-level list returns [0] in the state
    [st']:
    - with [stopped] unset, the decision is that of the implicit policy,
      Keep for None (with a warning, the last line of the log) and for
      Keep, Drop for Drop, unless the keep-all option or the account's
      keep flag is set, in which case it is Keep;
    - with [stopped] set, the decision is the one the rules have left,
      unless the keep-all option or the account's keep flag is set, in
      which case it is Keep, also after a Drop;
    and [fetch_got] returns [FETCH_SUCCESS]. *)
Theorem fetch_got_decision i a m cause lg st0 st' :
  fetch_got_prepare conf a (State (MatchCtx i a m false false) cause lg)
  = Ok tt st0 →
  do_rules conf (conf_rules conf)
    (with_mctx (λ c, mctx_with_stopped false (mctx_with_matched false c)) st0)
  = Ok 0 st' →
  let keep := conf_keep_all conf || a_keep a in
  (st_stopped st' = false →
   ∃ st'', fetch_got conf i a m cause lg = Ok FETCH_SUCCESS st''
     ∧ m_decision (st_mail st'')
       = (if keep then DECISION_KEEP else implicit_of (conf_impl_act conf))
     ∧ (conf_impl_act conf = DECISION_NONE →
        st_log st'' = st_log st' ++ [(LOG_WARN, L_end_none)]))
  ∧ (st_stopped st' = true →
     ∃ st'', fetch_got conf i a m cause lg = Ok FETCH_SUCCESS st''
       ∧ m_decision (st_mail st'')
         = (if keep then DECISION_KEEP else m_decision (st_mail st'))
       ∧ st_log st'' = st_log st').
Proof.
  intros Hprep Hrules keep.
  assert (fetch_got conf i a m cause lg
          = (stopped <- gets st_stopped ;;
             (if stopped then ret tt else implicit_decision conf) ;;;
             fetch_got_done conf a) st') as Hgot.
  { unfold fetch_got. rewrite (bind_eq _ _ _ _ _ Hprep).
    unfold fetch_got_rules.
    rewrite bind_modify, (bind_eq _ _ _ _ _ Hrules).
    reflexivity. }
  rewrite Hgot. unfold fetch_got_done. fold keep. split; intros Hst.
  - destruct (implicit_decision_run st') as (l & Himpl & Hwarn).
    rewrite bind_gets, Hst, (bind_eq _ _ _ _ _ Himpl).
    destruct keep; munfold; cbn; eexists; (split; [done|]); split;
      try done; intros Hnone; by rewrite (Hwarn Hnone).
  - rewrite bind_gets, Hst, bind_ret.
    destruct keep; munfold; cbn; eexists; done.
Qed.

End FetchGotProps.

Lemma fetch_got_decision_witness :
  ∃ st'', fetch_got (sample_conf [] DECISION_DROP true false)
            empty_io bob mail_zero None []
          = Ok FETCH_SUCCESS st''
    ∧ m_decision (st_mail st'') = DECISION_KEEP.
Proof.
  edestruct (fetch_got_decision (sample_conf [] DECISION_DROP true false)
               empty_io bob mail_zero None []) as [Hend _];
    [reflexivity | reflexivity |].
  destruct (Hend eq_refl) as (st'' & Hrun & Hdec & _).
  exists st''. split; [exact Hrun | exact Hdec].
Defined.

(** The scenarios of the design document on an empty ruleset: the policy
    None keeps with a warning, Keep keeps, Drop drops, and the keep-all
    option keeps under the policy Drop. *)
Example fetch_got_empty_ruleset :
  ∀ policy keep_all,
  ∃ st'', fetch_got (sample_conf [] policy keep_all false)
            empty_io bob mail_zero None []
          = Ok FETCH_SUCCESS st''
    ∧ m_decision (st_mail st'')
      = (if keep_all then DECISION_KEEP else implicit_of policy).
Proof. intros [] []; eexists; vm_compute; done. Qed.

(** *** The action dispatcher *)

Section ActionProps.

Context {L : Lib}.
Variable conf : config.

Implicit Types (r : rule) (t : action) (a : account) (st : state).

(** The exchange for one user, by what the parent does. *)
Lemma do_action_user_send_fails a t uid st p rest :
  io_peer (st_io st) = p :: rest → ps_send_ok p = false →
  do_action_user a t uid st = Fatal "child: privsep_send error".
Proof.
  intros Hpeer Hsend. unfold do_action_user, privsep_send.
  rewrite !bind_gets. fold (st_io st). by rewrite Hpeer, Hsend.
Qed.

Lemma do_action_user_reply a t uid st p rest h' buf :
  io_peer (st_io st) = p :: rest → ps_send_ok p = true →
  ps_reply p = Some (h', buf) →
  do_action_user a t uid st =
  if negb (bool_decide (msg_type h' = MSG_DONE))
  then Fatal "child: unexpected message"
  else match buf with
  | None => Fatal "child: bad tags"
  | Some tags =>
      let st' := after_reply a t uid rest tags st in
      if negb (msg_error h' =? 0) then Ok (Return 1) st'
      else if negb (bool_decide (d_type (t_deliver t) = DELIVER_WRBACK)) then
        if negb (m_size (st_mail st) =? m_size (msg_mail h'))
           || negb (m_body (st_mail st) =? m_body (msg_mail h'))
        then Fatal "child: corrupted message"
        else Ok Next st'
      else
        let m1 := trim_from (mail_receive (st_mail st') h') in
        Ok Next
          (with_log (LOG_DEBUG2, L_wrapped (fill_wrapped m1).1)
             (with_mail (λ _, (fill_wrapped m1).2)
                (with_mail trim_from
                   (with_log (LOG_DEBUG,
                              L_modified (m_size (mail_receive (st_mail st') h'))
                                         (m_body (mail_receive (st_mail st') h')))
                      (with_mail (λ m, mail_receive m h') st')))))
  end.
Proof.
  intros Hpeer Hsend Hreply. unfold do_action_user, privsep_send, privsep_recv.
  rewrite !bind_gets. fold (st_io st). rewrite Hpeer, Hsend. cbn [io_peer].
  rewrite Hreply, bind_modify.
  destruct (negb (bool_decide (msg_type h' = MSG_DONE))); [done|].
  destruct buf as [tags|]; [|done].
  rewrite bind_modify. fold (action_request a t uid st).
  fold (after_reply a t uid rest tags st).
  destruct (negb (msg_error h' =? 0)); [done|].
  destruct (negb (bool_decide (d_type (t_deliver t) = DELIVER_WRBACK))).
  - rewrite bind_gets. cbn [st_mail after_reply].
    by destruct (negb _ || negb _).
  - rewrite bind_modify, bind_gets. unfold log_debug, log_debug2.
    rewrite bind_log, bind_modify, bind_gets.
    cbn -[fill_wrapped trim_from mail_receive after_reply].
    by destruct (fill_wrapped _).
Qed.

Lemma do_action_user_recv_fails a t uid st p rest :
  io_peer (st_io st) = p :: rest → ps_send_ok p = true → ps_reply p = None →
  do_action_user a t uid st = Fatal "child: privsep_recv error".
Proof.
  intros Hpeer Hsend Hreply. unfold do_action_user, privsep_send, privsep_recv.
  rewrite !bind_gets. fold (st_io st). rewrite Hpeer, Hsend. cbn [io_peer].
  by rewrite Hreply.
Qed.

Lemma do_action_user_no_peer a t uid st :
  io_peer (st_io st) = [] →
  do_action_user a t uid st = Fatal "child: privsep_send error".
Proof.
  intros Hpeer. unfold do_action_user, privsep_send.
  rewrite !bind_gets. fold (st_io st). by rewrite Hpeer.
Qed.

Lemma do_action_loop_cons a t uid users st :
  do_action_loop a t (uid :: users) st =
  match do_action_user a t uid st with
  | Ok Next s1 => do_action_loop a t users s1
  | Ok (Return c) s1 => Ok c s1
  | Fatal why => Fatal why
  end.
Proof.
  cbn [do_action_loop]. unfold bind.
  by destruct (do_action_user a t uid st) as [[|c] s1|].
Qed.

(** An action that the parent runs: the exchanges for its users. *)
Lemma do_action_out r t fn st :
  d_deliver (t_deliver t) = Some fn →
  d_type (t_deliver t) ≠ DELIVER_INCHILD →
  do_action conf r t st =
  do_action_loop (st_account st) t
    (do_action_users conf r t (st_account st) (st_mail (action_tagged t st))).2
    (action_tagged t st).
Proof.
  intros Hfn Htype. unfold do_action. rewrite Hfn, bind_modify, !bind_gets.
  by rewrite bool_decide_eq_false_2.
Qed.

(** What an exchange that ends leaves on the channel, and how it ends. *)
Lemma do_action_user_sent a t uid st f st' :
  do_action_user a t uid st = Ok f st' →
  io_sent (st_io st') = io_sent (st_io st) ++ [action_request a t uid st]
  ∧ (∀ c, f = Return c → c = 1).
Proof.
  destruct (io_peer (st_io st)) as [|p rest] eqn:Hpeer.
  { by rewrite do_action_user_no_peer. }
  destruct (ps_send_ok p) eqn:Hsend.
  2:{ by rewrite (do_action_user_send_fails _ _ _ _ _ _ Hpeer Hsend). }
  destruct (ps_reply p) as [[h' buf]|] eqn:Hreply.
  2:{ by rewrite (do_action_user_recv_fails _ _ _ _ _ _ Hpeer Hsend Hreply). }
  rewrite (do_action_user_reply _ _ _ _ _ _ _ _ Hpeer Hsend Hreply).
  destruct (negb (bool_decide _)); [done|].
  destruct buf as [tags|]; [|done]. cbv zeta.
  destruct (negb (msg_error h' =? 0)).
  { intros [= <- <-]. split; [done|]. by intros c [= <-]. }
  destruct (negb (bool_decide _)).
  - destruct (_ || _); [done|]. intros [= <- <-]. done.
  - intros [= <- <-]. done.
Qed.

Lemma do_action_loop_sent a t users : ∀ st c st',
  do_action_loop a t users st = Ok c st' →
  ∃ sent, io_sent (st_io st') = io_sent (st_io st) ++ sent
    ∧ request_uids sent `prefix_of` users
    ∧ (c = 0 → request_uids sent = users).
Proof.
  induction users as [|uid users IH]; intros st c st' Hrun.
  - injection Hrun as <- <-. exists []. by rewrite app_nil_r.
  - rewrite do_action_loop_cons in Hrun.
    destruct (do_action_user a t uid st) as [f s1|] eqn:Huser; [|done].
    destruct (do_action_user_sent _ _ _ _ _ _ Huser) as [Hsent Hret].
    destruct f as [|c1].
    + destruct (IH _ _ _ Hrun) as (sent & Hs & Hpre & Hall).
      exists (action_request a t uid st :: sent). unfold request_uids in *.
      split; [|split].
      * rewrite Hs, Hsent, <- app_assoc. done.
      * cbn. by apply prefix_cons.
      * intros Hc. cbn. by rewrite (Hall Hc).
    + injection Hrun as <- <-. rewrite (Hret _ eq_refl).
      exists [action_request a t uid st]. split; [done|]. split; [|done].
      cbn. apply prefix_cons, prefix_nil.
Qed.

(** The array [users] of [do_action] is the resolved identity of the
    design document. *)
Lemma do_action_users_resolved r t a m :
  (do_action_users conf r t a m).2 = resolved_identity conf r t a m.
Proof.
  unfold do_action_users, resolved_identity, identity_providers.
  destruct (r_find_uid r); cbn; [by destruct (find_users m)|].
  destruct (r_users r); cbn; [done|].
  destruct (t_find_uid t); cbn; [by destruct (find_users m)|].
  destruct (t_users t); cbn; [done|].
  destruct (a_find_uid a); cbn; [by destruct (find_users m)|].
  by destruct (a_users a).
Qed.

(** *** C4: the size and the body offset across an exchange *)

(** C4 (as amended).  For an action that is not a write-back, and a
    reply that mirrors a size or a body offset other than the mail's:
    the exchange is never accepted, neither it nor the loop over the
    users ends in success; when the reply carries no execution error the
    process ends in [fatalx], with "corrupted message" when the reply is
    otherwise well formed; when the reply carries an execution error,
    [do_action] returns [1] before the sizes are compared, and the action
    fails without ending the process. *)
Theorem do_action_corrupted a t uid users st p rest h' buf :
  io_peer (st_io st) = p :: rest →
  ps_reply p = Some (h', buf) →
  d_type (t_deliver t) ≠ DELIVER_WRBACK →
  m_size (st_mail st) ≠ m_size (msg_mail h')
  ∨ m_body (st_mail st) ≠ m_body (msg_mail h') →
  (∀ st', do_action_user a t uid st ≠ Ok Next st')
  ∧ (∀ st', do_action_loop a t (uid :: users) st ≠ Ok 0 st')
  ∧ (msg_error h' = 0 →
     ∃ why, do_action_loop a t (uid :: users) st = Fatal why)
  ∧ (ps_send_ok p = true → msg_type h' = MSG_DONE → is_Some buf →
     msg_error h' = 0 →
     do_action_loop a t (uid :: users) st = Fatal "child: corrupted message")
  ∧ (ps_send_ok p = true → msg_type h' = MSG_DONE →
     ∀ tags, buf = Some tags → msg_error h' ≠ 0 →
     do_action_loop a t (uid :: users) st
     = Ok 1 (after_reply a t uid rest tags st)).
Proof.
  intros Hpeer Hreply Htype Hdiff.
  assert (negb (m_size (st_mail st) =? m_size (msg_mail h'))
          || negb (m_body (st_mail st) =? m_body (msg_mail h')) = true)
    as Hcmp.
  { apply orb_true_iff.
    destruct Hdiff as [Hd|Hd]; [left|right];
      by apply negb_true_iff, Z.eqb_neq. }
  assert (do_action_user a t uid st =
          if ps_send_ok p then
            if negb (bool_decide (msg_type h' = MSG_DONE))
            then Fatal "child: unexpected message"
            else match buf with
                 | None => Fatal "child: bad tags"
                 | Some tags =>
                     if negb (msg_error h' =? 0)
                     then Ok (Return 1) (after_reply a t uid rest tags st)
                     else Fatal "child: corrupted message"
                 end
          else Fatal "child: privsep_send error") as Huser.
  { destruct (ps_send_ok p) eqn:Hsend.
    - rewrite (do_action_user_reply _ _ _ _ _ _ _ _ Hpeer Hsend Hreply).
      destruct (negb (bool_decide _)); [done|].
      destruct buf as [tags|]; [|done]. cbv zeta.
      destruct (negb (msg_error h' =? 0)); [done|].
      by rewrite bool_decide_eq_false_2, Hcmp.
    - by apply do_action_user_send_fails with p rest. }
  rewrite do_action_loop_cons, Huser.
  split; [|split; [|split; [|split]]].
  - intros st'. destruct (ps_send_ok p); [|discriminate].
    destruct (negb (bool_decide _)); [discriminate|].
    destruct buf; [|discriminate].
    destruct (negb (msg_error h' =? 0)); discriminate.
  - intros st'. destruct (ps_send_ok p); [|discriminate].
    destruct (negb (bool_decide _)); [discriminate|].
    destruct buf; [|discriminate].
    destruct (negb (msg_error h' =? 0)); discriminate.
  - intros ->. destruct (ps_send_ok p); [|by eauto].
    destruct (negb (bool_decide _)); [by eauto|]. destruct buf; by eauto.
  - intros -> -> [tags ->] ->. done.
  - intros -> -> tags -> Herr.
    rewrite bool_decide_eq_true_2 by done. cbn [negb].
    by apply Z.eqb_neq in Herr as ->.
Qed.

(** *** C9: the tags of the reply *)

(** The loop over the users goes on after the users whose exchange has
    succeeded. *)
Lemma do_action_loop_app a t pre : ∀ users st0 st,
  do_action_loop a t pre st0 = Ok 0 st →
  do_action_loop a t (pre ++ users) st0 = do_action_loop a t users st.
Proof.
  induction pre as [|uid pre IH]; intros users st0 st Hpre.
  - by injection Hpre as <-.
  - cbn [app]. rewrite do_action_loop_cons in Hpre |- *.
    destruct (do_action_user a t uid st0) as [f s1|] eqn:Huser; [|done].
    destruct (do_action_user_sent _ _ _ _ _ _ Huser) as [_ Hret].
    destruct f as [|c]; [by apply IH|].
    injection Hpre as -> _. by specialize (Hret 0 eq_refl).
Qed.

(** C9.  For every exchange of [do_action], for whichever user and in
    whatever state [st] the loop over the users has reached: when the
    reply is a completion reply with its tags, the state after the
    exchange is [st'], in which the tags of the mail are those of the
    reply (as [update_tags] leaves them), not those the mail had when the
    request was sent.
    - When the reply carries a non-zero error code, the exchange and the
      loop return [1] in [st']: the tags have been replaced before the
      error code is looked at.  So does [do_action], whichever of its
      users the exchange is for, the exchanges for the users [pre] before
      it having succeeded.
    - When the reply carries no error and the action is not a write-back,
      an exchange that does not end the process goes on to the next user
      in [st']. *)
Theorem do_action_error_tags a t uid users st p rest h' tags :
  io_peer (st_io st) = p :: rest →
  ps_send_ok p = true →
  ps_reply p = Some (h', Some tags) →
  msg_type h' = MSG_DONE →
  let st' := after_reply a t uid rest tags st in
  m_tags (st_mail st') = update_tags tags
  ∧ (msg_error h' ≠ 0 →
     do_action_user a t uid st = Ok (Return 1) st'
     ∧ do_action_loop a t (uid :: users) st = Ok 1 st'
     ∧ ∀ r fn st0 pre,
         d_deliver (t_deliver t) = Some fn →
         d_type (t_deliver t) ≠ DELIVER_INCHILD →
         st_account st0 = a →
         (do_action_users conf r t a (st_mail (action_tagged t st0))).2
         = pre ++ uid :: users →
         do_action_loop a t pre (action_tagged t st0) = Ok 0 st →
         do_action conf r t st0 = Ok 1 st')
  ∧ (msg_error h' = 0 → d_type (t_deliver t) ≠ DELIVER_WRBACK →
     ∀ f s, do_action_user a t uid st = Ok f s → f = Next ∧ s = st').
Proof.
  intros Hpeer Hsend Hreply Hdone st'.
  pose proof (do_action_user_reply a t uid st p rest h' (Some tags)
                Hpeer Hsend Hreply) as Huser.
  rewrite bool_decide_eq_true_2 in Huser by done.
  cbn [negb] in Huser. cbv zeta in Huser. fold st' in Huser.
  split; [done|]. split.
  - intros Herr. apply Z.eqb_neq in Herr. rewrite Herr in Huser.
    cbn [negb] in Huser.
    assert (do_action_loop a t (uid :: users) st = Ok 1 st') as Hloop.
    { by rewrite do_action_loop_cons, Huser. }
    split; [done|]. split; [done|].
    intros r fn st0 pre Hfn Htype Ha Husers Hpre.
    rewrite (do_action_out _ _ _ _ Hfn Htype), Ha, Husers.
    by rewrite (do_action_loop_app _ _ _ _ _ _ Hpre).
  - intros Herr Htype f s. rewrite Huser, Herr. cbn [Z.eqb negb].
    rewrite bool_decide_eq_false_2 by done. cbn [negb].
    destruct (_ || _); [done|]. by intros [= <- <-].
Qed.

(** *** C5: the users of a delivery *)

(** C5.  For an action that the parent runs, the users of [do_action]
    are the resolved identity of the design document: the list of the
    first provider that applies, in the order rule flag, rule list,
    action flag, action list, account flag, account list, and the single
    default user when none applies or when the derive flag that applies
    finds no user.  [do_action] runs the exchanges for these users in
    order: the requests it writes are for a prefix of them, and for all
    of them when it returns [0]. *)
Theorem do_action_identities r t fn st :
  d_deliver (t_deliver t) = Some fn →
  d_type (t_deliver t) ≠ DELIVER_INCHILD →
  let a := st_account st in
  let st1 := action_tagged t st in
  let users := resolved_identity conf r t a (st_mail st1) in
  (do_action_users conf r t a (st_mail st1)).2 = users
  ∧ do_action conf r t st = do_action_loop a t users st1
  ∧ (∀ c st', do_action conf r t st = Ok c st' →
       ∃ sent, io_sent (st_io st') = io_sent (st_io st) ++ sent
         ∧ request_uids sent `prefix_of` users
         ∧ (c = 0 → request_uids sent = users)).
Proof.
  intros Hfn Htype a st1 users.
  pose proof (do_action_users_resolved r t a (st_mail st1)) as Hres.
  split; [exact Hres|].
  assert (do_action conf r t st = do_action_loop a t users st1) as Hrun.
  { rewrite (do_action_out _ _ _ _ Hfn Htype). fold a st1. by rewrite Hres. }
  split; [exact Hrun|].
  intros c st'. rewrite Hrun. intros Hloop.
  exact (do_action_loop_sent _ _ _ _ _ _ Hloop).
Qed.

End ActionProps.

Lemma do_action_corrupted_witness :
  do_action_loop bob file_action [1000]
    (peer_state [PeerStep true (Some (done_reply 0 99 3, Some ∅))] mail_hello)
  = Fatal "child: corrupted message".
Proof.
  destruct (do_action_corrupted bob file_action 1000 []
              (peer_state [PeerStep true (Some (done_reply 0 99 3, Some ∅))]
                 mail_hello)
              (PeerStep true (Some (done_reply 0 99 3, Some ∅))) []
              (done_reply 0 99 3) (Some ∅))
    as (_ & _ & _ & Hfatal & _).
  - reflexivity.
  - reflexivity.
  - discriminate.
  - left. discriminate.
  - apply Hfatal; [reflexivity | reflexivity | by eexists | reflexivity].
Defined.

(** C4 as the design document has it fails on a reply that carries an
    execution error: the sizes differ, and [do_action] returns [1]
    instead of ending the process. *)
Lemma do_action_corrupted_counterexample :
  ¬ (∀ a t uid st p rest h' buf,
       io_peer (st_io st) = p :: rest →
       ps_reply p = Some (h', buf) →
       d_type (t_deliver t) ≠ DELIVER_WRBACK →
       m_size (st_mail st) ≠ m_size (msg_mail h')
       ∨ m_body (st_mail st) ≠ m_body (msg_mail h') →
       ∃ why, do_action_user (L := sample_lib) a t uid st = Fatal why).
Proof.
  intros Hclaim.
  destruct (Hclaim bob file_action 1000
              (peer_state [PeerStep true (Some (done_reply 1 99 3, Some ∅))]
                 mail_hello)
              (PeerStep true (Some (done_reply 1 99 3, Some ∅))) []
              (done_reply 1 99 3) (Some ∅)) as [why Hwhy].
  - reflexivity.
  - reflexivity.
  - discriminate.
  - left. discriminate.
  - vm_compute in Hwhy. discriminate.
Qed.

Lemma do_action_error_tags_witness :
  do_action (sample_conf [] DECISION_KEEP false false)
    (users_rule false (Some [7; 8])) file_action tagged_replies
  = Ok 1 (after_reply bob file_action 8 [] {["second" := "yes"]}
            tagged_replies_second)
  ∧ m_tags (st_mail (after_reply bob file_action 8 [] {["second" := "yes"]}
                       tagged_replies_second))
    = {["second" := "yes"]}.
Proof.
  destruct (do_action_error_tags (sample_conf [] DECISION_KEEP false false)
              bob file_action 8 [] tagged_replies_second
              (PeerStep true
                 (Some (done_reply 1 5 3, Some {["second" := "yes"]})))
              [] (done_reply 1 5 3) {["second" := "yes"]})
    as (Htags & Herror & _).
  - reflexivity.
  - reflexivity.
  - reflexivity.
  - reflexivity.
  - split; [|exact Htags].
    destruct Herror as (_ & _ & Haction); [discriminate|].
    apply (Haction (users_rule false (Some [7; 8]))
             (λ d, (DELIVER_SUCCESS, dctx_mail d)) tagged_replies [7]).
    + reflexivity.
    + discriminate.
    + reflexivity.
    + reflexivity.
    + reflexivity.
Defined.

Lemma do_action_identities_witness :
  (do_action_users (sample_conf [] DECISION_KEEP false false)
     (users_rule false (Some [7; 8])) file_action bob
     (st_mail (action_tagged file_action (bob_state mail_hello)))).2
  = [7; 8].
Proof.
  apply (do_action_identities (sample_conf [] DECISION_KEEP false false)
           (users_rule false (Some [7; 8])) file_action
           (λ d, (DELIVER_SUCCESS, dctx_mail d)) (bob_state mail_hello)).
  - reflexivity.
  - discriminate.
Defined.

(** The users of the rule win over the default user, and the requests
    go out in their order. *)
Example do_action_rule_users :
  ∃ st', do_action (sample_conf [] DECISION_KEEP false false)
           (users_rule false (Some [7; 8])) file_action
           (peer_state [PeerStep true (Some (done_reply 0 5 3, Some ∅));
                        PeerStep true (Some (done_reply 0 5 3, Some ∅))]
              mail_hello) = Ok 0 st'
    ∧ request_uids (io_sent (st_io st')) = [7; 8].
Proof. eexists. vm_compute. done. Qed.

(** A derive flag that finds no user gives the default user, also when
    the rule has a list of its own. *)
Example do_action_derive_none :
  (do_action_users (sample_conf [] DECISION_KEEP false false)
     (users_rule true (Some [7; 8])) file_action bob mail_hello).2
  = [1000].
Proof. reflexivity. Qed.

(** *** The wrapped lines *)


Lemma wrapped_fold_lookup ch (w : list nat) : ∀ (d : list ascii) (i : nat),
  fold_left (λ d pos, <[pos := ch]> d) w d !! i
  = if decide (i ∈ w ∧ (i < List.length d)%nat) then Some ch else d !! i.
Proof.
  induction w as [|p w IH]; intros d i; cbn [fold_left].
  - case_decide as H; [|done]. destruct H as [H _]. by apply elem_of_nil in H.
  - rewrite IH, length_insert, list_lookup_insert.
    destruct (decide (i ∈ w ∧ (i < List.length d)%nat)) as [[Hin Hlt]|Hn].
    + rewrite decide_True; [done|]. split; [|done].
      apply elem_of_cons. by right.
    + destruct (decide (p = i ∧ (p < List.length d)%nat)) as [[-> Hlt]|Hn2].
      * rewrite decide_True; [done|]. split; [|done].
        apply elem_of_cons. by left.
      * rewrite decide_False; [done|].
        intros [[->|Hin]%elem_of_cons Hlt]; [apply Hn2 | apply Hn]; done.
Qed.


(** The character at a wrapped position of the mail. *)
Lemma set_wrapped_at ch m (i : nat) :
  i ∈ m_wrapped m → (i < List.length (m_data m))%nat →
  m_data (set_wrapped ch m) !! i = Some ch.
Proof.
  intros Hin Hlt. unfold set_wrapped. cbn. rewrite wrapped_fold_lookup.
  by rewrite decide_True.
Qed.

Section RuleClaims.

Context {L : Lib}.
Variable conf : config.

Implicit Types (r : rule) (st : state).

(** *** C8: the account filter *)

(** The loop over the accounts of a rule runs to the end of the array
    when no pattern matches the name. *)
Lemma accounts_scan_none (aa : list string) name : ∀ i,
  Forall (λ pat, name_match pat name = false) aa →
  accounts_scan aa name i = i + ARRAY_LENGTH aa.
Proof.
  unfold ARRAY_LENGTH.
  induction aa as [|pat aa IH]; intros i Hall; cbn [accounts_scan List.length].
  - lia.
  - inversion Hall as [|? ? Hpat Haa]; subst.
    rewrite Hpat, IH by done. lia.
Qed.

(** It stops before the end when a pattern matches. *)
Lemma accounts_scan_some (aa : list string) name : ∀ i,
  Exists (λ pat, name_match pat name = true) aa →
  i ≤ accounts_scan aa name i < i + ARRAY_LENGTH aa.
Proof.
  unfold ARRAY_LENGTH.
  induction aa as [|pat aa IH]; intros i Hex; cbn [accounts_scan List.length].
  - inversion Hex.
  - destruct (name_match pat name) eqn:Hpat; [lia|].
    assert (Exists (λ pat, name_match pat name = true) aa) as Hex'.
    { inversion Hex; [congruence | assumption]. }
    specialize (IH (i + 1) Hex'). lia.
Qed.

(** A rule is skipped for the account exactly when it has a filter of
    which no pattern matches the name of the account. *)
Lemma rule_not_for_spec r a :
  rule_not_for r a = true
  ↔ r_accounts r ≠ []
    ∧ Forall (λ pat, name_match pat (a_name a) = false) (r_accounts r).
Proof.
  unfold rule_not_for. split.
  - intros [Hne Hscan]%andb_true_iff. split.
    + by destruct (r_accounts r).
    + apply Z.eqb_eq in Hscan.
      apply Forall_forall. intros pat Hin.
      destruct (name_match pat (a_name a)) eqn:Hpat; [|done].
      assert (Exists (λ pat, name_match pat (a_name a) = true) (r_accounts r))
        as Hex by (apply Exists_exists; eauto).
      pose proof (accounts_scan_some _ _ 0 Hex). lia.
  - intros [Hne Hall]. apply andb_true_iff. split.
    + by destruct (r_accounts r).
    + apply Z.eqb_eq. by rewrite accounts_scan_none.
Qed.

(** C8.  A rule with an account filter of which no pattern matches the
    name of the current account is skipped: its iteration ends at once
    with the state as it was (no evaluation of the expression, no tag, no
    delivery, no nested rules, nothing in the log), and [do_rules] goes
    on with the rules after it. *)
Theorem do_rules_account_filter r rest st :
  r_accounts r ≠ [] →
  Forall (λ pat, name_match pat (a_name (st_account st)) = false)
         (r_accounts r) →
  do_rule conf r st = Ok Next st
  ∧ do_rules conf (r :: rest) st = do_rules conf rest st.
Proof.
  intros Hne Hall.
  assert (rule_not_for r (st_account st) = true) as Hskip
    by (apply rule_not_for_spec; done).
  assert (do_rule conf r st = Ok Next st) as Hrule
    by (by rewrite do_rule_cases, Hskip).
  split; [done|]. by rewrite do_rules_cons, Hrule.
Qed.

(** *** C6: the wrapped lines around the expression *)



End RuleClaims.

Lemma do_rules_account_filter_witness :
  do_rules (sample_conf [] DECISION_KEEP false false)
    [account_rule 1 ["alice"]; account_rule 2 ["b*"]] (bob_state mail_zero)
  = do_rules (sample_conf [] DECISION_KEEP false false)
      [account_rule 2 ["b*"]] (bob_state mail_zero).
Proof.
  apply (do_rules_account_filter (sample_conf [] DECISION_KEEP false false)
           (account_rule 1 ["alice"]) [account_rule 2 ["b*"]]
           (bob_state mail_zero)).
  - discriminate.
  - repeat constructor.
Defined.

(** The rule for "alice" does not match for the account "bob"; a rule
    whose filter has a pattern for "bob" does. *)
Example do_rules_alice_bob :
  ∃ st', do_rules (sample_conf [] DECISION_KEEP false false)
           [account_rule 1 ["alice"]; account_rule 2 ["al*"; "b?b"];
            account_rule 3 ["carol"; "b*"]; account_rule 4 []]
           (bob_state mail_zero) = Ok 0 st'
    ∧ matched_rules (st_log st') = [2; 3; 4].
Proof. eexists. vm_compute. done. Qed.



(** *** C10: an action name that matches no action *)

Section DeliverProps.

Context {L : Lib}.
Variable conf : config.

Implicit Types (r : rule) (st : state) (rs : replstr).

Lemma do_deliver_loop_cons r rs actions st :
  do_deliver_loop conf r (rs :: actions) st =
  let s := replacestr rs (m_tags (st_mail st)) (st_mail st) in
  let st_l := with_log (LOG_DEBUG2, L_looking s) st in
  if ARRAY_EMPTY (match_actions s)
  then Ok 1 (with_log (LOG_WARN, L_no_actions s (rs_str rs)) st_l)
  else
    match do_deliver_actions conf r (match_actions s)
            (with_log (LOG_DEBUG2, L_found (ARRAY_LENGTH (match_actions s))) st_l)
    with
    | Ok c s1 =>
        if negb (c =? 0) then Ok 1 s1 else do_deliver_loop conf r actions s1
    | Fatal why => Fatal why
    end.
Proof.
  cbn [do_deliver_loop]. rewrite bind_gets. unfold log_debug2, log_warnx.
  rewrite bind_log. cbv zeta.
  destruct (ARRAY_EMPTY _); [done|].
  rewrite bind_log. unfold bind.
  destruct (do_deliver_actions _ _ _ _) as [c s1|]; [|done].
  by destruct (negb (c =? 0)).
Qed.

(** The loop over the names, on the names [pre] and then on [suf]. *)
Lemma do_deliver_loop_app r pre suf : ∀ st,
  do_deliver_loop conf r (pre ++ suf) st =
  match do_deliver_loop conf r pre st with
  | Ok c s1 =>
      if negb (c =? 0) then Ok 1 s1 else do_deliver_loop conf r suf s1
  | Fatal why => Fatal why
  end.
Proof.
  induction pre as [|rs pre IH]; intros st; [done|].
  rewrite <- app_comm_cons, !do_deliver_loop_cons. cbv zeta.
  destruct (ARRAY_EMPTY _); [done|].
  destruct (do_deliver_actions _ _ _ _) as [c s1|]; [|done].
  destruct (negb (c =? 0)); [done|]. apply IH.
Qed.

(** C10.  For a rule whose action names are [pre], [rs] and [rest], in
    this order: when the names [pre] have been delivered and the name
    [rs], after substitution, matches no action, [do_deliver] logs a
    warning and returns [1], whatever the names [rest], none of which is
    looked at; [do_rules] then sets [cause] to "delivery" and returns
    [1], without the nested rules and without the rules after this
    one. *)
Theorem do_deliver_unmatched r pre rs rest st st1 :
  r_actions r = Some (pre ++ rs :: rest) →
  do_deliver_loop conf r pre st = Ok 0 st1 →
  let s := replacestr rs (m_tags (st_mail st1)) (st_mail st1) in
  match_actions s = [] →
  let st2 := with_log (LOG_WARN, L_no_actions s (rs_str rs))
               (with_log (LOG_DEBUG2, L_looking s) st1) in
  do_deliver conf r st = Ok 1 st2
  ∧ (∀ rest', do_deliver_loop conf r (pre ++ rs :: rest') st = Ok 1 st2)
  ∧ (∀ st0,
       st = with_mctx (mctx_with_matched true)
              (with_log (LOG_DEBUG2, L_delivering) st0) →
       rule_deliver conf r st0 = Ok (Return 1) (with_cause "delivery" st2)
       ∧ ∀ sm s0 post,
           rule_fires r s0 sm →
           (modify (with_mail (set_wrapped NL)) ;;;
            log_debug (L_matched (r_idx r) (negb (ARRAY_EMPTY (r_rules r)))) ;;;
            rule_tag r) sm = Ok tt st0 →
           do_rules conf (r :: post) s0 = Ok 1 (with_cause "delivery" st2)).
Proof.
  intros Hacts Hpre s Hnone st2.
  assert (∀ rest', do_deliver_loop conf r (pre ++ rs :: rest') st = Ok 1 st2)
    as Hloop.
  { intros rest'. rewrite do_deliver_loop_app, Hpre. cbn [Z.eqb negb].
    rewrite do_deliver_loop_cons. cbv zeta. fold s. by rewrite Hnone. }
  assert (do_deliver conf r st = Ok 1 st2) as Hdeliver.
  { unfold do_deliver. rewrite Hacts. apply Hloop. }
  split; [exact Hdeliver|]. split; [exact Hloop|].
  intros st0 ->.
  assert (rule_deliver conf r st0 = Ok (Return 1) (with_cause "delivery" st2))
    as Hrule.
  { unfold rule_deliver. rewrite Hacts. unfold log_debug2.
    rewrite bind_log, bind_modify, (bind_eq _ _ _ _ _ Hdeliver). done. }
  split; [exact Hrule|].
  intros sm s0 post Hfires Henter.
  rewrite do_rules_cons, (do_rule_fires _ _ _ _ Hfires), rule_matched_cases.
  assert (rule_enter conf r sm = Ok (Return 1) (with_cause "delivery" st2))
    as ->; [|done].
  unfold rule_enter.
  apply bind_Ok in Henter as ([] & sa & Hreset & Henter).
  apply bind_Ok in Henter as ([] & sb & Hlog & Htag).
  rewrite (bind_eq _ _ _ _ _ Hreset), (bind_eq _ _ _ _ _ Hlog).
  by rewrite (bind_eq _ _ _ _ _ Htag).
Qed.

End DeliverProps.

Lemma do_deliver_unmatched_witness :
  ∃ st2, do_deliver (sample_conf [] DECISION_KEEP false false)
           (deliver_rule ["nosuch"; "file"]) (bob_state mail_hello)
         = Ok 1 st2
    ∧ io_sent (st_io st2) = [].
Proof.
  destruct (do_deliver_unmatched (sample_conf [] DECISION_KEEP false false)
              (deliver_rule ["nosuch"; "file"]) []
              (Replstr (Some "nosuch")) [Replstr (Some "file")]
              (bob_state mail_hello) (bob_state mail_hello))
    as [Hrun _].
  - reflexivity.
  - reflexivity.
  - reflexivity.
  - eexists. split; [exact Hrun | reflexivity].
Defined.

(** A rule whose second action name matches nothing: the first action is
    run, the mail is aborted with the cause "delivery", and the rule
    after it is not evaluated. *)
Example do_rules_unmatched_action :
  ∃ st', do_rules (sample_conf [] DECISION_KEEP false false)
           [deliver_rule ["file"; "nosuch"; "file"]; all_rule 2 false []]
           (peer_state [PeerStep true (Some (done_reply 0 5 3, Some ∅));
                        PeerStep true (Some (done_reply 0 5 3, Some ∅))]
              mail_hello) = Ok 1 st'
    ∧ st_cause st' = Some "delivery"
    ∧ request_uids (io_sent (st_io st')) = [1000]
    ∧ matched_rules (st_log st') = [1].
Proof. eexists. vm_compute. done. Qed.

(** *** C7: an oversized mail *)

Section FetchProps.

Context {L : Lib}.
Variable conf : config.

Implicit Types (s : fstate) (m : mail).

(** The purge leaves the counts of dropped and kept mails and the channel
    alone, and does not end the process. *)
Lemma fetch_purge_counts s :
  ∃ s', (fetch_purge conf s = F_next s'
         ∨ fetch_purge conf s = F_out s' ∧ fs_cause s' = Some "purging")
    ∧ fs_dropped s' = fs_dropped s ∧ fs_kept s' = fs_kept s
    ∧ fs_io s' = fs_io s.
Proof.
  unfold fetch_purge.
  destruct (f_purge (a_fetch (fs_account s))) as [purge|]; [|by eauto 8].
  destruct (conf_purge_after conf >? 0); [|by eauto 8]. cbv zeta.
  destruct (_ >=? _); [|by eauto 8].
  destruct (negb (bool_decide _)); eauto 8.
Qed.

(** Without a purge hook or a purge threshold the loop goes on. *)
Lemma fetch_purge_none s :
  f_purge (a_fetch (fs_account s)) = None ∨ conf_purge_after conf ≤ 0 →
  fetch_purge conf s = F_next s.
Proof.
  unfold fetch_purge. intros [Hnone|Hle].
  - by rewrite Hnone.
  - destruct (f_purge _); [|done].
    destruct (conf_purge_after conf >? 0) eqn:Hgt; [|done].
    apply Z.gtb_lt in Hgt. lia.
Qed.

(** C7 (as amended).  When the backend signals an oversized mail, left
    with the decision Drop it was handed with, and the option to discard
    oversized mails is set, the iteration logs a warning and goes to the
    end of the loop body without running the rules.  With a completion
    hook, the mail is counted as dropped, not as kept, and reported to
    the hook as Drop; the loop then goes on to the next mail when the
    hook and a purge that is due succeed, and aborts with the cause
    "deleting" or "purging" otherwise.  Without a completion hook nothing
    is counted.  The process does not end in [fatalx]. *)
Theorem fetch_oversize s fetch_fn m :
  f_fetch (a_fetch (fs_account s)) = Some fetch_fn →
  fetch_fn (a_data (fs_account s)) fresh_mail = (FETCH_OVERSIZE, m) →
  conf_del_big conf = true →
  m_decision m = DECISION_DROP →
  let s1 := fs_with_log (LOG_WARN, L_too_big (m_size m)) (fs_call C_fetch s) in
  let s2 := fs_call (C_done DECISION_DROP)
              (fs_with_dropped (u_incr (fs_dropped s))
                 (fs_with_cause (Some "deleting")
                    (fs_with_log (LOG_DEBUG, L_deleting) s1))) in
  fetch_iter conf s = fetch_done conf s1 m
  ∧ (f_done (a_fetch (fs_account s)) = None →
     fetch_iter conf s = fetch_purge conf s1)
  ∧ (∀ done, f_done (a_fetch (fs_account s)) = Some done →
       (done (a_data (fs_account s1)) DECISION_DROP = FETCH_SUCCESS →
        fetch_iter conf s = fetch_purge conf (fs_with_cause None s2))
       ∧ (done (a_data (fs_account s1)) DECISION_DROP ≠ FETCH_SUCCESS →
          fetch_iter conf s = F_out s2))
  ∧ (∃ s', (fetch_iter conf s = F_next s'
            ∧ (∀ fuel, fetch_loop conf (S fuel) s = fetch_loop conf fuel s')
            ∨ fetch_iter conf s = F_out s'
              ∧ (fs_cause s' = Some "deleting" ∨ fs_cause s' = Some "purging"))
       ∧ fs_kept s' = fs_kept s
       ∧ fs_dropped s'
         = match f_done (a_fetch (fs_account s)) with
           | Some _ => u_incr (fs_dropped s)
           | None => fs_dropped s
           end
       ∧ fs_io s' = fs_io s).
Proof.
  intros Hfetch Hover Hbig Hdrop s1 s2.
  assert (fetch_iter conf s = fetch_done conf s1 m) as Hiter.
  { unfold fetch_iter. by rewrite Hfetch, Hover, Hbig. }
  assert (f_done (a_fetch (fs_account s)) = None →
          fetch_done conf s1 m = fetch_purge conf s1) as Hnone.
  { intros Hd. unfold fetch_done. cbn [s1 fs_account fs_with_log fs_call
      account_call a_fetch]. by rewrite Hd. }
  assert (∀ done, f_done (a_fetch (fs_account s)) = Some done →
          fetch_done conf s1 m
          = if negb (bool_decide (done (a_data (fs_account s1)) DECISION_DROP
                                  = FETCH_SUCCESS))
            then F_out s2 else fetch_purge conf (fs_with_cause None s2))
    as Hsome.
  { intros done Hd. unfold fetch_done. cbn [s1 fs_account fs_with_log fs_call
      account_call a_fetch]. by rewrite Hd, Hdrop. }
  split; [exact Hiter|]. split; [|split].
  - intros Hd. by rewrite Hiter, Hnone.
  - intros done Hd. rewrite Hiter, (Hsome _ Hd). split.
    + intros Hok. by rewrite bool_decide_eq_true_2.
    + intros Hfail. by rewrite bool_decide_eq_false_2.
  - assert (∀ s', fetch_iter conf s = F_next s' →
                  ∀ fuel, fetch_loop conf (S fuel) s = fetch_loop conf fuel s')
      as Hloop.
    { intros s' Hs' fuel. cbn [fetch_loop]. by rewrite Hs'. }
    destruct (f_done (a_fetch (fs_account s))) as [done|] eqn:Hd.
    + rewrite Hiter, (Hsome _ eq_refl) in Hloop |- *.
      destruct (negb (bool_decide _)).
      * exists s2. split; [right; split; [done|by left]|done].
      * destruct (fetch_purge_counts (fs_with_cause None s2))
          as (s' & Hp & Hdr & Hk & Hio).
        exists s'. split; [|done].
        destruct Hp as [Hp|[Hp Hc]]; [left|right]; rewrite Hp; [|by auto].
        split; [done|]. apply Hloop. by rewrite Hp.
    + rewrite Hiter, (Hnone eq_refl) in Hloop |- *.
      destruct (fetch_purge_counts s1) as (s' & Hp & Hdr & Hk & Hio).
      exists s'. split; [|done].
      destruct Hp as [Hp|[Hp Hc]]; [left|right]; rewrite Hp; [|by auto].
      split; [done|]. apply Hloop. by rewrite Hp.
Qed.

End FetchProps.

Lemma fetch_oversize_witness :
  fetch_iter (sample_conf [] DECISION_KEEP false true) big_state
  = fetch_purge (sample_conf [] DECISION_KEEP false true)
      (FState empty_io
         (account_call (C_done DECISION_DROP) (account_call C_fetch big_account))
         None
         [(LOG_WARN, L_too_big 9999); (LOG_DEBUG, L_deleting)] 0 1 0).
Proof.
  destruct (fetch_oversize (sample_conf [] DECISION_KEEP false true) big_state
              (λ calls m,
                 match calls with
                 | [] => (FETCH_OVERSIZE, Mail [] 9999 (-1) (m_decision m) ∅ [])
                 | _ => (FETCH_COMPLETE, m)
                 end)
              (Mail [] 9999 (-1) DECISION_DROP ∅ []))
    as (_ & _ & Hdone & _).
  - reflexivity.
  - reflexivity.
  - reflexivity.
  - reflexivity.
  - destruct (Hdone (λ _ _, FETCH_SUCCESS) eq_refl) as [Hok _].
    exact (Hok eq_refl).
Defined.

(** C7 as the design document has it fails with a backend that has a
    completion hook: the oversized mail is counted as dropped. *)
Lemma fetch_oversize_counterexample :
  ¬ (∀ conf s fetch_fn m,
       f_fetch (a_fetch (fs_account s)) = Some fetch_fn →
       fetch_fn (a_data (fs_account s)) fresh_mail = (FETCH_OVERSIZE, m) →
       conf_del_big conf = true →
       ∃ s', fetch_iter (L := sample_lib) conf s = F_next s'
         ∧ fs_kept s' = fs_kept s
         ∧ fs_dropped s' = fs_dropped s).
Proof.
  intros Hclaim.
  destruct (Hclaim (sample_conf [] DECISION_KEEP false true) big_state
              _ _ eq_refl eq_refl eq_refl) as (s' & Hiter & _ & Hdropped).
  vm_compute in Hiter. injection Hiter as <-.
  vm_compute in Hdropped. discriminate.
Qed.

(** The run on that backend: the oversized mail is reported to the
    backend as dropped, the loop goes on to the end of the input, and the
    summary counts one mail, none kept. *)
Example fetch_account_oversize :
  ∃ s', fetch_account (sample_conf [] DECISION_KEEP false true) 2
          empty_io big_account [] = Some (inl (0, s'))
    ∧ a_data (fs_account s') = [C_fetch; C_done DECISION_DROP; C_fetch]
    ∧ fs_dropped s' = 1 ∧ fs_kept s' = 0
    ∧ last (fs_log s') = Some (LOG_INFO, L_processed_kept 1 0).
Proof. eexists. vm_compute. done. Qed.

(** ** More properties of the code *)

(** *** What a computation leaves alone *)

Lemma preserves_ret {A X} (proj : state → X) (a : A) : preserves proj (ret a).
Proof. intros st a' st' [= _ <-]. done. Qed.

Lemma preserves_gets {A X} (proj : state → X) (f : state → A) :
  preserves proj (gets f).
Proof. intros st a' st' [= _ <-]. done. Qed.

Lemma preserves_fatalx {A X} (proj : state → X) why :
  preserves proj (@fatalx A why).
Proof. intros st a' st' [=]. Qed.

Lemma preserves_bind {A B X} (proj : state → X) (m : M A) (k : A → M B) :
  preserves proj m → (∀ a, preserves proj (k a)) → preserves proj (bind m k).
Proof.
  intros Hm Hk st b st' (a & s1 & Hma & Hkb)%bind_Ok.
  rewrite (Hk _ _ _ _ Hkb). exact (Hm _ _ _ Hma).
Qed.

Lemma preserves_modify {X} (proj : state → X) (f : state → state) :
  (∀ st, proj (f st) = proj st) → preserves proj (modify f).
Proof. intros Hf st a' st' [= _ <-]. apply Hf. Qed.

(** One step of a proof that a computation leaves a component alone;
    a [modify] that changes the component is left to the caller. *)
Ltac preserves_step :=
  match goal with
  | |- preserves _ (bind _ _) => apply preserves_bind; [| intros ?]
  | |- preserves _ (ret _) => apply preserves_ret
  | |- preserves _ (gets _) => apply preserves_gets
  | |- preserves _ (fatalx _) => apply preserves_fatalx
  | |- preserves _ (log_debug _) => apply preserves_modify; reflexivity
  | |- preserves _ (log_debug2 _) => apply preserves_modify; reflexivity
  | |- preserves _ (log_warnx _) => apply preserves_modify; reflexivity
  | |- preserves _ (modify _) => apply preserves_modify; reflexivity
  | |- preserves _ (if ?b then _ else _) => destruct b
  | |- preserves _ (match ?x with _ => _ end) => destruct x
  end.

Ltac preservation := repeat preserves_step; eauto.

(** *** The lines of the evaluator *)

Section ExprLines.

Implicit Types (items : list expritem) (st : state) (fres : bool).

Lemma do_expr_loop_lines items : ∀ fres st,
  Forall (λ ei, ei_match ei (st_mctx st) ≠ MATCH_ERROR) items →
  do_expr_loop items fres st
  = Ok (Z.b2z (fold_left (fold_item (st_mctx st)) items fres))
       (State (st_mctx st) (st_cause st)
          (st_log st ++ map (expr_line (st_mctx st)) items)).
Proof.
  induction items as [|ei items IH]; intros fres st Hall.
  - destruct st. cbn. by rewrite app_nil_r.
  - inversion Hall as [|? ? Hei Hrest]; subst.
    rewrite do_expr_loop_cons by done. rewrite IH by done.
    cbn. by rewrite <- app_assoc.
Qed.

Lemma do_expr_loop_stops pre : ∀ ei post fres st,
  Forall (λ ei, ei_match ei (st_mctx st) ≠ MATCH_ERROR) pre →
  ei_match ei (st_mctx st) = MATCH_ERROR →
  do_expr_loop (pre ++ ei :: post) fres st
  = Ok (-1) (State (st_mctx st) (st_cause st)
               (st_log st ++ map (expr_line (st_mctx st)) pre)).
Proof.
  induction pre as [|ei' pre IH]; intros ei post fres st Hall Herr.
  - cbn [app]. rewrite do_expr_loop_error_head by done.
    destruct st. cbn. by rewrite app_nil_r.
  - inversion Hall as [|? ? Hei Hrest]; subst.
    rewrite <- app_comm_cons, do_expr_loop_cons by done.
    rewrite IH by done. cbn. by rewrite <- app_assoc.
Qed.

(** From [false], a fold of items that all carry [OP_AND] stays
    [false]. *)
Lemma fold_item_all_and c items :
  Forall (λ ei, ei_op ei = OP_AND) items →
  fold_left (fold_item c) items false = false.
Proof.
  induction 1 as [|ei items Hop _ IH]; [done|].
  cbn [fold_left]. by rewrite fold_item_and_seed.
Qed.

(** The evaluator does not short-cut: without an error it logs one line
    for every item, in order, whatever the accumulator is; with an
    error, it logs the lines of the items before the first one that
    fails and returns [-1]. *)
Theorem do_expr_lines (r : rule) st :
  let c := st_mctx st in
  (Forall (λ ei, ei_match ei c ≠ MATCH_ERROR) (r_expr r) →
   ∃ v, do_expr r st
        = Ok v (State c (st_cause st) (st_log st ++ map (expr_line c) (r_expr r))))
  ∧ (∀ pre ei post,
       r_expr r = pre ++ ei :: post →
       Forall (λ ei, ei_match ei c ≠ MATCH_ERROR) pre →
       ei_match ei c = MATCH_ERROR →
       do_expr r st
       = Ok (-1) (State c (st_cause st) (st_log st ++ map (expr_line c) pre))).
Proof.
  intros c. unfold do_expr. split.
  - intros Hall. eexists. by apply do_expr_loop_lines.
  - intros pre ei post -> Hpre Herr. by apply do_expr_loop_stops.
Qed.

End ExprLines.

(** The evaluator on [true OR true AND error]: the first item does not
    decide, the third is evaluated and the evaluation fails. *)
Example do_expr_no_shortcut :
  ∃ st', do_expr (expr_rule [always MATCH_TRUE false OP_NONE;
                             always MATCH_TRUE false OP_OR;
                             always MATCH_ERROR false OP_AND])
                 (bob_state mail_zero) = Ok (-1) st'
    ∧ List.length (st_log st') = 2%nat.
Proof. eexists. vm_compute. done. Qed.

(** *** What every result of a computation satisfies *)

Lemma ensures_ret {A} (a : A) st (Q : A → state → Prop) :
  Q a st → ensures (ret a) st Q.
Proof. intros HQ a' st' [= <- <-]. done. Qed.

Lemma ensures_gets {A} (f : state → A) st (Q : A → state → Prop) :
  Q (f st) st → ensures (gets f) st Q.
Proof. intros HQ a' st' [= <- <-]. done. Qed.

Lemma ensures_modify f st (Q : unit → state → Prop) :
  Q tt (f st) → ensures (modify f) st Q.
Proof. intros HQ a' st' [= <- <-]. done. Qed.

Lemma ensures_fatalx {A} why st (Q : A → state → Prop) :
  ensures (fatalx why) st Q.
Proof. intros a' st' [=]. Qed.

Lemma ensures_bind {A B} (m : M A) (k : A → M B) st (Q : B → state → Prop) :
  ensures m st (λ a s1, ensures (k a) s1 Q) → ensures (bind m k) st Q.
Proof.
  intros Hm b st' (a & s1 & Hma & Hkb)%bind_Ok. exact (Hm _ _ Hma _ _ Hkb).
Qed.

Lemma ensures_preserved {A B X} (proj : state → X) (m : M A) (k : A → M B)
    st (Q : B → state → Prop) :
  preserves proj m →
  (∀ a s1, proj s1 = proj st → ensures (k a) s1 Q) →
  ensures (bind m k) st Q.
Proof.
  intros Hm Hk. apply ensures_bind. intros a s1 Hma.
  apply Hk. exact (Hm _ _ _ Hma).
Qed.

Lemma ensures_preserves {A X} (proj : state → X) (m : M A) st :
  preserves proj m → ensures m st (λ _ st', proj st' = proj st).
Proof. intros Hm a st' Hma. exact (Hm _ _ _ Hma). Qed.

(** What the evaluator, the tags, the exchanges with the parent and the
    deliveries leave alone: every component of the state that does not
    depend on the mail, on the log or on the channel. *)
Section Untouched.

Context {L : Lib}.
Variable conf : config.
Context {X : Type} (proj : state → X).
Hypothesis proj_mail : ∀ f st, proj (with_mail f st) = proj st.
Hypothesis proj_log : ∀ l st, proj (with_log l st) = proj st.
Hypothesis proj_io : ∀ i st, proj (with_mctx (mctx_with_io i) st) = proj st.

Ltac untouched_step :=
  first
    [ preserves_step
    | apply preserves_modify; intros;
      first [apply proj_mail | apply proj_log | apply proj_io] ].

Ltac untouched := repeat untouched_step; eauto.

Lemma untouched_do_expr_loop items : ∀ fres,
  preserves proj (do_expr_loop items fres).
Proof using proj_log.
  induction items as [|ei items IH]; intros fres; cbn; untouched.
Qed.

Lemma untouched_do_expr r : preserves proj (do_expr r).
Proof using proj_log. apply untouched_do_expr_loop. Qed.

Lemma untouched_rule_tag r : preserves proj (rule_tag r).
Proof using proj_log proj_mail. unfold rule_tag. untouched. Qed.

Lemma untouched_do_action_user a t uid : preserves proj (do_action_user a t uid).
Proof using proj_log proj_mail proj_io. unfold do_action_user. untouched. Qed.

Lemma untouched_do_action_loop a t users :
  preserves proj (do_action_loop a t users).
Proof using proj_log proj_mail proj_io.
  induction users as [|uid users IH]; cbn; untouched.
  apply untouched_do_action_user.
Qed.

Lemma untouched_do_action r t : preserves proj (do_action conf r t).
Proof using proj_log proj_mail proj_io.
  unfold do_action. untouched; apply untouched_do_action_loop.
Qed.

Lemma untouched_do_deliver_actions r ta :
  preserves proj (do_deliver_actions conf r ta).
Proof using proj_log proj_mail proj_io.
  induction ta as [|t ta IH]; cbn; untouched. apply untouched_do_action.
Qed.

Lemma untouched_do_deliver_loop r actions :
  preserves proj (do_deliver_loop conf r actions).
Proof using proj_log proj_mail proj_io.
  induction actions as [|rs actions IH]; cbn; untouched.
  apply untouched_do_deliver_actions.
Qed.

Lemma untouched_do_deliver r : preserves proj (do_deliver conf r).
Proof using proj_log proj_mail proj_io.
  unfold do_deliver. untouched. apply untouched_do_deliver_loop.
Qed.

End Untouched.

(** *** The account, the cause and the result of the rules *)

Section MoreEngine.

Context {L : Lib}.
Variable conf : config.

Implicit Types (r : rule) (st : state).

Lemma rule_match_outcome r st :
  ensures (rule_match r) st (λ x s1,
    st_account s1 = st_account st
    ∧ match x with
      | Some (Return c) => c = 1 ∧ st_cause s1 = Some "matching"
      | _ => st_cause s1 = st_cause st
      end).
Proof.
  unfold rule_match. destruct (r_type r); [|by apply ensures_ret].
  apply ensures_bind, ensures_modify.
  apply (ensures_preserved (λ s, (st_account s, st_cause s)));
    [by apply untouched_do_expr|].
  intros error s1 [= Ha Hc]. destruct (error =? -1).
  - apply ensures_bind, ensures_modify, ensures_ret. by split.
  - destruct (error =? 0); by apply ensures_ret.
Qed.

Lemma rule_deliver_outcome r st :
  ensures (rule_deliver conf r) st (λ f s1,
    st_account s1 = st_account st
    ∧ match f with
      | Next => st_cause s1 = st_cause st
      | Return c => c = 1 ∧ st_cause s1 = Some "delivery"
      end).
Proof.
  unfold rule_deliver. destruct (r_actions r); [|by apply ensures_ret].
  apply ensures_bind, ensures_modify, ensures_bind, ensures_modify.
  apply (ensures_preserved (λ s, (st_account s, st_cause s)));
    [by apply untouched_do_deliver|].
  intros c s1 [= Ha Hc]. destruct (negb (c =? 0)).
  - apply ensures_bind, ensures_modify, ensures_ret. by split.
  - by apply ensures_ret.
Qed.

Lemma rule_enter_outcome r st :
  ensures (rule_enter conf r) st (λ f s1,
    st_account s1 = st_account st
    ∧ match f with
      | Next => st_cause s1 = st_cause st
      | Return c => c = 1 ∧ st_cause s1 = Some "delivery"
      end).
Proof.
  unfold rule_enter.
  apply ensures_bind, ensures_modify, ensures_bind, ensures_modify.
  apply (ensures_preserved (λ s, (st_account s, st_cause s)));
    [by apply untouched_rule_tag|].
  intros [] s1 [= Ha Hc] f s2 Hrun.
  change (st_account s1 = st_account st) in Ha.
  change (st_cause s1 = st_cause st) in Hc.
  destruct (rule_deliver_outcome _ _ _ _ Hrun) as [Ha2 Hf].
  split; [congruence|]. destruct f; [congruence|].
  destruct Hf. split; [done|congruence].
Qed.

Lemma do_rules_outcome rules :
  Forall (λ r, ∀ st f st', do_rule conf r st = Ok f st' → rule_outcome st f st')
         rules →
  ∀ st c st', do_rules conf rules st = Ok c st' → rule_outcome st (Return c) st'.
Proof.
  induction 1 as [|r rules Hr _ IH]; intros st c st' Hrun.
  - injection Hrun as <- <-. split; [done|]. by left.
  - rewrite do_rules_cons in Hrun.
    destruct (do_rule conf r st) as [[|c'] s1|] eqn:Hrule; [| |done].
    + destruct (Hr _ _ _ Hrule) as [Ha Hc].
      destruct (IH _ _ _ Hrun) as [Ha' Hc'].
      split; [congruence|]. cbn in Hc.
      destruct Hc' as [[-> Hc']|[-> Hc']]; [left|right]; split; congruence.
    + injection Hrun as <- <-. exact (Hr _ _ _ Hrule).
Qed.

Lemma do_rule_outcome r : ∀ st f st',
  do_rule conf r st = Ok f st' → rule_outcome st f st'.
Proof.
  induction r as [r IH] using rule_ind'. intros st f st' Hrun.
  rewrite do_rule_cases in Hrun.
  destruct (rule_not_for r (st_account st)).
  { injection Hrun as <- <-. by split. }
  destruct (rule_match r st) as [x s1|] eqn:Hmatch; [|done].
  destruct (rule_match_outcome _ _ _ _ Hmatch) as [Ha1 Hc1].
  destruct x as [f1|].
  { injection Hrun as <- <-. split; [done|].
    destruct f1 as [|c]; [done|]. right. destruct Hc1. by auto. }
  rewrite rule_matched_cases in Hrun.
  destruct (rule_enter conf r s1) as [f4 s4|] eqn:Henter; [|done].
  destruct (rule_enter_outcome _ _ _ _ Henter) as [Ha4 Hc4].
  destruct f4 as [|c4].
  2:{ injection Hrun as <- <-. split; [congruence|].
      right. destruct Hc4. by auto. }
  assert (∀ s, st_account s = st_account st → st_cause s = st_cause st →
               rule_stop r s = Ok f st' → rule_outcome st f st') as Hstop.
  { intros s Ha Hc. rewrite rule_stop_cases.
    destruct (r_stop r); intros [= <- <-]; (split; [done|]); [by left|done]. }
  rewrite rule_leave_cases in Hrun.
  destruct (negb (ARRAY_EMPTY (r_rules r))).
  2:{ apply (Hstop s4); congruence. }
  destruct (do_rules conf (r_rules r) (with_log (LOG_DEBUG2, L_enter_nested) s4))
    as [c s5|] eqn:Hnested; [|done].
  destruct (do_rules_outcome _ IH _ _ _ Hnested) as [Ha5 Hc5].
  change (st_account s5 = st_account s4) in Ha5.
  rewrite rule_nested_exit_cases in Hrun.
  destruct Hc5 as [[-> Hc5]|[-> Hc5]]; cbn [Z.eqb negb] in Hrun.
  - change (st_cause s5 = st_cause s4) in Hc5.
    destruct (st_stopped s5).
    + injection Hrun as <- <-. split.
      * change (st_account s5 = st_account st). congruence.
      * left. split; [done|]. change (st_cause s5 = st_cause st). congruence.
    + apply (Hstop (with_log (LOG_DEBUG2, L_exit_nested false) s5)); [| |done].
      * change (st_account s5 = st_account st). congruence.
      * change (st_cause s5 = st_cause st). congruence.
  - injection Hrun as <- <-. split; [congruence|]. by right.
Qed.

(** A run of the rules never changes the account.  It returns [0] with
    [cause] as it was, or [1] with [cause] set to "matching" or to
    "delivery"; it returns nothing else. *)
Theorem do_rules_cause rules st c st' :
  do_rules conf rules st = Ok c st' →
  st_account st' = st_account st
  ∧ ((c = 0 ∧ st_cause st' = st_cause st)
     ∨ (c = 1 ∧ (st_cause st' = Some "matching"
                 ∨ st_cause st' = Some "delivery"))).
Proof.
  apply do_rules_outcome. apply Forall_forall. intros r _.
  apply do_rule_outcome.
Qed.

End MoreEngine.

Lemma do_rules_cause_witness :
  ∃ st', do_rules (sample_conf [] DECISION_KEEP false false)
           [all_rule 1 true []] (bob_state mail_zero) = Ok 0 st'
    ∧ st_cause st' = None.
Proof.
  eexists. split; [reflexivity|].
  destruct (do_rules_cause (sample_conf [] DECISION_KEEP false false)
              [all_rule 1 true []] (bob_state mail_zero) 0 _ eq_refl)
    as [_ [[_ Hcause]|[Hone _]]]; [exact Hcause | discriminate Hone].
Defined.

(** *** Runs of the rules that return [0] *)

Section MoreStop.

Context {L : Lib}.
Variable conf : config.

(** In a run of the rules that began with [stopped] unset and returns
    [0], [stopped] is unset at the end exactly when the loop has run off
    the end of the list: a [return (0)] from inside the loop always
    comes with [stopped] set. *)
Theorem do_rules_exhausted rules st st' :
  do_rules conf rules st = Ok 0 st' →
  st_stopped st = false →
  st_stopped st' = false ↔ exhausts conf rules st st'.
Proof.
  intros Hrun Hst. split.
  - intros Hst'. destruct (do_rules_zero _ _ _ _ Hrun) as [Hex|Htrue]; [done|].
    congruence.
  - intros Hex. apply exhausts_run in Hex as [_ Heq]. congruence.
Qed.

End MoreStop.

Lemma do_rules_exhausted_witness :
  exhausts (sample_conf [] DECISION_KEEP false false)
    [all_rule 1 false []; all_rule 2 false []] (bob_state mail_zero)
    (State (bob_ctx (set_wrapped NL (set_wrapped NL mail_zero))) None
       [(LOG_DEBUG, L_matched 1 false); (LOG_DEBUG, L_matched 2 false)]).
Proof.
  apply (do_rules_exhausted (sample_conf [] DECISION_KEEP false false)
           [all_rule 1 false []; all_rule 2 false []] (bob_state mail_zero));
    reflexivity.
Defined.

(** *** Deliveries in the child *)

Section InChild.

Context {L : Lib}.
Variable conf : config.
Hypothesis all_in_child : ∀ s, Forall in_child (match_actions s).

Implicit Types (r : rule) (t : action) (st : state).

Lemma in_child_do_action r t :
  in_child t → total (do_action conf r t) ∧ preserves st_io (do_action conf r t).
Proof.
  intros Hin. unfold do_action.
  destruct (d_deliver (t_deliver t)) as [fn|] eqn:Hfn.
  2:{ split; [totality | preservation]. }
  destruct Hin as [Hnone|Htype]; [congruence|].
  rewrite Htype, bool_decide_eq_true_2 by done. split.
  - totality.
  - preservation.
Qed.

Lemma in_child_do_deliver_actions r ta :
  Forall in_child ta →
  total (do_deliver_actions conf r ta)
  ∧ preserves st_io (do_deliver_actions conf r ta).
Proof.
  induction 1 as [|t ta Ht _ [IHt IHp]]; cbn [do_deliver_actions].
  - split; [totality | preservation].
  - destruct (in_child_do_action r t Ht) as [Htot Hpre].
    split; [totality | preservation].
Qed.

Lemma in_child_do_deliver_loop r actions :
  total (do_deliver_loop conf r actions)
  ∧ preserves st_io (do_deliver_loop conf r actions).
Proof using all_in_child.
  induction actions as [|rs actions [IHt IHp]]; cbn [do_deliver_loop].
  - split; [totality | preservation].
  - split.
    + totality.
      apply (in_child_do_deliver_actions r _ (all_in_child _)).
    + preservation.
      apply (in_child_do_deliver_actions r _ (all_in_child _)).
Qed.

Lemma in_child_do_deliver r :
  total (do_deliver conf r) ∧ preserves st_io (do_deliver conf r).
Proof using all_in_child.
  unfold do_deliver. destruct (r_actions r) as [actions|].
  - apply in_child_do_deliver_loop.
  - split; [totality | preservation].
Qed.

Lemma in_child_rule_body r nested :
  r_type r = RULE_ALL →
  total nested → preserves st_io nested →
  total (rule_body conf r nested) ∧ preserves st_io (rule_body conf r nested).
Proof using all_in_child.
  intros Htype Htot Hpre.
  unfold rule_body, rule_matched, rule_enter, rule_leave, rule_nested_exit,
    rule_stop, rule_match, rule_tag, rule_deliver.
  rewrite Htype.
  split.
  - totality; apply in_child_do_deliver.
  - preservation; apply in_child_do_deliver.
Qed.

Lemma in_child_do_rules rules :
  Forall (λ r, total (do_rule conf r) ∧ preserves st_io (do_rule conf r)) rules →
  total (do_rules conf rules) ∧ preserves st_io (do_rules conf rules).
Proof.
  induction 1 as [|r rules [Ht Hp] _ [IHt IHp]]; cbn [do_rules].
  - split; [totality | preservation].
  - split; [totality | preservation].
Qed.

Lemma Forall_forallb {A} (f : A → bool) (P : A → Prop) (l : list A) :
  Forall (λ x, f x = true → P x) l → forallb f l = true → Forall P l.
Proof.
  induction 1 as [|x l Hx _ IH]; cbn [forallb]; [by constructor|].
  intros [Hfx Hl]%andb_true_iff. constructor; auto.
Qed.

Lemma in_child_do_rule r :
  rule_all_only r = true →
  total (do_rule conf r) ∧ preserves st_io (do_rule conf r).
Proof using all_in_child.
  induction r as [r IH] using rule_ind'. intros Hall.
  rewrite do_rule_eq.
  destruct r as [idx aa ty ex k v acts stop fu us rules].
  cbn [r_rules] in *. cbn [rule_all_only] in Hall.
  destruct ty; [discriminate|].
  destruct (in_child_do_rules rules) as [Ht Hp].
  { by apply (Forall_forallb rule_all_only). }
  by apply in_child_rule_body.
Qed.

(** When every action that a name can match is run in the child, or has
    no deliverer:
    - the delivery of a rule, whatever the rule, reaches none of the
      [fatalx] of [do_action] and leaves the channel to the parent as it
      was: nothing is written to it and nothing is read from it;
    - so does a run of rules that have no expression at any depth, in
      which no match primitive is called. *)
Theorem do_rules_in_child :
  (∀ r st, ∃ c st', do_deliver conf r st = Ok c st' ∧ st_io st' = st_io st)
  ∧ (∀ rules st,
       forallb rule_all_only rules = true →
       ∃ c st', do_rules conf rules st = Ok c st' ∧ st_io st' = st_io st).
Proof using all_in_child.
  split.
  - intros r st. destruct (in_child_do_deliver r) as [Ht Hp].
    destruct (Ht st) as (c & st' & Hrun).
    exists c, st'. split; [done|]. exact (Hp _ _ _ Hrun).
  - intros rules st Hall. destruct (in_child_do_rules rules) as [Ht Hp].
    { apply (Forall_forallb rule_all_only); [|done].
      apply Forall_forall. intros r _. apply in_child_do_rule. }
    destruct (Ht st) as (c & st' & Hrun).
    exists c, st'. split; [done|]. exact (Hp _ _ _ Hrun).
Qed.

End InChild.

Lemma do_rules_in_child_witness :
  ∃ c st', do_rules (L := inchild_lib) (sample_conf [] DECISION_KEEP false false)
             [deliver_rule ["keep"]] (bob_state mail_hello) = Ok c st'
    ∧ st_io st' = empty_io.
Proof.
  destruct (do_rules_in_child (L := inchild_lib)
              (sample_conf [] DECISION_KEEP false false)) as [_ Hrules].
  - intros s. cbn. destruct (bool_decide _); repeat constructor;
      right; reflexivity.
  - apply Hrules. reflexivity.
Defined.

(** *** The exchanges of an action *)

Section MoreAction.

Context {L : Lib}.
Variable conf : config.

Implicit Types (r : rule) (t : action) (a : account) (st : state).

(** An explicit list of users that is empty is used as it is: the
    action is tagged, no request goes to the parent, the default user is
    not used, and [do_action] returns [0]. *)
Theorem do_action_no_user r t fn st :
  d_deliver (t_deliver t) = Some fn →
  d_type (t_deliver t) ≠ DELIVER_INCHILD →
  first_applicable
    (identity_providers r t (st_account st) (st_mail (action_tagged t st)))
  = Some [] →
  do_action conf r t st = Ok 0 (action_tagged t st).
Proof.
  intros Hfn Htype Hfirst.
  rewrite (do_action_out _ _ _ _ _ Hfn Htype), do_action_users_resolved.
  unfold resolved_identity. by rewrite Hfirst.
Qed.

(** A breach of the protocol by the parent ends the process, for the
    first user as for any other: a channel that is closed or takes no
    write, a read that fails, a reply that is not a completion reply, a
    completion reply without tags.  The type of the reply is looked at
    before its buffer. *)
Theorem do_action_protocol a t uid users st :
  (io_peer (st_io st) = [] →
   do_action_loop a t (uid :: users) st = Fatal "child: privsep_send error")
  ∧ (∀ p rest, io_peer (st_io st) = p :: rest →
       (ps_send_ok p = false →
        do_action_loop a t (uid :: users) st = Fatal "child: privsep_send error")
       ∧ (ps_send_ok p = true → ps_reply p = None →
          do_action_loop a t (uid :: users) st
          = Fatal "child: privsep_recv error")
       ∧ (∀ h' buf, ps_send_ok p = true → ps_reply p = Some (h', buf) →
            msg_type h' ≠ MSG_DONE →
            do_action_loop a t (uid :: users) st
            = Fatal "child: unexpected message")
       ∧ (∀ h', ps_send_ok p = true → ps_reply p = Some (h', None) →
            msg_type h' = MSG_DONE →
            do_action_loop a t (uid :: users) st = Fatal "child: bad tags")).
Proof.
  rewrite do_action_loop_cons. split.
  - intros Hpeer. by rewrite do_action_user_no_peer.
  - intros p rest Hpeer. split; [|split; [|split]].
    + intros Hsend. by rewrite (do_action_user_send_fails _ _ _ _ _ _ Hpeer).
    + intros Hsend Hreply.
      by rewrite (do_action_user_recv_fails _ _ _ _ _ _ Hpeer).
    + intros h' buf Hsend Hreply Htype.
      rewrite (do_action_user_reply _ _ _ _ _ _ _ _ Hpeer Hsend Hreply).
      by rewrite bool_decide_eq_false_2.
    + intros h' Hsend Hreply Htype.
      rewrite (do_action_user_reply _ _ _ _ _ _ _ _ Hpeer Hsend Hreply).
      by rewrite bool_decide_eq_true_2.
Qed.

Lemma do_action_user_content a t uid st f st' :
  d_type (t_deliver t) ≠ DELIVER_WRBACK →
  do_action_user a t uid st = Ok f st' →
  mail_content (st_mail st') = mail_content (st_mail st)
  ∧ st_log st' = st_log st.
Proof.
  intros Htype.
  destruct (io_peer (st_io st)) as [|p rest] eqn:Hpeer.
  { by rewrite do_action_user_no_peer. }
  destruct (ps_send_ok p) eqn:Hsend.
  2:{ by rewrite (do_action_user_send_fails _ _ _ _ _ _ Hpeer Hsend). }
  destruct (ps_reply p) as [[h' buf]|] eqn:Hreply.
  2:{ by rewrite (do_action_user_recv_fails _ _ _ _ _ _ Hpeer Hsend Hreply). }
  rewrite (do_action_user_reply _ _ _ _ _ _ _ _ Hpeer Hsend Hreply).
  destruct (negb (bool_decide _)); [done|].
  destruct buf as [tags|]; [|done]. cbv zeta.
  destruct (negb (msg_error h' =? 0)); [by intros [= <- <-]|].
  rewrite bool_decide_eq_false_2 by done. cbn [negb].
  destruct (_ || _); [done|]. by intros [= <- <-].
Qed.

(** An action that the parent runs and that is not a write-back changes
    nothing of the mail in the child but its tags, whatever the parent
    answers and however many users it is run for, and logs nothing. *)
Theorem do_action_content a t users : ∀ st c st',
  d_type (t_deliver t) ≠ DELIVER_WRBACK →
  do_action_loop a t users st = Ok c st' →
  mail_content (st_mail st') = mail_content (st_mail st)
  ∧ st_log st' = st_log st.
Proof.
  induction users as [|uid users IH]; intros st c st' Htype Hrun.
  - by injection Hrun as <- <-.
  - rewrite do_action_loop_cons in Hrun.
    destruct (do_action_user a t uid st) as [f s1|] eqn:Huser; [|done].
    destruct (do_action_user_content _ _ _ _ _ _ Htype Huser) as [Hm Hl].
    destruct f as [|c1].
    + destruct (IH _ _ _ Htype Hrun) as [Hm' Hl']. split; congruence.
    + by injection Hrun as <- <-.
Qed.

End MoreAction.

Lemma do_action_no_user_witness :
  do_action (sample_conf [] DECISION_KEEP false false)
    (users_rule false (Some [])) file_action (bob_state mail_hello)
  = Ok 0 (action_tagged file_action (bob_state mail_hello)).
Proof.
  apply (do_action_no_user (sample_conf [] DECISION_KEEP false false)
           (users_rule false (Some [])) file_action
           (λ d, (DELIVER_SUCCESS, dctx_mail d)) (bob_state mail_hello)).
  - reflexivity.
  - discriminate.
  - reflexivity.
Defined.

Lemma do_action_content_witness :
  ∃ c st', do_action_loop bob file_action [7; 8] two_replies = Ok c st'
    ∧ mail_content (st_mail st') = mail_content mail_hello.
Proof.
  eexists _, _. split; [reflexivity|].
  exact (proj1 (do_action_content bob file_action [7; 8] two_replies _ _
                  ltac:(discriminate) eq_refl)).
Defined.

(** *** Expressions that cannot match *)

Section MoreRules.

Context {L : Lib}.
Variable conf : config.

Implicit Types (r : rule) (t : action) (st : state).

(** An expression whose items all carry [OP_AND], the empty expression
    among them, never matches: the accumulator starts from [false].  The
    rule is passed over, without a tag, a delivery or a stop, and
    [do_rules] goes on with the rules after it. *)
Theorem do_rule_and_only r rest st :
  r_type r = RULE_EXPRESSION →
  Forall (λ ei, ei_op ei = OP_AND) (r_expr r) →
  Forall (λ ei, ei_match ei (st_mctx (with_mail (set_wrapped SP) st))
                ≠ MATCH_ERROR) (r_expr r) →
  ∃ st1, do_rule conf r st = Ok Next st1
    ∧ do_rules conf (r :: rest) st = do_rules conf rest st1
    ∧ m_tags (st_mail st1) = m_tags (st_mail st)
    ∧ st_io st1 = st_io st
    ∧ st_matched st1 = st_matched st
    ∧ st_stopped st1 = st_stopped st.
Proof.
  intros Htype Hand Hnoerr.
  assert (∃ st1, do_rule conf r st = Ok Next st1
            ∧ m_tags (st_mail st1) = m_tags (st_mail st)
            ∧ st_io st1 = st_io st
            ∧ st_matched st1 = st_matched st
            ∧ st_stopped st1 = st_stopped st) as (st1 & Hrule & Hrest).
  { rewrite do_rule_cases.
    destruct (rule_not_for r (st_account st)); [by exists st|].
    unfold rule_match. rewrite Htype, bind_modify.
    unfold do_expr, bind. rewrite do_expr_loop_lines by done.
    rewrite fold_item_all_and by done. cbn. by eexists. }
  exists st1. split; [done|]. split; [|done].
  by rewrite do_rules_cons, Hrule.
Qed.

(** *** An action that fails *)

Lemma do_deliver_actions_cons r t ta st :
  do_deliver_actions conf r (t :: ta) st =
  match do_action conf r t (with_log (LOG_DEBUG2, L_action (t_name t)) st) with
  | Ok c s1 => if negb (c =? 0) then Ok 1 s1 else do_deliver_actions conf r ta s1
  | Fatal why => Fatal why
  end.
Proof.
  cbn [do_deliver_actions]. unfold log_debug2. rewrite bind_log. unfold bind.
  destruct (do_action _ _ _ _) as [c s1|]; [|done].
  by destruct (negb (c =? 0)).
Qed.

Lemma do_deliver_actions_app r pre post : ∀ st,
  do_deliver_actions conf r (pre ++ post) st =
  match do_deliver_actions conf r pre st with
  | Ok c s1 =>
      if negb (c =? 0) then Ok 1 s1 else do_deliver_actions conf r post s1
  | Fatal why => Fatal why
  end.
Proof.
  induction pre as [|t pre IH]; intros st; [done|].
  rewrite <- app_comm_cons, !do_deliver_actions_cons.
  destruct (do_action _ _ _ _) as [c s1|]; [|done].
  destruct (negb (c =? 0)); [done|]. apply IH.
Qed.

(** When an action fails, the delivery is over: the actions that the
    same name matches after it are not run, the names after it are not
    looked at, and [do_deliver] returns [1] in the state the failed
    action left. *)
Theorem do_deliver_abort r rs st pre t post st1 c s2 :
  let s := replacestr rs (m_tags (st_mail st)) (st_mail st) in
  match_actions s = pre ++ t :: post →
  do_deliver_actions conf r pre
    (with_log (LOG_DEBUG2, L_found (ARRAY_LENGTH (pre ++ t :: post)))
       (with_log (LOG_DEBUG2, L_looking s) st)) = Ok 0 st1 →
  do_action conf r t (with_log (LOG_DEBUG2, L_action (t_name t)) st1)
  = Ok c s2 →
  c ≠ 0 →
  ∀ rest, do_deliver_loop conf r (rs :: rest) st = Ok 1 s2.
Proof.
  intros s Hmatch Hpre Haction Hc rest.
  rewrite do_deliver_loop_cons. cbv zeta. fold s. rewrite Hmatch.
  replace (ARRAY_EMPTY (pre ++ t :: post)) with false by (by destruct pre).
  rewrite do_deliver_actions_app, Hpre. cbn [Z.eqb negb].
  rewrite do_deliver_actions_cons, Haction.
  apply Z.eqb_neq in Hc. by rewrite Hc.
Qed.

End MoreRules.

Lemma do_rule_and_only_witness :
  ∃ st1, do_rule (sample_conf [] DECISION_KEEP false false)
           (expr_rule [always MATCH_TRUE false OP_AND;
                       always MATCH_TRUE false OP_AND])
           (bob_state mail_hello) = Ok Next st1.
Proof.
  destruct (do_rule_and_only (sample_conf [] DECISION_KEEP false false)
              (expr_rule [always MATCH_TRUE false OP_AND;
                          always MATCH_TRUE false OP_AND]) []
              (bob_state mail_hello)) as (st1 & Hrule & _).
  - reflexivity.
  - repeat constructor.
  - repeat constructor; discriminate.
  - by exists st1.
Defined.

Lemma do_deliver_abort_witness :
  ∃ s2, do_deliver_loop (L := inchild_lib)
          (sample_conf [] DECISION_KEEP false false)
          (deliver_rule ["fail"; "keep"])
          [Replstr (Some "fail"); Replstr (Some "keep")]
          (bob_state mail_hello) = Ok 1 s2
    ∧ m_tags (st_mail s2) !! "action" = Some "fail".
Proof.
  eexists. split.
  - apply (do_deliver_abort (L := inchild_lib)
             (sample_conf [] DECISION_KEEP false false)
             (deliver_rule ["fail"; "keep"]) (Replstr (Some "fail"))
             (bob_state mail_hello) [keep_action] fail_action [keep_action]
             _ 1 _ eq_refl eq_refl eq_refl).
    discriminate.
  - reflexivity.
Defined.

(** *** The result of a fetched mail *)

Section MoreFetch.

Context {L : Lib}.
Variable conf : config.

Implicit Types (s : fstate) (m : mail) (a : account).

Lemma fetch_got_prepare_cause a : preserves st_cause (fetch_got_prepare conf a).
Proof.
  unfold fetch_got_prepare, fetch_got_message_id, fetch_got_received,
    fetch_got_wrapped. preservation.
Qed.

Lemma implicit_decision_cause : preserves st_cause (implicit_decision conf).
Proof. unfold implicit_decision. preservation. Qed.

Lemma fetch_got_outcome i a m cause lg res st' :
  fetch_got conf i a m cause lg = Ok res st' →
  (res = FETCH_SUCCESS ∧ st_cause st' = cause
   ∧ (conf_keep_all conf || a_keep a = true →
      m_decision (st_mail st') = DECISION_KEEP))
  ∨ (res = FETCH_ERROR
     ∧ (st_cause st' = Some "matching" ∨ st_cause st' = Some "delivery")).
Proof.
  unfold fetch_got. intros ([] & st0 & Hprep & Hrules)%bind_Ok.
  apply fetch_got_prepare_cause in Hprep. cbn in Hprep.
  unfold fetch_got_rules in Hrules. rewrite bind_modify in Hrules.
  apply bind_Ok in Hrules as (c & s1 & Hrun & Hrest).
  assert (rule_outcome
            (with_mctx (λ c, mctx_with_stopped false (mctx_with_matched false c))
               st0) (Return c) s1) as [_ Hout].
  { apply (do_rules_outcome conf (conf_rules conf)); [|done].
    apply Forall_forall. intros r _. apply do_rule_outcome. }
  change (st_cause (with_mctx _ st0)) with (st_cause st0) in Hout.
  destruct Hout as [[-> Hc]|[-> Hc]]; cbn [Z.eqb negb] in Hrest.
  - left. rewrite bind_gets in Hrest.
    apply bind_Ok in Hrest as ([] & s2 & Himpl & Hdone).
    assert (st_cause s2 = st_cause s1) as Hs2.
    { destruct (st_stopped s1).
      - by injection Himpl as <-.
      - exact (implicit_decision_cause _ _ _ Himpl). }
    unfold fetch_got_done in Hdone.
    destruct (conf_keep_all conf || a_keep a).
    + rewrite bind_modify in Hdone. injection Hdone as <- <-.
      split; [done|]. split; [cbn; congruence | done].
    + rewrite bind_ret in Hdone. injection Hdone as <- <-.
      split; [done|]. split; [congruence | done].
  - right. injection Hrest as <- <-. split; [done|].
    destruct Hc; auto.
Qed.

(** [fetch_got] returns [FETCH_SUCCESS] or [FETCH_ERROR] and nothing
    else.  With [FETCH_SUCCESS] the cause is as it was, and the mail is
    kept when the keep-all option or the keep flag of the account is
    set; with [FETCH_ERROR] the cause is "matching" or "delivery". *)
Theorem fetch_got_result i a m cause lg res st' :
  fetch_got conf i a m cause lg = Ok res st' →
  (res = FETCH_SUCCESS ∧ st_cause st' = cause
   ∧ (conf_keep_all conf || a_keep a = true →
      m_decision (st_mail st') = DECISION_KEEP))
  ∨ (res = FETCH_ERROR
     ∧ (st_cause st' = Some "matching" ∨ st_cause st' = Some "delivery")).
Proof. apply fetch_got_outcome. Qed.

(** When the rules fail, [fetch_got] returns [FETCH_ERROR] in the state
    the rules left: the implicit decision is not taken and the keep-all
    option is not applied. *)
Theorem fetch_got_error i a m cause lg st0 c st' :
  fetch_got_prepare conf a (State (MatchCtx i a m false false) cause lg)
  = Ok tt st0 →
  do_rules conf (conf_rules conf)
    (with_mctx (λ c, mctx_with_stopped false (mctx_with_matched false c)) st0)
  = Ok c st' →
  c ≠ 0 →
  fetch_got conf i a m cause lg = Ok FETCH_ERROR st'.
Proof.
  intros Hprep Hrules Hc.
  unfold fetch_got. rewrite (bind_eq _ _ _ _ _ Hprep).
  unfold fetch_got_rules. rewrite bind_modify, (bind_eq _ _ _ _ _ Hrules).
  apply Z.eqb_neq in Hc. by rewrite Hc.
Qed.

End MoreFetch.

Lemma fetch_got_result_witness :
  ∃ st', fetch_got (sample_conf [deliver_rule ["nosuch"]] DECISION_KEEP true false)
           empty_io bob mail_hello None [] = Ok FETCH_ERROR st'
    ∧ st_cause st' = Some "delivery".
Proof.
  eexists. split; [reflexivity|].
  match goal with
  | |- st_cause ?s = _ =>
      pose proof (fetch_got_result
                    (sample_conf [deliver_rule ["nosuch"]] DECISION_KEEP true false)
                    empty_io bob mail_hello None [] FETCH_ERROR s eq_refl) as H
  end.
  destruct H as [[Hres _]|[_ [Hc|Hc]]];
    [discriminate Hres | vm_compute in Hc; discriminate Hc | exact Hc].
Defined.

Lemma fetch_got_error_witness :
  ∃ st', fetch_got (sample_conf [deliver_rule ["nosuch"]] DECISION_KEEP true false)
           empty_io bob mail_hello None [] = Ok FETCH_ERROR st'
    ∧ m_decision (st_mail st') = DECISION_DROP.
Proof.
  eexists. split.
  - eapply (fetch_got_error
              (sample_conf [deliver_rule ["nosuch"]] DECISION_KEEP true false)
              empty_io bob mail_hello None [] _ 1);
      [reflexivity | reflexivity | discriminate].
  - reflexivity.
Defined.

(** *** The counts and the cause of the fetch loop *)

Section MoreLoop.

Context {L : Lib}.
Variable conf : config.

Implicit Types (s : fstate) (m : mail) (a : account).

Lemma fetch_purge_outcome s :
  match fetch_purge conf s with
  | F_next s' =>
      fs_dropped s' = fs_dropped s ∧ fs_kept s' = fs_kept s
      ∧ fs_cause s' = fs_cause s
  | F_out s' =>
      fs_dropped s' = fs_dropped s ∧ fs_kept s' = fs_kept s
      ∧ fs_cause s' = Some "purging"
  | F_fatal _ => False
  end.
Proof.
  unfold fetch_purge.
  destruct (f_purge (a_fetch (fs_account s))) as [purge|]; [|done].
  destruct (conf_purge_after conf >? 0); [|done]. cbv zeta.
  destruct (_ >=? _); [|done].
  by destruct (negb (bool_decide _)).
Qed.

Lemma fetch_done_outcome s m :
  match fetch_done conf s m with
  | F_next s' =>
      counts_step s s'
      ∧ fs_cause s' = match f_done (a_fetch (fs_account s)) with
                      | Some _ => None
                      | None => fs_cause s
                      end
  | F_out s' =>
      counts_step s s'
      ∧ (fs_cause s' = Some "deleting" ∨ fs_cause s' = Some "keeping"
         ∨ fs_cause s' = Some "purging")
  | F_fatal why =>
      why = "invalid decision" ∧ m_decision m = DECISION_NONE
      ∧ is_Some (f_done (a_fetch (fs_account s)))
  end
  ∧ (f_done (a_fetch (fs_account s)) = None →
     ∀ s', fetch_done conf s m = F_next s' ∨ fetch_done conf s m = F_out s' →
           fs_dropped s' = fs_dropped s ∧ fs_kept s' = fs_kept s).
Proof.
  unfold fetch_done, counts_step.
  destruct (f_done (a_fetch (fs_account s))) as [done|].
  2:{ pose proof (fetch_purge_outcome s) as Hp. split.
      - destruct (fetch_purge conf s) as [s'|s'|]; [| |done];
          destruct Hp as (Hd & Hk & Hc); auto.
      - intros _ s' [Hs'|Hs']; rewrite Hs' in Hp; by destruct Hp as (? & ? & _). }
  split; [|done].
  destruct (m_decision m); [by eauto| |]; cbv zeta;
    (destruct (negb (bool_decide _)); [cbn; by auto|]);
    match goal with
    | |- context [fetch_purge conf ?s1] =>
        pose proof (fetch_purge_outcome s1) as Hp;
        destruct (fetch_purge conf s1) as [s'|s'|]; [| |done];
        destruct Hp as (Hd & Hk & Hc); cbn in Hd, Hk, Hc; auto
    end.
Qed.

Lemma fetch_iter_outcome s :
  match fetch_iter conf s with
  | F_next s' =>
      counts_step s s' ∧ (fs_cause s = None → fs_cause s' = None)
  | F_out s' =>
      counts_step s s'
      ∧ (fs_cause s = None →
         (fs_cause s' = None ∧ fetch_ends_input s)
         ∨ (∃ stage, fs_cause s' = Some stage ∧ stage ∈ stages
                     ∧ ¬ fetch_ends_input s))
  | F_fatal _ => True
  end.
Proof.
  unfold fetch_iter. cbv zeta.
  destruct (f_fetch (a_fetch (fs_account s))) as [fetch_fn|] eqn:Hfetch; [|done].
  destruct (fetch_fn (a_data (fs_account s)) fresh_mail) as [error m] eqn:Hm.
  assert (error ≠ FETCH_COMPLETE → ¬ fetch_ends_input s) as Hnot.
  { intros Hne (fn & m' & Hfn & Hfn'). congruence. }
  assert (∀ stage : string, stage ∈ stages → ∀ s' : fstate,
            fs_cause s' = Some stage → error ≠ FETCH_COMPLETE →
            (fs_cause s' = None ∧ fetch_ends_input s)
            ∨ (∃ stage, fs_cause s' = Some stage ∧ stage ∈ stages
                        ∧ ¬ fetch_ends_input s)) as Hstage.
  { intros stage Hin s' Hs' Hne. right. exists stage. auto. }
  assert (∀ s1 m1,
            fs_dropped s1 = fs_dropped s → fs_kept s1 = fs_kept s →
            (fs_cause s = None → fs_cause s1 = None) →
            error ≠ FETCH_COMPLETE →
            match fetch_done conf s1 m1 with
            | F_next s' =>
                counts_step s s' ∧ (fs_cause s = None → fs_cause s' = None)
            | F_out s' =>
                counts_step s s'
                ∧ (fs_cause s = None →
                   (fs_cause s' = None ∧ fetch_ends_input s)
                   ∨ (∃ stage, fs_cause s' = Some stage ∧ stage ∈ stages
                               ∧ ¬ fetch_ends_input s))
            | F_fatal _ => True
            end) as Hdone.
  { intros s1 m1 Hd Hk Hc Hne.
    destruct (fetch_done_outcome s1 m1) as [Hout _].
    unfold counts_step in *. rewrite Hd, Hk in Hout.
    destruct (fetch_done conf s1 m1) as [s'|s'|]; [| |done].
    - destruct Hout as [Hcount Hcause]. split; [done|]. intros Hnone.
      rewrite Hcause. destruct (f_done _); auto.
    - destruct Hout as [Hcount Hcause]. split; [done|]. intros _.
      destruct Hcause as [Hs'|[Hs'|Hs']];
        (eapply Hstage; [|exact Hs'|done]); apply list_elem_of_In; cbn; auto 10. }
  destruct error.
  - destruct (m_size (trim_from m) =? 0).
    { split; [by left|]. done. }
    destruct (fetch_got conf _ _ _ _ _) as [res st|] eqn:Hgot; [|done].
    destruct (fetch_got_outcome _ _ _ _ _ _ _ _ Hgot) as [(-> & Hc & _)|[-> Hc]].
    + rewrite bool_decide_eq_true_2 by done. cbn [negb].
      apply Hdone; [done|done| |done]. cbn. intros Hnone. by rewrite Hc.
    + rewrite bool_decide_eq_false_2 by done. cbn [negb].
      split; [by left|]. intros _.
      destruct Hc as [Hc|Hc]; (eapply Hstage; [|exact Hc|done]);
        apply list_elem_of_In; cbn; auto 10.
  - split; [by left|]. intros _.
    eapply (Hstage "fetching"); [apply list_elem_of_In; cbn; auto 10|done|done].
  - destruct (conf_del_big conf).
    + by apply Hdone.
    + split; [by left|]. intros _.
      eapply (Hstage "fetching"); [apply list_elem_of_In; cbn; auto 10|done|done].
  - split; [by left|]. intros Hnone. left. split; [done|].
    exists fetch_fn, m. done.
Qed.

(** Every iteration of the loop counts at most one mail, as dropped or
    as kept, and a backend without a completion hook counts none: its
    summary always reads zero mails. *)
Theorem fetch_iter_counts s s' :
  fetch_iter conf s = F_next s' ∨ fetch_iter conf s = F_out s' →
  counts_step s s'
  ∧ (f_done (a_fetch (fs_account s)) = None →
     fs_dropped s' = fs_dropped s ∧ fs_kept s' = fs_kept s).
Proof.
  intros Hiter. split.
  - pose proof (fetch_iter_outcome s) as Hout.
    destruct Hiter as [Hs'|Hs']; rewrite Hs' in Hout; by destruct Hout.
  - intros Hnone. revert Hiter. unfold fetch_iter. cbv zeta.
    destruct (f_fetch (a_fetch (fs_account s))) as [fetch_fn|];
      [|by intros [|]].
    destruct (fetch_fn _ _) as [error m].
    assert (∀ s1 m1, a_fetch (fs_account s1) = a_fetch (fs_account s) →
              fs_dropped s1 = fs_dropped s → fs_kept s1 = fs_kept s →
              fetch_done conf s1 m1 = F_next s'
              ∨ fetch_done conf s1 m1 = F_out s' →
              fs_dropped s' = fs_dropped s ∧ fs_kept s' = fs_kept s) as Hdone.
    { intros s1 m1 Hf Hd Hk Hrun.
      destruct (fetch_done_outcome s1 m1) as [_ Hsame].
      rewrite Hf in Hsame. destruct (Hsame Hnone s' Hrun). split; congruence. }
    destruct error.
    + destruct (_ =? 0); [by intros [[= <-]|[=]]|].
      destruct (fetch_got conf _ _ _ _ _) as [res st|]; [|by intros [|]].
      destruct (negb (bool_decide _)); [by intros [[=]|[= <-]]|].
      by apply Hdone.
    + by intros [[=]|[= <-]].
    + destruct (conf_del_big conf); [by apply Hdone|by intros [[=]|[= <-]]].
    + by intros [[=]|[= <-]].
Qed.

(** In a run that has not failed so far, the loop is left without a
    cause exactly when the backend answers with the end of the input;
    every other way out of the loop has a cause. *)
Theorem fetch_iter_ends s s' :
  fs_cause s = None →
  fetch_iter conf s = F_out s' →
  fs_cause s' = None ↔ fetch_ends_input s.
Proof.
  intros Hnone Hiter. pose proof (fetch_iter_outcome s) as Hout.
  rewrite Hiter in Hout. destruct Hout as [_ Hout].
  destruct (Hout Hnone) as [[Hc Hend]|(stage & Hc & _ & Hnot)].
  - done.
  - split; [congruence|done].
Qed.

Lemma fetch_loop_outcome fuel : ∀ s fl,
  fs_cause s = None →
  fetch_loop conf fuel s = Some fl →
  match fl with
  | F_next _ => False
  | F_out s' =>
      fs_cause s' = None ∨ ∃ stage, fs_cause s' = Some stage ∧ stage ∈ stages
  | F_fatal _ => True
  end.
Proof.
  induction fuel as [|fuel IH]; intros s fl Hnone Hrun; [done|].
  cbn [fetch_loop] in Hrun. pose proof (fetch_iter_outcome s) as Hout.
  destruct (fetch_iter conf s) as [s1|s1|why].
  - destruct Hout as [_ Hc]. exact (IH _ _ (Hc Hnone) Hrun).
  - injection Hrun as <-. destruct Hout as [_ Hc].
    destruct (Hc Hnone) as [[Hc' _]|(stage & Hc' & Hin & _)]; eauto.
  - by injection Hrun as <-.
Qed.

Lemma fetch_out_spec s :
  fs_n (fetch_out s).2 = u_add (fs_dropped s) (fs_kept s)
  ∧ fs_cause (fetch_out s).2 = fs_cause s
  ∧ fs_dropped (fetch_out s).2 = fs_dropped s
  ∧ fs_kept (fetch_out s).2 = fs_kept s
  ∧ (fetch_out s).1 = match fs_cause s with None => 0 | Some _ => 1 end.
Proof.
  destruct s as [i a cause lg n dropped kept]. unfold fetch_out.
  destruct cause; cbn; destruct (_ >? 0); done.
Qed.

(** [fetch_account] returns [0] when the loop is left without a cause,
    and [1] when it is left with one, which is then one of the six
    stages "fetching", "matching", "delivery", "deleting", "keeping" and
    "purging"; the count of the summary is the sum of the dropped and
    the kept mails. *)
Theorem fetch_account_status fuel i a lg c s' :
  fetch_account conf fuel i a lg = Some (inl (c, s')) →
  fs_n s' = u_add (fs_dropped s') (fs_kept s')
  ∧ ((c = 0 ∧ fs_cause s' = None)
     ∨ (c = 1 ∧ ∃ stage, fs_cause s' = Some stage ∧ stage ∈ stages)).
Proof.
  unfold fetch_account.
  destruct (fetch_loop conf fuel _) as [fl|] eqn:Hloop; [|done].
  apply fetch_loop_outcome in Hloop; [|done].
  destruct fl as [s1|s1|why]; [done| |done].
  destruct (fetch_out_spec s1) as (Hn & Hc & Hd & Hk & Hret).
  destruct (fetch_out s1) as [c1 s2]. cbn [fst snd] in *.
  intros [= <- <-]. split; [congruence|].
  destruct Hloop as [Hnone|(stage & Hsome & Hin)].
  - left. rewrite Hnone in Hret. split; congruence.
  - right. rewrite Hsome in Hret. split; [done|]. exists stage.
    split; [congruence|done].
Qed.

End MoreLoop.

Lemma fetch_iter_counts_witness :
  counts_step big_state
    (FState empty_io
       (account_call (C_done DECISION_DROP) (account_call C_fetch big_account))
       None [(LOG_WARN, L_too_big 9999); (LOG_DEBUG, L_deleting)] 0 1 0).
Proof.
  apply (fetch_iter_counts (sample_conf [] DECISION_KEEP false true) big_state).
  left. reflexivity.
Defined.

Lemma fetch_iter_ends_witness : fetch_ends_input big_state_done.
Proof.
  apply (fetch_iter_ends (sample_conf [] DECISION_KEEP false true)
           big_state_done
           (FState empty_io (account_call C_fetch (fs_account big_state_done))
              None [] 0 1 0));
    reflexivity.
Defined.

Lemma fetch_account_status_witness :
  ∃ s', fetch_account (sample_conf [] DECISION_KEEP false true) 2
          empty_io big_account [] = Some (inl (0, s'))
    ∧ fs_n s' = u_add (fs_dropped s') (fs_kept s').
Proof.
  eexists. split; [reflexivity|].
  match goal with
  | |- fs_n ?s = _ =>
      exact (proj1 (fetch_account_status
                      (sample_conf [] DECISION_KEEP false true) 2
                      empty_io big_account [] 0 s eq_refl))
  end.
Defined.

(** *** The ways through an iteration of the fetch loop *)

Section MoreIter.

Context {L : Lib}.
Variable conf : config.

Implicit Types (s : fstate) (m : mail) (a : account).

(** A mail that is empty once its "From " line is trimmed is ignored
    with a warning: the rules are not run, the completion hook is not
    called, nothing is counted, and the loop goes on. *)
Theorem fetch_iter_empty s fetch_fn m :
  f_fetch (a_fetch (fs_account s)) = Some fetch_fn →
  fetch_fn (a_data (fs_account s)) fresh_mail = (FETCH_SUCCESS, m) →
  m_size (trim_from m) = 0 →
  ∀ fuel, fetch_loop conf (S fuel) s
          = fetch_loop conf fuel
              (FState (fs_io s) (account_call C_fetch (fs_account s))
                 (fs_cause s) (fs_log s ++ [(LOG_WARN, L_empty_message)])
                 (fs_n s) (fs_dropped s) (fs_kept s)).
Proof.
  intros Hfetch Hm Hsize fuel. cbn [fetch_loop].
  unfold fetch_iter. cbv zeta. rewrite Hfetch, Hm, Hsize. done.
Qed.

(** A fetch that fails, and an oversized mail when oversized mails are
    not to be discarded, end the run with the cause "fetching": the
    completion hook is not called and nothing more is counted. *)
Theorem fetch_iter_abort s fetch_fn error m :
  f_fetch (a_fetch (fs_account s)) = Some fetch_fn →
  fetch_fn (a_data (fs_account s)) fresh_mail = (error, m) →
  error = FETCH_ERROR ∨ (error = FETCH_OVERSIZE ∧ conf_del_big conf = false) →
  ∃ s', (∀ fuel, fetch_loop conf (S fuel) s = Some (F_out s'))
    ∧ fs_cause s' = Some "fetching"
    ∧ fs_account s' = account_call C_fetch (fs_account s)
    ∧ fs_dropped s' = fs_dropped s ∧ fs_kept s' = fs_kept s
    ∧ (fetch_out s').1 = 1.
Proof.
  intros Hfetch Hm Herr.
  assert (∃ s', fetch_iter conf s = F_out s'
            ∧ fs_cause s' = Some "fetching"
            ∧ fs_account s' = account_call C_fetch (fs_account s)
            ∧ fs_dropped s' = fs_dropped s ∧ fs_kept s' = fs_kept s)
    as (s' & Hiter & Hc & Hrest).
  { unfold fetch_iter. cbv zeta. rewrite Hfetch, Hm.
    destruct Herr as [->|[-> ->]]; by eexists. }
  exists s'. split; [|split; [done|]].
  - intros fuel. cbn [fetch_loop]. by rewrite Hiter.
  - destruct (fetch_out_spec s') as (_ & _ & _ & _ & Hret).
    rewrite Hc in Hret. by intuition.
Qed.

(** A backend that has no mail gives a clean run: [fetch_account]
    returns [0], calls no hook but [fetch], and its summary counts no
    mail. *)
Theorem fetch_account_no_mail fuel i a lg fetch_fn m :
  f_fetch (a_fetch a) = Some fetch_fn →
  fetch_fn (a_data a) fresh_mail = (FETCH_COMPLETE, m) →
  fetch_account conf (S fuel) i a lg
  = Some (inl (0, FState i (account_call C_fetch a) None
                    ((lg ++ [(LOG_DEBUG, L_fetching)])
                       ++ [(LOG_INFO, L_processed 0)]) 0 0 0)).
Proof.
  intros Hfetch Hm. unfold fetch_account. cbn [fetch_loop].
  unfold fetch_iter. cbv zeta. cbn [fs_account a_fetch a_data].
  by rewrite Hfetch, Hm.
Qed.

(** The purge counter stays below the threshold.  The purge hook is
    called exactly for the mail with which the counter reaches the
    threshold; the counter then starts again from zero, or the run ends
    with the cause "purging" when the hook fails. *)
Theorem fetch_purge_threshold s purge :
  f_purge (a_fetch (fs_account s)) = Some purge →
  0 < conf_purge_after conf < UINT_MOD →
  0 ≤ fs_n s < conf_purge_after conf →
  (fs_n s + 1 < conf_purge_after conf →
   fetch_purge conf s = F_next (fs_with_n (fs_n s + 1) s))
  ∧ (fs_n s + 1 = conf_purge_after conf →
     let s1 := fs_call C_purge
                 (fs_with_log (LOG_DEBUG, L_purging (conf_purge_after conf))
                    (fs_with_n (conf_purge_after conf) s)) in
     fetch_purge conf s
     = if bool_decide (purge (a_data (fs_account s)) = FETCH_SUCCESS)
       then F_next (fs_with_n 0 s1)
       else F_out (fs_with_cause (Some "purging") s1))
  ∧ (∀ s', fetch_purge conf s = F_next s' →
           0 ≤ fs_n s' < conf_purge_after conf).
Proof.
  intros Hpurge Hafter Hn.
  assert (u_incr (fs_n s) = fs_n s + 1) as Hincr.
  { unfold u_incr. apply Z.mod_small. lia. }
  assert ((conf_purge_after conf >? 0) = true) as Hgt by (apply Z.gtb_lt; lia).
  assert (fs_n s + 1 < conf_purge_after conf →
          fetch_purge conf s = F_next (fs_with_n (fs_n s + 1) s)) as Hless.
  { intros Hlt. unfold fetch_purge. rewrite Hpurge, Hgt. cbv zeta.
    cbn [fs_n fs_with_n]. rewrite Hincr.
    replace (fs_n s + 1 >=? conf_purge_after conf) with false; [done|].
    symmetry. rewrite Z.geb_leb. apply Z.leb_gt. lia. }
  assert (fs_n s + 1 = conf_purge_after conf →
          fetch_purge conf s
          = if bool_decide (purge (a_data (fs_account s)) = FETCH_SUCCESS)
            then F_next (fs_with_n 0
                   (fs_call C_purge
                      (fs_with_log (LOG_DEBUG, L_purging (conf_purge_after conf))
                         (fs_with_n (conf_purge_after conf) s))))
            else F_out (fs_with_cause (Some "purging")
                   (fs_call C_purge
                      (fs_with_log (LOG_DEBUG, L_purging (conf_purge_after conf))
                         (fs_with_n (conf_purge_after conf) s))))) as Heq.
  { intros Heq. unfold fetch_purge. rewrite Hpurge, Hgt. cbv zeta.
    cbn [fs_n fs_with_n]. rewrite Hincr, Heq.
    replace (conf_purge_after conf >=? conf_purge_after conf) with true
      by (symmetry; rewrite Z.geb_leb; apply Z.leb_le; lia).
    cbn [fs_account fs_with_n fs_with_log a_data].
    by destruct (bool_decide _). }
  split; [exact Hless|]. split; [exact Heq|].
  intros s'. destruct (decide (fs_n s + 1 < conf_purge_after conf)) as [Hlt|Hge].
  - rewrite (Hless Hlt). intros [= <-]. cbn. lia.
  - rewrite Heq by lia. destruct (bool_decide _); [|done].
    intros [= <-]. cbn. lia.
Qed.

End MoreIter.

Lemma fetch_iter_empty_witness :
  fetch_loop (sample_conf [] DECISION_KEEP false false) 2
    (FState empty_io empty_mail_account None [] 0 0 0)
  = fetch_loop (sample_conf [] DECISION_KEEP false false) 1
      (FState empty_io (account_call C_fetch empty_mail_account) None
         ([] ++ [(LOG_WARN, L_empty_message)]) 0 0 0).
Proof.
  apply (fetch_iter_empty (sample_conf [] DECISION_KEEP false false)
           (FState empty_io empty_mail_account None [] 0 0 0)
           (λ calls m, match calls with
                       | [] => (FETCH_SUCCESS, m)
                       | _ => (FETCH_COMPLETE, m)
                       end) fresh_mail);
    reflexivity.
Defined.

Lemma fetch_iter_abort_witness :
  ∃ s', (∀ fuel, fetch_loop (sample_conf [] DECISION_KEEP false false) (S fuel)
                   (FState empty_io broken_account None [] 0 0 0)
                 = Some (F_out s'))
    ∧ fs_cause s' = Some "fetching".
Proof.
  destruct (fetch_iter_abort (sample_conf [] DECISION_KEEP false false)
              (FState empty_io broken_account None [] 0 0 0)
              (λ _ m, (FETCH_ERROR, m)) FETCH_ERROR fresh_mail
              eq_refl eq_refl (or_introl eq_refl))
    as (s' & Hloop & Hcause & _).
  exists s'. split; [exact Hloop | exact Hcause].
Defined.

Lemma fetch_account_no_mail_witness :
  fetch_account (sample_conf [] DECISION_KEEP false false) 1 empty_io
    purge_account []
  = Some (inl (0, FState empty_io (account_call C_fetch purge_account) None
                    [(LOG_DEBUG, L_fetching); (LOG_INFO, L_processed 0)]
                    0 0 0)).
Proof.
  apply (fetch_account_no_mail (sample_conf [] DECISION_KEEP false false) 0
           empty_io purge_account [] (λ _ m, (FETCH_COMPLETE, m)) fresh_mail);
    reflexivity.
Defined.

Lemma fetch_purge_threshold_witness :
  fetch_purge purge_conf (FState empty_io purge_account None [] 1 0 0)
  = F_next (FState empty_io (account_call C_purge purge_account) None
              [(LOG_DEBUG, L_purging 2)] 0 0 0).
Proof.
  destruct (fetch_purge_threshold purge_conf
              (FState empty_io purge_account None [] 1 0 0)
              (λ _, FETCH_SUCCESS)) as (_ & Hcall & _).
  - reflexivity.
  - split; reflexivity.
  - split; [discriminate | reflexivity].
  - exact (Hcall eq_refl).
Defined.

(** *** The child process *)

Section MoreChild.

Context {L : Lib}.
Variable conf : config.

Implicit Types (s : fstate) (a : account) (e : sys) (i : io).

Lemma fetch_purge_backend s :
  match fetch_purge conf s with
  | F_next s' | F_out s' => a_fetch (fs_account s') = a_fetch (fs_account s)
  | F_fatal _ => True
  end.
Proof.
  unfold fetch_purge.
  destruct (f_purge (a_fetch (fs_account s))) as [purge|]; [|done].
  destruct (conf_purge_after conf >? 0); [|done]. cbv zeta.
  destruct (_ >=? _); [|done].
  by destruct (negb (bool_decide _)).
Qed.

Lemma fetch_done_backend s m :
  match fetch_done conf s m with
  | F_next s' | F_out s' => a_fetch (fs_account s') = a_fetch (fs_account s)
  | F_fatal _ => True
  end.
Proof.
  unfold fetch_done.
  destruct (f_done (a_fetch (fs_account s))) as [done|].
  2:{ apply fetch_purge_backend. }
  destruct (m_decision m); [done| |]; cbv zeta;
    (destruct (negb (bool_decide _)); [done|]);
    match goal with
    | |- context [fetch_purge conf ?s1] =>
        pose proof (fetch_purge_backend s1) as Hp;
        by destruct (fetch_purge conf s1)
    end.
Qed.

Lemma fetch_iter_backend s :
  match fetch_iter conf s with
  | F_next s' | F_out s' => a_fetch (fs_account s') = a_fetch (fs_account s)
  | F_fatal _ => True
  end.
Proof.
  unfold fetch_iter. cbv zeta.
  destruct (f_fetch (a_fetch (fs_account s))) as [fetch_fn|]; [|done].
  destruct (fetch_fn _ _) as [error m].
  destruct error; [| done | | done].
  - destruct (_ =? 0); [done|].
    destruct (fetch_got conf _ _ _ _ _) as [res st|]; [|done].
    destruct (negb (bool_decide _)); [done|].
    match goal with
    | |- context [fetch_done conf ?s1 ?m1] =>
        pose proof (fetch_done_backend s1 m1) as Hd;
        by destruct (fetch_done conf s1 m1)
    end.
  - destruct (conf_del_big conf); [|done].
    match goal with
    | |- context [fetch_done conf ?s1 ?m1] =>
        pose proof (fetch_done_backend s1 m1) as Hd;
        by destruct (fetch_done conf s1 m1)
    end.
Qed.

Lemma fetch_loop_backend fuel : ∀ s s',
  fetch_loop conf fuel s = Some (F_out s') →
  a_fetch (fs_account s') = a_fetch (fs_account s).
Proof.
  induction fuel as [|fuel IH]; intros s s' Hrun; [done|].
  cbn [fetch_loop] in Hrun. pose proof (fetch_iter_backend s) as Hb.
  destruct (fetch_iter conf s) as [s1|s1|why]; [| |done].
  - rewrite (IH _ _ Hrun). done.
  - by injection Hrun as <-.
Qed.

Lemma fetch_out_account s : fs_account (fetch_out s).2 = fs_account s.
Proof.
  destruct s as [i a cause lg n dropped kept]. unfold fetch_out.
  destruct cause; cbn; by destruct (_ >? 0).
Qed.

Lemma fetch_account_backend fuel i a lg c s' :
  fetch_account conf fuel i a lg = Some (inl (c, s')) →
  a_fetch (fs_account s') = a_fetch a.
Proof.
  unfold fetch_account.
  destruct (fetch_loop conf fuel _) as [fl|] eqn:Hloop; [|done].
  destruct fl as [s1|s1|why]; [| |done].
  - apply fetch_loop_outcome in Hloop; done.
  - apply fetch_loop_backend in Hloop.
    pose proof (fetch_out_account s1) as Ha.
    destruct (fetch_out s1) as [c1 s2]. intros [= <- <-].
    cbn [snd] in Ha. by rewrite Ha.
Qed.

(** What the label [out] of [do_child] gives when it returns. *)
Lemma do_child_out_return error a i lg error' a' i' lg' :
  do_child_out error a i lg = Child_return error' a' i' lg' →
  a' = match f_finish (a_fetch a) with
       | Some _ => account_call C_finish a
       | None => a
       end
  ∧ error' = match f_finish (a_fetch a) with
             | Some finish =>
                 if bool_decide (finish (a_data a) = FETCH_SUCCESS)
                 then error else 1
             | None => error
             end
  ∧ ∃ p rest h buf,
      io_peer i = p :: rest ∧ ps_send_ok p = true
      ∧ ps_reply p = Some (h, buf) ∧ msg_type h = MSG_EXIT
      ∧ i' = Io (io_sent i ++ [(exit_msg, ∅)]) rest.
Proof.
  unfold do_child_out, privsep_send, privsep_recv.
  destruct (io_peer i) as [|p rest] eqn:Hpeer.
  { by destruct (f_finish (a_fetch a)). }
  destruct (ps_send_ok p) eqn:Hsend.
  2:{ by destruct (f_finish (a_fetch a)). }
  cbn [io_peer]. destruct (ps_reply p) as [[h buf]|] eqn:Hreply.
  2:{ by destruct (f_finish (a_fetch a)). }
  destruct (bool_decide (msg_type h = MSG_EXIT)) eqn:Htype.
  2:{ by destruct (f_finish (a_fetch a)). }
  apply bool_decide_eq_true in Htype.
  destruct (f_finish (a_fetch a)) as [finish|]; cbn [negb].
  - destruct (bool_decide (finish (a_data a) = FETCH_SUCCESS));
      intros [= <- <- <- _]; (split; [done|]); (split; [done|]);
      by exists p, rest, h, buf.
  - intros [= <- <- <- _]. split; [done|]. split; [done|].
    by exists p, rest, h, buf.
Qed.

(** Every return of [do_child] goes through the label [out], with the
    hooks of the backend it began with. *)
Lemma do_child_through_out fuel e op a i error' a' i' lg' :
  do_child conf fuel e op a i = Some (Child_return error' a' i' lg') →
  ∃ error0 a0 i0 lg0,
    do_child_out error0 a0 i0 lg0 = Child_return error' a' i' lg'
    ∧ a_fetch a0 = a_fetch a.
Proof.
  unfold do_child. cbv zeta.
  destruct (_ && _); [done|].
  assert (∀ a1 lg1, a_fetch a1 = a_fetch a →
            do_child_process conf fuel op a1 i lg1
            = Some (Child_return error' a' i' lg') →
            ∃ error0 a0 i0 lg0,
              do_child_out error0 a0 i0 lg0 = Child_return error' a' i' lg'
              ∧ a_fetch a0 = a_fetch a) as Hprocess.
  { intros a1 lg1 Ha1. unfold do_child_process. cbv zeta. destruct op.
    - unfold poll_account. cbv zeta.
      destruct (f_poll (a_fetch a1)) as [poll|]; [|done].
      destruct (poll (a_data a1)) as [r n].
      destruct (bool_decide _); intros [= Hout]; eauto 10.
    - destruct (fetch_account conf fuel i a1 []) as [[[c s]|why]|] eqn:Hf;
        [|done|done].
      apply fetch_account_backend in Hf. intros [= Hout].
      eexists _, _, _, _. split; [exact Hout|]. congruence.
    - done. }
  assert (∀ a1 lg1, a_fetch a1 = a_fetch a →
            Some (do_child_out 1 a1 i lg1)
            = Some (Child_return error' a' i' lg') →
            ∃ error0 a0 i0 lg0,
              do_child_out error0 a0 i0 lg0 = Child_return error' a' i' lg'
              ∧ a_fetch a0 = a_fetch a) as Hout.
  { intros a1 lg1 Ha1 [= Hout]. eauto 10. }
  destruct op, (f_poll (a_fetch a)), (f_fetch (a_fetch a));
    first
      [ by apply Hout
      | destruct (f_start (a_fetch a)) as [start|];
        [ destruct (negb (bool_decide _)); [by apply Hout | by apply Hprocess]
        | by apply Hprocess ] ].
Qed.

(** Whenever [do_child] returns, the [finish] hook of the backend, if
    there is one, has been called, after every other hook; when it
    fails, [do_child] returns [1].  The last message written to the
    parent is the exit message, and the parent has answered it with an
    exit message. *)
Theorem do_child_return fuel e op a i error' a' i' lg' :
  do_child conf fuel e op a i = Some (Child_return error' a' i' lg') →
  (∀ finish, f_finish (a_fetch a) = Some finish →
     ∃ calls, a_data a' = calls ++ [C_finish]
       ∧ (finish calls ≠ FETCH_SUCCESS → error' = 1))
  ∧ ∃ sent, io_sent i' = sent ++ [(exit_msg, ∅)].
Proof.
  intros (error0 & a0 & i0 & lg0 & Hout & Hfetch)%do_child_through_out.
  apply do_child_out_return in Hout
    as (Ha' & Herr & p & rest & h & buf & _ & _ & _ & _ & Hi').
  rewrite Hfetch in Ha', Herr. split.
  - intros finish Hfin. rewrite Hfin in Ha', Herr.
    exists (a_data a0). split; [by rewrite Ha'|].
    intros Hfail. by rewrite bool_decide_eq_false_2 in Herr.
  - exists (io_sent i0). by rewrite Hi'.
Qed.

(** An operation that the backend does not support is not an error of
    the process but of the run: the [start] hook is not called, nothing
    is polled or fetched, the [finish] hook and the exchange of exit
    messages take place, and [do_child] returns [1]. *)
Theorem do_child_unsupported fuel e op a i :
  (sys_euid e =? 0) && negb (sys_dropto e =? 0) = false →
  (op = FDMOP_POLL ∧ f_poll (a_fetch a) = None)
  ∨ (op = FDMOP_FETCH ∧ f_fetch (a_fetch a) = None) →
  (∃ lg, do_child conf fuel e op a i = Some (do_child_out 1 a i lg))
  ∧ ∀ error' a' i' lg',
      do_child conf fuel e op a i = Some (Child_return error' a' i' lg') →
      error' = 1
      ∧ a_data a' = a_data a ++ match f_finish (a_fetch a) with
                                | Some _ => [C_finish]
                                | None => []
                                end
      ∧ io_sent i' = io_sent i ++ [(exit_msg, ∅)].
Proof.
  intros Hdrop Hop.
  assert (∃ lg, do_child conf fuel e op a i = Some (do_child_out 1 a i lg))
    as [lg Hrun].
  { unfold do_child. cbv zeta. rewrite Hdrop.
    destruct Hop as [[-> ->]|[-> ->]]; [by eexists|].
    destruct (f_poll (a_fetch a)); by eexists. }
  split; [by exists lg|].
  intros error' a' i' lg'. rewrite Hrun. intros [= Hout].
  apply do_child_out_return in Hout
    as (-> & -> & p & rest & h & buf & _ & _ & _ & _ & ->).
  split; [|split; [|done]].
  - destruct (f_finish (a_fetch a)); [|done]. by destruct (bool_decide _).
  - destruct (f_finish (a_fetch a)); [done|]. by rewrite app_nil_r.
Qed.

(** When the [start] hook fails, nothing is polled or fetched: the
    [finish] hook and the exchange of exit messages take place, and
    [do_child] returns [1]. *)
Theorem do_child_start_fails fuel e op a i start :
  (sys_euid e =? 0) && negb (sys_dropto e =? 0) = false →
  (op = FDMOP_POLL → is_Some (f_poll (a_fetch a))) →
  (op = FDMOP_FETCH → is_Some (f_fetch (a_fetch a))) →
  f_start (a_fetch a) = Some start →
  start (a_data a) ≠ FETCH_SUCCESS →
  (∃ lg, do_child conf fuel e op a i
         = Some (do_child_out 1 (account_call C_start a) i lg))
  ∧ ∀ error' a' i' lg',
      do_child conf fuel e op a i = Some (Child_return error' a' i' lg') →
      error' = 1
      ∧ a_data a' = (a_data a ++ [C_start])
                    ++ match f_finish (a_fetch a) with
                       | Some _ => [C_finish]
                       | None => []
                       end.
Proof.
  intros Hdrop Hpoll Hfetch Hstart Hfail.
  assert (∃ lg, do_child conf fuel e op a i
                = Some (do_child_out 1 (account_call C_start a) i lg))
    as [lg Hrun].
  { unfold do_child. cbv zeta. rewrite Hdrop, Hstart.
    rewrite bool_decide_eq_false_2 by done. cbn [negb].
    destruct op.
    - destruct (Hpoll eq_refl) as [poll ->]. by eexists.
    - destruct (Hfetch eq_refl) as [fetch_fn ->].
      destruct (f_poll (a_fetch a)); by eexists.
    - destruct (f_poll (a_fetch a)), (f_fetch (a_fetch a)); by eexists. }
  split; [by exists lg|].
  intros error' a' i' lg'. rewrite Hrun. intros [= Hout].
  apply do_child_out_return in Hout as (-> & -> & _).
  cbn [account_call a_fetch a_data]. split.
  - destruct (f_finish (a_fetch a)); [|done]. by destruct (bool_decide _).
  - destruct (f_finish (a_fetch a)); [done|]. by rewrite app_nil_r.
Qed.

(** Polling: every answer of the [poll] hook but [FETCH_ERROR] is a
    success.  [do_child] returns [0] exactly when the hook does not
    answer [FETCH_ERROR] and the [finish] hook, if there is one,
    succeeds. *)
Theorem do_child_poll fuel e a i poll error' a' i' lg' :
  f_poll (a_fetch a) = Some poll →
  f_start (a_fetch a) = None →
  do_child conf fuel e FDMOP_POLL a i = Some (Child_return error' a' i' lg') →
  error' = (if bool_decide ((poll (a_data a)).1 = FETCH_ERROR) then 1
            else match f_finish (a_fetch a) with
                 | Some finish =>
                     if bool_decide (finish (a_data a ++ [C_poll]) = FETCH_SUCCESS)
                     then 0 else 1
                 | None => 0
                 end)
  ∧ a_data a' = (a_data a ++ [C_poll])
                ++ match f_finish (a_fetch a) with
                   | Some _ => [C_finish]
                   | None => []
                   end.
Proof.
  intros Hpoll Hstart. unfold do_child. cbv zeta.
  destruct (_ && _); [done|]. rewrite Hpoll, Hstart.
  unfold do_child_process, poll_account. cbv zeta. rewrite Hpoll.
  destruct (poll (a_data a)) as [r n]. cbn [fst].
  destruct (bool_decide (r = FETCH_ERROR)); intros [= Hout];
    apply do_child_out_return in Hout as (-> & -> & _);
    cbn [account_call a_fetch a_data];
    (destruct (f_finish (a_fetch a)) as [finish|];
     [destruct (bool_decide _) | rewrite app_nil_r]); done.
Qed.

End MoreChild.

Lemma do_child_return_witness :
  ∃ sent, io_sent (Io [(exit_msg, ∅)] []) = sent ++ [(exit_msg, ∅)].
Proof.
  eapply (λ Hrun,
            proj2 (do_child_return (sample_conf [] DECISION_KEEP false false)
                     0 user_sys FDMOP_POLL poll_only_account exit_io
                     _ _ _ _ Hrun)).
  reflexivity.
Defined.

Lemma do_child_unsupported_witness :
  ∃ lg, do_child (sample_conf [] DECISION_KEEP false false) 0 user_sys
          FDMOP_FETCH poll_only_account exit_io
        = Some (do_child_out 1 poll_only_account exit_io lg).
Proof.
  apply (do_child_unsupported (sample_conf [] DECISION_KEEP false false)
           0 user_sys FDMOP_FETCH poll_only_account exit_io).
  - reflexivity.
  - right. split; reflexivity.
Defined.

Lemma do_child_start_fails_witness :
  ∃ lg, do_child (sample_conf [] DECISION_KEEP false false) 0 user_sys
          FDMOP_POLL failing_start_account exit_io
        = Some (do_child_out 1 (account_call C_start failing_start_account)
                  exit_io lg).
Proof.
  apply (do_child_start_fails (sample_conf [] DECISION_KEEP false false)
           0 user_sys FDMOP_POLL failing_start_account exit_io
           (λ _, FETCH_ERROR)).
  - reflexivity.
  - intros _. by eexists.
  - discriminate.
  - reflexivity.
  - discriminate.
Defined.

Lemma do_child_poll_witness :
  0 = (if bool_decide
            ((FETCH_SUCCESS, 3).1 = FETCH_ERROR) then 1
       else 0)
  ∧ a_data (account_call C_finish (account_call C_poll polled_account))
    = ([] ++ [C_poll]) ++ [C_finish].
Proof.
  eapply (do_child_poll (sample_conf [] DECISION_KEEP false false)
            0 user_sys polled_account exit_io (λ _, (FETCH_SUCCESS, 3)));
    reflexivity.
Defined.

